(** * LOGOS knowledge engine: modal classifier, escape-time positioner,
      expression kernel and knowledge store

    A shallow embedding of the parts of the repository that the
    specification talks about, and the properties that hold of them.

    Numbers.  The Python code computes with floats.  The embedding uses exact
    rationals ([Q]): every threshold test of the code is a comparison of
    rationals here, a complex number is a pair of rationals, and [abs z > r]
    is the comparison of the squared modulus with [r * r].  Distances, which
    the code obtains with [math.sqrt], are kept as the radicand under a
    constructor [Sqrt]. *)

From Stdlib Require Import QArith Qminmax Qabs Lqa ZArith Lia List String Bool
  Sorted.
From stdpp Require Import gmap strings list fin_maps.

Set Warnings "-register-all,-clear-no-such-hyp".

Local Open Scope string_scope.

(** ** Comparisons of rationals as booleans *)

Definition Qltb (x y : Q) : bool := negb (Qle_bool y x).

(** ** Modal classifier (Λ_onto_calculus_engine.py, trinity_vector.py) *)

Module Modal.

Local Open Scope Q_scope.

(** A trinity vector is the tuple (existence, goodness, truth). *)
Definition trinity : Type := (Q * Q * Q)%type.

Definition in_unit (x : Q) : Prop := 0 <= x /\ x <= 1.

(** The coherence computed at the head of [LambdaEngine.trinity_to_modal]:
<<
    ideal_g = existence * truth
    coherence = goodness / ideal_g if ideal_g > 0 else 0.0
    if goodness >= ideal_g:
        coherence = 1.0
>> *)
Definition coherence (v : trinity) : Q :=
  let '(existence, goodness, truth) := v in
  let ideal_g := existence * truth in
  let coherence := if Qltb 0 ideal_g then goodness / ideal_g else 0 in
  if Qle_bool ideal_g goodness then 1 else coherence.

(** [LambdaEngine.trinity_to_modal]. *)
Definition trinity_to_modal (v : trinity) : string :=
  let '(existence, goodness, truth) := v in
  let coherence := coherence v in
  if Qltb (95#100) truth && Qltb (9#10) existence && Qltb (9#10) coherence
  then "necessary"
  else if Qltb (5#10) truth && Qltb (5#10) existence then "actual"
  else if Qltb (5#100) truth && Qltb (5#100) existence then "possible"
  else "impossible".

(** [TrinityVector.calculate_modal_status] of trinity_vector.py, the second
    classifier of the repository: another coherence (no clamp, a 1e-6 guard
    in the denominator) and thresholds on truth alone. *)
Definition calculate_modal_status (v : trinity) : string * Q :=
  let '(existence, goodness, truth) := v in
  let coh := goodness / (existence * truth + (1 # 1000000)) in
  if Qltb (9#10) truth && Qltb (9#10) coh then ("necessary", coh)
  else if Qltb (5#10) truth then ("actual", coh)
  else if Qltb (1#10) truth then ("possible", coh)
  else ("impossible", coh).

(** The rules as the specification words them: non-strict thresholds for
    Necessary, first match wins. *)
Definition spec_modal (v : trinity) (coh : Q) : string :=
  let '(e, g, t) := v in
  if Qle_bool (95#100) t && Qle_bool (9#10) e && Qle_bool (9#10) coh
  then "necessary"
  else if Qltb (5#10) t && Qltb (5#10) e then "actual"
  else if Qltb (5#100) t && Qltb (5#100) e then "possible"
  else "impossible".

(** The coherence as the specification words it. *)
Definition spec_coherence (v : trinity) : Q :=
  let '(e, g, t) := v in
  if Qltb 0 (e * t) then Qmin 1 (Qmax 0 (g / (e * t))) else 0.

End Modal.

(** ** Escape-time positioner (Λ_onto_calculus_engine.py, FractalMapping) *)

Module Fractal.

Local Open Scope Q_scope.

(** A Python [complex]: real and imaginary part. *)
Definition complex : Type := (Q * Q)%type.

Definition cadd (a b : complex) : complex := (fst a + fst b, snd a + snd b).

Definition cmul (a b : complex) : complex :=
  (fst a * fst b - snd a * snd b, fst a * snd b + snd a * fst b).

(** Squared modulus; [abs z > r] is [r * r < norm_sq z] for [0 <= r]. *)
Definition norm_sq (z : complex) : Q := fst z * fst z + snd z * snd z.

(** [abs(z) > 2.0] *)
Definition escaped (z : complex) : bool := Qltb 4 (norm_sq z).

(** [FractalMapping.map_to_complex]:
    [complex(existence * truth, goodness)]. *)
Definition map_to_complex (trinity_vector : Q * Q * Q) : complex :=
  let '(existence, goodness, truth) := trinity_vector in
  (existence * truth, goodness).

(** The body of the [for i in range(max_iter)] loop of
    [compute_iterations]: [todo] iterations are left, [i] is the loop
    index. *)
Fixpoint iterate_from (c z : complex) (i : Z) (todo : nat) (max_iter : Z)
  : Z * bool :=
  match todo with
  | O => (max_iter, true)
  | S todo' =>
      let z := cadd (cmul z z) c in
      if escaped z then (i, false)
      else iterate_from c z (i + 1)%Z todo' max_iter
  end.

(** [FractalMapping.compute_iterations]:
<<
    z = complex(0, 0)
    for i in range(max_iter):
        z = z * z + c
        if abs(z) > 2.0:
            return i, False
    return max_iter, True
>> *)
Definition compute_iterations (c : complex) (max_iter : Z) : Z * bool :=
  iterate_from c (0, 0) 0%Z (Z.to_nat max_iter) max_iter.

(** [LambdaEngine.map_to_fractal]; it calls [compute_iterations(c)] with
    the default [max_iter = 100] and returns the dict with the keys ["c"],
    ["iterations"], ["in_set"]. *)
Definition map_to_fractal (trinity_vector : Q * Q * Q)
  : complex * Z * bool :=
  let c := map_to_complex trinity_vector in
  let '(iterations, in_set) := compute_iterations c 100 in
  (c, iterations, in_set).

(** The orbit of 0 under [z <- z*z + c]: the value of [z] after [n]
    updates. *)
Fixpoint orbit (c : complex) (n : nat) : complex :=
  match n with
  | O => (0, 0)
  | S n' => cadd (cmul (orbit c n') (orbit c n')) c
  end.



End Fractal.

(** ** Expression kernel (logos_lambda_core.py) *)

Module Lambda.

(** [class OntologicalType(Enum)] *)
Inductive OntologicalType : Type :=
  | EXISTENCE
  | GOODNESS
  | TRUTH
  | PROP.

#[global] Instance OntologicalType_eq_dec : EqDecision OntologicalType.
Proof. solve_decision. Defined.

(** The types [check_type] computes: an [OntologicalType] member or a
    [FunctionType(domain, codomain)] object.  The constructor of
    [FunctionType] annotates [domain] as an [OntologicalType], but nothing
    enforces it, and [check_type] itself tests
    [isinstance(func_type.domain, OntologicalType)]: the domain is any
    type here. *)
Inductive type : Type :=
  | Onto (t : OntologicalType)
  | FunctionType (domain : type) (codomain : type).

#[global] Instance type_eq_dec : EqDecision type.
Proof. solve_decision. Defined.

(** [class LogosExpr] and its subclasses; [Var] is the class [Variable]
    (a reserved word here), the others keep their names. *)
Inductive LogosExpr : Type :=
  | Var (name : string) (ont_type : OntologicalType)
  | Value (value : string) (ont_type : OntologicalType)
  | Constant (name : string) (const_type : type) (value : option LogosExpr)
  | Abstraction (var_name : string) (var_type : OntologicalType)
      (body : LogosExpr)
  | Application (func : LogosExpr) (arg : LogosExpr)
  | SufficientReason (source_type target_type : OntologicalType) (value : Z).

(** *** Type checker *)

(** What a call of a Python method does: it returns a value or raises. *)
Inductive outcome (A : Type) : Type :=
  | Returned (a : A)
  | Raised (exn : string).
Arguments Returned {A} a.
Arguments Raised {A} exn.

(** [create_logical_connectives] *)
Definition prop_to_prop : type := FunctionType (Onto PROP) (Onto PROP).
Definition prop_to_prop_to_prop : type :=
  FunctionType (Onto PROP) (FunctionType (Onto PROP) (Onto PROP)).

Definition create_logical_connectives : list (string * LogosExpr) :=
  [ ("NOT", Constant "NOT" prop_to_prop None);
    ("AND", Constant "AND" prop_to_prop_to_prop None);
    ("OR", Constant "OR" prop_to_prop_to_prop None);
    ("IMPLIES", Constant "IMPLIES" prop_to_prop_to_prop None);
    ("EQ", Constant "EQ" prop_to_prop_to_prop None) ].

(** [create_core_axioms] *)
Definition create_core_axioms : list (string * LogosExpr) :=
  let eq_op := Constant "EQ" prop_to_prop_to_prop None in
  let axiom (name : string) (l r : LogosExpr) :=
    (name, Constant name (Onto PROP)
             (Some (Application (Application eq_op l) r))) in
  [ axiom "AxiomAOI" (Value "ei" EXISTENCE) (Value "ID" PROP);
    axiom "AxiomAEC" (Value "og" GOODNESS) (Value "NC" PROP);
    axiom "AxiomAEF" (Value "at" TRUTH) (Value "EM" PROP) ].

Definition const_type_of (e : LogosExpr) : type :=
  match e with
  | Constant _ t _ => t
  | _ => Onto PROP
  end.

(** [TypeChecker._initialize_environment] *)
Definition TypeChecker_initial_env : gmap string type :=
  <["SR_G_T" := FunctionType (Onto GOODNESS) (Onto TRUTH)]>
  (<["SR_E_G" := FunctionType (Onto EXISTENCE) (Onto GOODNESS)]>
   (list_to_map
      (map (fun p => (fst p, const_type_of (snd p)))
         (create_logical_connectives ++ create_core_axioms)))).

(** The [SufficientReason] case of [check_type]. *)
Definition check_sr (source_type target_type : OntologicalType) (value : Z)
  : option type :=
  match source_type, target_type with
  | EXISTENCE, GOODNESS =>
      if (value =? 3)%Z
      then Some (FunctionType (Onto source_type) (Onto target_type))
      else None
  | GOODNESS, TRUTH =>
      if (value =? 2)%Z
      then Some (FunctionType (Onto source_type) (Onto target_type))
      else None
  | _, _ => None
  end.

(** [FunctionType.__str__] reads [self.domain.value] and then calls [str]
    on the codomain: it raises [AttributeError] when a domain on the way is
    not an [OntologicalType].  [printable t] says that [str(t)] returns. *)
Fixpoint printable (t : type) : bool :=
  match t with
  | Onto _ => true
  | FunctionType (Onto _) codomain => printable codomain
  | FunctionType (FunctionType _ _) _ => false
  end.

(** The test of the [Application] case; the message of the type error
    formats [arg_type]:
<<
    if isinstance(func_type.domain, OntologicalType) and func_type.domain != arg_type:
        print(f"Type error: Expected {func_type.domain}, got {arg_type}")
        return None
    return func_type.codomain
>> *)
Definition check_argument (domain codomain : type) (arg_type : option type)
  : outcome (option type) :=
  match domain with
  | Onto d =>
      if decide (arg_type = Some (Onto d)) then Returned (Some codomain)
      else
        match arg_type with
        | Some t =>
            if printable t then Returned None else Raised "AttributeError"
        | None => Returned None
        end
  | FunctionType _ _ => Returned (Some codomain)
  end.

(** [TypeChecker.check_type].  The method reads and writes [self.env]; the
    environment is passed in and returned.  [None] is Python's [None], the
    result on a type error.  [del self.env[x]] raises [KeyError] when the
    key is missing, and the message of a type error may raise (see
    [check_argument]; the other messages format an [OntologicalType],
    [None] or an expression, which always print); an exception leaves the
    method at once, without the restoring assignments. *)
Fixpoint check_type (env : gmap string type) (expr : LogosExpr)
  : outcome (option type) * gmap string type :=
  match expr with
  | Var name ont_type =>
      (Returned (Some (default (Onto ont_type) (env !! name))), env)
  | Value _ ont_type => (Returned (Some (Onto ont_type)), env)
  | Constant _ const_type _ => (Returned (Some const_type), env)
  | Abstraction var_name var_type body =>
      let old_binding := env !! var_name in
      let env := <[var_name := Onto var_type]> env in
      match check_type env body with
      | (Raised exn, env) => (Raised exn, env)
      | (Returned body_type, env) =>
          let restored :=
            match old_binding with
            | Some old => Returned (<[var_name := old]> env)
            | None =>
                match env !! var_name with
                | Some _ => Returned (delete var_name env)
                | None => Raised "KeyError"
                end
            end in
          match restored with
          | Raised exn => (Raised exn, env)
          | Returned env =>
              match body_type with
              | Some body_type =>
                  (Returned (Some (FunctionType (Onto var_type) body_type)),
                   env)
              | None => (Returned None, env)
              end
          end
      end
  | Application func arg =>
      match check_type env func with
      | (Raised exn, env) => (Raised exn, env)
      | (Returned (Some (FunctionType domain codomain)), env) =>
          match check_type env arg with
          | (Raised exn, env) => (Raised exn, env)
          | (Returned arg_type, env) =>
              (check_argument domain codomain arg_type, env)
          end
      | (Returned _, env) => (Returned None, env)
      end
  | SufficientReason source_type target_type value =>
      (Returned (check_sr source_type target_type value), env)
  end.

(** [check_type(expr)] returns [r] and leaves the environment [env] as it
    was. *)
Definition returns (env : gmap string type) (expr : LogosExpr)
  (r : option type) : Prop :=
  check_type env expr = (Returned r, env).

(** Expressions and environments whose function types are built as the
    constructor of [FunctionType] is annotated, with an [OntologicalType]
    for every domain. *)
Fixpoint annotated_expr (expr : LogosExpr) : Prop :=
  match expr with
  | Var _ _ | Value _ _ | SufficientReason _ _ _ => True
  | Constant _ const_type _ => printable const_type = true
  | Abstraction _ _ body => annotated_expr body
  | Application func arg => annotated_expr func /\ annotated_expr arg
  end.

Definition annotated_env (env : gmap string type) : Prop :=
  forall (name : string) (t : type),
    env !! name = Some t -> printable t = true.

(** *** Evaluator *)

(** [Evaluator._initialize_environment] *)
Definition Evaluator_initial_env : gmap string LogosExpr :=
  list_to_map (create_logical_connectives ++ create_core_axioms).

(** [Evaluator.substitute] *)
Fixpoint substitute (expr : LogosExpr) (var_name : string)
  (value : LogosExpr) : LogosExpr :=
  match expr with
  | Var name _ =>
      if decide (name = var_name) then value else expr
  | Value _ _ | Constant _ _ _ | SufficientReason _ _ _ => expr
  | Abstraction x var_type body =>
      if decide (x = var_name) then expr
      else Abstraction x var_type (substitute body var_name value)
  | Application func arg =>
      Application (substitute func var_name value)
        (substitute arg var_name value)
  end.

(** The connective case of [Evaluator.evaluate] for a function that
    evaluated to a [Constant]: only [NOT] on the two truth values
    reduces. *)
Definition evaluate_constant (func arg : LogosExpr) : LogosExpr :=
  match func, arg with
  | Constant name _ _, Value v _ =>
      if decide (name = "NOT") then
        if decide (v = "TrueProp") then Value "FalseProp" PROP
        else if decide (v = "FalseProp") then Value "TrueProp" PROP
        else Application func arg
      else Application func arg
  | _, _ => Application func arg
  end.

(** [Evaluator.evaluate].  The method takes the expression and nothing
    else; it calls itself on subterms and on the result of a substitution,
    so it is not structurally recursive.  [depth] bounds the nesting of the
    recursive calls: [None] says that the call did not return within that
    nesting (in CPython, a [RecursionError] once the interpreter's limit is
    reached). *)
Fixpoint evaluate (depth : nat) (env : gmap string LogosExpr)
  (expr : LogosExpr) : option LogosExpr :=
  match depth with
  | O => None
  | S depth =>
      match expr with
      | Var name _ => Some (default expr (env !! name))
      | Value _ _ | Constant _ _ _ | SufficientReason _ _ _ => Some expr
      | Abstraction var_name var_type body =>
          match evaluate depth env body with
          | Some new_body => Some (Abstraction var_name var_type new_body)
          | None => None
          end
      | Application func arg =>
          match evaluate depth env func with
          | None => None
          | Some func =>
              match evaluate depth env arg with
              | None => None
              | Some arg =>
                  match func with
                  | Abstraction var_name _ body =>
                      evaluate depth env (substitute body var_name arg)
                  | _ => Some (evaluate_constant func arg)
                  end
              end
          end
      end
  end.

(** [Evaluator._initialize_environment] of the second copy of the engine
    (logos_system/subsystems/TETRAGNOS/lambda_engine/lambda_engine.py). *)
Definition lambda_engine_initial_env : gmap string LogosExpr :=
  list_to_map
    [ ("ei", Value "ei" EXISTENCE);
      ("og", Value "og" GOODNESS);
      ("at", Value "at" TRUTH) ].

(** [Evaluator._evaluate] of the second copy of the engine
    (logos_system/subsystems/TETRAGNOS/lambda_engine/lambda_engine.py),
    which does take a budget: [if depth >= max_depth: return expr].
    [budget] is [max_depth - depth]. *)
Fixpoint _evaluate (budget : nat) (env : gmap string LogosExpr)
  (expr : LogosExpr) : LogosExpr :=
  match budget with
  | O => expr
  | S budget =>
      match expr with
      | Var name _ => default expr (env !! name)
      | Value _ _ | Constant _ _ _ | SufficientReason _ _ _ => expr
      | Abstraction var_name var_type body =>
          Abstraction var_name var_type (_evaluate budget env body)
      | Application func arg =>
          let func := _evaluate budget env func in
          let arg := _evaluate budget env arg in
          match func with
          | Abstraction var_name _ body =>
              _evaluate budget env (substitute body var_name arg)
          | _ => Application func arg
          end
      end
  end.

(** *** Free and bound variables *)

Fixpoint free_vars (expr : LogosExpr) : gset string :=
  match expr with
  | Var name _ => {[ name ]}
  | Value _ _ | Constant _ _ _ | SufficientReason _ _ _ => ∅
  | Abstraction x _ body => free_vars body ∖ {[ x ]}
  | Application func arg => free_vars func ∪ free_vars arg
  end.

Fixpoint bound_vars (expr : LogosExpr) : gset string :=
  match expr with
  | Var _ _ | Value _ _ | Constant _ _ _ | SufficientReason _ _ _ => ∅
  | Abstraction x _ body => {[ x ]} ∪ bound_vars body
  | Application func arg => bound_vars func ∪ bound_vars arg
  end.

(** Ω = (λx. x x) (λx. x x), built from the classes of the module. *)
Definition delta : LogosExpr :=
  Abstraction "x" EXISTENCE
    (Application (Var "x" EXISTENCE) (Var "x" EXISTENCE)).

Definition omega : LogosExpr := Application delta delta.

End Lambda.

(** ** k-d tree index (knowledge_store.py, KDNode and KDTree) *)

Module KD.

Local Open Scope Q_scope.

(** A distance [math.sqrt(q)], kept as its radicand. *)
Inductive distance : Type := Sqrt (radicand : Q).

Definition radicand (d : distance) : Q := let 'Sqrt q := d in q.

(** [d1 <= d2] on distances: the square root is monotone. *)
Definition distance_leb (d1 d2 : distance) : bool :=
  Qle_bool (radicand d1) (radicand d2).

(** [class KDNode]; [NoNode] is [None].  Patterns write [lft] and [rgt]
    for the fields [left] and [right]. *)
Inductive KDNode : Type :=
  | NoNode
  | MkKDNode (node_id : string) (point : list Q) (left right : KDNode).

(** [class KDTree]: the dimension [k] and the root. *)
Record KDTree : Type := MkKDTree { k : nat; root : KDNode }.

(** [KDTree(k)] *)
Definition new_tree (k : nat) : KDTree := MkKDTree k NoNode.

(** [point[axis]].  The store builds every point and every query with as
    many coordinates as the tree has dimensions, so the index is in range;
    out of range Python raises [IndexError], which is not modelled. *)
Definition coord (point : list Q) (axis : nat) : Q := nth axis point 0.

(** [KDTree._insert]; [axis = depth % self.k].  The trees of the store have
    [k = 3] and [k = 2]; for [k = 0] Python raises [ZeroDivisionError],
    which is not modelled ([depth mod 0] is [depth] here), and the case is
    excluded where a property depends on it. *)
Fixpoint _insert (k : nat) (node : KDNode) (node_id : string)
  (point : list Q) (depth : nat) : KDNode :=
  match node with
  | NoNode => MkKDNode node_id point NoNode NoNode
  | MkKDNode nid npoint lft rgt =>
      let axis := (depth mod k)%nat in
      if Qltb (coord point axis) (coord npoint axis)
      then MkKDNode nid npoint (_insert k lft node_id point (S depth)) rgt
      else MkKDNode nid npoint lft (_insert k rgt node_id point (S depth))
  end.

(** [KDTree.insert] *)
Definition insert (t : KDTree) (node_id : string) (point : list Q) : KDTree :=
  MkKDTree (k t) (_insert (k t) (root t) node_id point 0).

(** [sum((a - b) ** 2 for a, b in zip(node.point, point))] *)
Definition dist_sq (npoint point : list Q) : Q :=
  fold_left Qplus
    (map (fun ab => (fst ab - snd ab) * (fst ab - snd ab))
       (combine npoint point)) 0.

(** The heap items are the tuples [(-dist_sq, node_id)], compared as Python
    compares tuples: by the number, then by the string. *)
Definition item : Type := (Q * string)%type.

Definition item_leb (a b : item) : bool :=
  Qltb (fst a) (fst b)
  || (Qeq_bool (fst a) (fst b) && String.leb (snd a) (snd b)).

(** The list [nearest] that [heapq] maintains.  [heapq] keeps it as an
    array-shaped binary heap, of which the code reads the length and
    [nearest[0]], the least item; it is kept in ascending order here, which
    has the same length, the same items and the same [nearest[0]].  (The
    array order shows only in the order of results at equal distance.) *)
Fixpoint heap_insert (it : item) (heap : list item) : list item :=
  match heap with
  | [] => [it]
  | x :: rest =>
      if item_leb it x then it :: heap else x :: heap_insert it rest
  end.

(** [heapq.heappush(nearest, it)] *)
Definition heappush (heap : list item) (it : item) : list item :=
  heap_insert it heap.

(** [heapq.heapreplace(nearest, it)]: pop the least item, push [it]. *)
Definition heapreplace (heap : list item) (it : item) : list item :=
  match heap with
  | [] => []
  | _ :: rest => heap_insert it rest
  end.

(** [nearest[0][0]]; the list is not empty where the code reads it with
    [k >= 1].  On the empty list, which the code reads only for [k = 0] on
    a tree that is not empty, Python raises [IndexError]; that is not
    modelled, and the properties of the search take [k >= 1]. *)
Definition top_key (heap : list item) : Q :=
  match heap with
  | [] => 0
  | (key, _) :: _ => key
  end.

(** The update of the list [nearest] at a tree node:
<<
    if len(nearest) < k:
        heapq.heappush(nearest, (-dist_sq, node.node_id))
    elif -dist_sq > nearest[0][0]:
        heapq.heapreplace(nearest, (-dist_sq, node.node_id))
>> *)
Definition offer (kk : nat) (nearest : list item) (it : item) : list item :=
  if (length nearest <? kk)%nat then heappush nearest it
  else if Qltb (top_key nearest) (fst it) then heapreplace nearest it
       else nearest.

(** [KDTree._k_nearest_neighbors]; the list [nearest], which the method
    mutates, is passed in and returned. *)
Fixpoint _k_nearest_neighbors (dim : nat) (kk : nat) (point : list Q)
  (node : KDNode) (depth : nat) (nearest : list item) {struct node}
  : list item :=
  match node with
  | NoNode => nearest
  | MkKDNode nid npoint lft rgt =>
      let d := dist_sq npoint point in
      let nearest := offer kk nearest (- d, nid) in
      let axis := (depth mod dim)%nat in
      let diff := coord point axis - coord npoint axis in
      let visit_left := _k_nearest_neighbors dim kk point lft (S depth) in
      let visit_right := _k_nearest_neighbors dim kk point rgt (S depth) in
      let first := if Qltb diff 0 then visit_left else visit_right in
      let second := if Qltb diff 0 then visit_right else visit_left in
      let nearest := first nearest in
      if (length nearest <? kk)%nat || Qltb (diff * diff) (- top_key nearest)
      then second nearest
      else nearest
  end.

(** [result.sort(key=lambda x: x[1])]: a stable sort by distance. *)
Fixpoint insert_by_distance (x : string * distance)
  (l : list (string * distance)) : list (string * distance) :=
  match l with
  | [] => [x]
  | y :: rest =>
      if distance_leb (snd x) (snd y) then x :: l
      else y :: insert_by_distance x rest
  end.

Definition sort_by_distance (l : list (string * distance))
  : list (string * distance) :=
  fold_right insert_by_distance [] l.

(** [KDTree.k_nearest_neighbors] *)
Definition k_nearest_neighbors (t : KDTree) (point : list Q) (kk : nat)
  : list (string * distance) :=
  match root t with
  | NoNode => []
  | _ =>
      let nearest := _k_nearest_neighbors (k t) kk point (root t) 0 [] in
      let result :=
        map (fun it : item => (snd it, Sqrt (- fst it))) nearest in
      sort_by_distance result
  end.

(** The order of the results: ascending by distance. *)
Definition distance_le (a b : string * distance) : Prop :=
  radicand (snd a) <= radicand (snd b).

(** The (id, point) pairs stored in a tree, one per tree location. *)
Fixpoint entries (node : KDNode) : list (string * list Q) :=
  match node with
  | NoNode => []
  | MkKDNode nid npoint lft rgt =>
      (nid, npoint) :: entries lft ++ entries rgt
  end.

(** The ids stored in a tree, one per tree location. *)
Definition ids (node : KDNode) : list string := map fst (entries node).

(** The heap item [(-dist_sq, node_id)] of some tree node, for the query
    [point]. *)
Definition from_tree (point : list Q) (node : KDNode) (y : item) : Prop :=
  exists npoint, In (snd y, npoint) (entries node)
                 /\ fst y = - dist_sq npoint point.

End KD.

(** ** Knowledge store (knowledge_store.py, FractalKnowledgeStore) *)

Module Store.

Local Open Scope Q_scope.

(** The JSON scalars of a metadata dict. *)
Inductive jvalue : Type :=
  | JNum (q : Q)
  | JStr (s : string).

(** A relationship of a node: the triple
    [(relation_type, target_id, metadata)]. *)
Definition relationship : Type := (string * string * gmap string jvalue)%type.

(** The fields of an [OntologicalNode] that the store reads. *)
Record OntologicalNode : Type := MkNode {
  node_id : string;
  trinity_vector : Q * Q * Q;
  c : Q * Q;
  label : string;
  relationships : list relationship
}.

(** Modelled from the spec: [OntologicalNode.add_relationship]; the module
    [ontology.ontological_node] that knowledge_store.py imports is not among
    the sources.  The specification gives a node an ordered sequence of
    outgoing (kind, target_id, metadata) triples: adding one appends it. *)
Definition add_relationship (node : OntologicalNode) (relation_type : string)
  (target_id : string) (metadata : gmap string jvalue) : OntologicalNode :=
  MkNode (node_id node) (trinity_vector node) (c node) (label node)
    (relationships node ++ [(relation_type, target_id, metadata)]).

Definition set_relationships (node : OntologicalNode)
  (rels : list relationship) : OntologicalNode :=
  MkNode (node_id node) (trinity_vector node) (c node) (label node) rels.

Definition set_node_id (node : OntologicalNode) (id : string)
  : OntologicalNode :=
  MkNode id (trinity_vector node) (c node) (label node) (relationships node).

(** [OntologicalRelation] of utils/data_structures.py *)
Record OntologicalRelation : Type := MkRelation {
  source_id : string;
  target_id : string;
  relation_type : string;
  strength : jvalue;
  metadata : gmap string jvalue
}.

(** A row of the [relations] table. *)
Record relation_row : Type := MkRow {
  row_id : string;
  row_source_id : string;
  row_target_id : string;
  row_relation_type : string;
  row_weight : Q;
  row_metadata : gmap string jvalue
}.

(** The SQLite database: the [nodes] table by its primary key (the
    [metadata] column holds the serialised node), and the rows of the
    [relations] table in insertion order. *)
Record Database : Type := MkDatabase {
  nodes_table : gmap string OntologicalNode;
  relations_table : list relation_row
}.

(** [INSERT OR REPLACE INTO relations]: a row with the same primary key
    [id] is deleted, then the new row is inserted. *)
Definition insert_or_replace_relation (row : relation_row)
  (table : list relation_row) : list relation_row :=
  filter (fun r => row_id r ≠ row_id row) table ++ [row].

(** The state of a [FractalKnowledgeStore]. *)
Record FractalKnowledgeStore : Type := MkStore {
  cache_size : Z;
  persistence_enabled : bool;
  conn : option Database;
  trinity_index : KD.KDTree;
  complex_index : KD.KDTree;
  nodes : gmap string OntologicalNode
}.

Definition set_nodes (st : FractalKnowledgeStore)
  (m : gmap string OntologicalNode) : FractalKnowledgeStore :=
  MkStore (cache_size st) (persistence_enabled st) (conn st)
    (trinity_index st) (complex_index st) m.

Definition set_conn (st : FractalKnowledgeStore) (db : option Database)
  : FractalKnowledgeStore :=
  MkStore (cache_size st) (persistence_enabled st) db
    (trinity_index st) (complex_index st) (nodes st).

(** [FractalKnowledgeStore.__init__] on a configuration with the keys
    [cache_size] and [persistence_enabled], opening a new database:
<<
    self.cache_size = self.config.get("cache_size", 1000) # TODO: Implement cache eviction
    self.persistence_enabled = self.config.get("persistence_enabled", True)
    ...
    self.trinity_index = KDTree(k=3)
    self.complex_index = KDTree(k=2)
    self.nodes = {}  # Cache of loaded nodes
>> *)
Definition init (config_cache_size : option Z)
  (config_persistence_enabled : option bool) : FractalKnowledgeStore :=
  let persistence := default true config_persistence_enabled in
  MkStore (default 1000%Z config_cache_size) persistence
    (if persistence then Some (MkDatabase ∅ []) else None)
    (KD.new_tree 3) (KD.new_tree 2) ∅.

(** A second session on an existing database: an empty cache, the indices
    loaded from the [nodes] table ([_load_indices_from_db]).  The rows are
    inserted in the order of [map_to_list]; the [SELECT] of the code has no
    [ORDER BY], so the shape of the rebuilt trees is not fixed by the code
    either, and the properties of a reopened store do not depend on it. *)
Definition reopen (config_cache_size : option Z) (db : Database)
  : FractalKnowledgeStore :=
  let rows := map_to_list (nodes_table db) in
  MkStore (default 1000%Z config_cache_size) true (Some db)
    (fold_left (fun t (r : string * OntologicalNode) =>
       let '(e, g, t') := trinity_vector (snd r) in
       KD.insert t (fst r) [e; g; t']) rows (KD.new_tree 3))
    (fold_left (fun t (r : string * OntologicalNode) =>
       KD.insert t (fst r) [fst (c (snd r)); snd (c (snd r))])
       rows (KD.new_tree 2))
    ∅.

(** [_persist_node]: [INSERT OR REPLACE INTO nodes] by the node id.  When
    a row with this id exists, [REPLACE] deletes it before it inserts the
    new one; the connection runs with [PRAGMA foreign_keys = ON] and both
    foreign keys of [relations] are declared [ON DELETE CASCADE], so the
    relation rows that have this id as source or as target are deleted
    with it. *)
Definition _persist_node (db : Database) (node : OntologicalNode) : Database :=
  MkDatabase (<[node_id node := node]> (nodes_table db))
    (match nodes_table db !! node_id node with
     | Some _ =>
         filter (fun r => row_source_id r ≠ node_id node
                          /\ row_target_id r ≠ node_id node)
           (relations_table db)
     | None => relations_table db
     end).

(** [store_node]:
<<
    self.nodes[node.node_id] = node
    ...
    self.trinity_index.insert(node.node_id, list(trinity_tuple))
    self.complex_index.insert(node.node_id, complex_point)
    if self.persistence_enabled and self.conn:
        self._persist_node(node)
>> *)
Definition store_node (st : FractalKnowledgeStore) (node : OntologicalNode)
  : FractalKnowledgeStore :=
  let '(e, g, t) := trinity_vector node in
  MkStore (cache_size st) (persistence_enabled st)
    (match conn st with
     | Some db =>
         if persistence_enabled st then Some (_persist_node db node)
         else Some db
     | None => None
     end)
    (KD.insert (trinity_index st) (node_id node) [e; g; t])
    (KD.insert (complex_index st) (node_id node)
       [fst (c node); snd (c node)])
    (<[node_id node := node]> (nodes st)).

(** [_load_relationships_for_node]: the node's list is emptied, then
    every row of the table with this source is added. *)
Definition _load_relationships_for_node (db : Database)
  (node : OntologicalNode) : OntologicalNode :=
  fold_left
    (fun n (r : relation_row) =>
       add_relationship n (row_relation_type r) (row_target_id r)
         (row_metadata r))
    (filter (fun r => row_source_id r = node_id node) (relations_table db))
    (set_relationships node []).

(** [_load_node_from_db] *)
Definition _load_node_from_db (db : Database) (id : string)
  : option OntologicalNode :=
  match nodes_table db !! id with
  | None => None
  | Some node => Some (_load_relationships_for_node db (set_node_id node id))
  end.

(** [get_node]: the cache, then the database; a node loaded from the
    database is added to the cache:
<<
    if node_id in self.nodes:
        return self.nodes[node_id]
    if self.persistence_enabled and self.conn:
        node = self._load_node_from_db(node_id)
        if node:
            # TODO: Add cache eviction logic if cache size is exceeded
            self.nodes[node_id] = node
            return node
    return None
>> *)
Definition get_node (st : FractalKnowledgeStore) (id : string)
  : option OntologicalNode * FractalKnowledgeStore :=
  match nodes st !! id with
  | Some node => (Some node, st)
  | None =>
      match conn st with
      | Some db =>
          if persistence_enabled st then
            match _load_node_from_db db id with
            | Some node => (Some node, set_nodes st (<[id := node]> (nodes st)))
            | None => (None, st)
            end
          else (None, st)
      | None => (None, st)
      end
  end.

(** The loop of [add_relation] over [source_node.relationships]: the first
    triple with this type and target is replaced; [None] when there is
    none ([found] stays [False]). *)
Fixpoint replace_first (rels : list relationship) (relation_type : string)
  (target_id : string) (meta : gmap string jvalue)
  : option (list relationship) :=
  match rels with
  | [] => None
  | (rtype, tid, m) :: rest =>
      if decide (rtype = relation_type /\ tid = target_id)
      then Some ((relation_type, target_id, meta) :: rest)
      else
        match replace_first rest relation_type target_id meta with
        | Some rest' => Some ((rtype, tid, m) :: rest')
        | None => None
        end
  end.

(** [{**(metadata or {}), "strength": strength}] *)
Definition with_strength (metadata : option (gmap string jvalue))
  (strength : Q) : gmap string jvalue :=
  <["strength" := JNum strength]> (default ∅ metadata).

(** [f"{source_id}_{relation_type}_{target_id}_{uuid.uuid4().hex[:4]}"];
    the four hexadecimal digits drawn by [uuid4] are the argument
    [suffix]. *)
Definition relation_id (source_id relation_type target_id suffix : string)
  : string :=
  String.append source_id (String.append "_" (String.append relation_type
    (String.append "_" (String.append target_id (String.append "_" suffix))))).

(** [add_relation].  With foreign keys on, the insertion of a row whose
    endpoints are not in the [nodes] table fails with an
    [sqlite3.IntegrityError], which the method catches: it returns
    [False]. *)
Definition add_relation (st : FractalKnowledgeStore)
  (source_id target_id relation_type : string) (strength : Q)
  (metadata : option (gmap string jvalue)) (suffix : string)
  : bool * FractalKnowledgeStore :=
  match get_node st source_id with
  | (None, st) => (false, st)
  | (Some _, st) =>
  match get_node st target_id with
  | (None, st) => (false, st)
  | (Some _, st) =>
      let source_node := nodes st !! source_id in
      let st :=
        match source_node with
        | Some node =>
            let meta := with_strength metadata strength in
            let node :=
              match replace_first (relationships node) relation_type
                      target_id meta with
              | Some rels => set_relationships node rels
              | None => add_relationship node relation_type target_id meta
              end in
            set_nodes st (<[source_id := node]> (nodes st))
        | None => st
        end in
      match conn st with
      | Some db =>
          if persistence_enabled st then
            let row :=
              MkRow (relation_id source_id relation_type target_id suffix)
                source_id target_id relation_type strength
                (default ∅ metadata) in
            match nodes_table db !! source_id, nodes_table db !! target_id with
            | Some _, Some _ =>
                (true,
                 set_conn st
                   (Some (MkDatabase (nodes_table db)
                      (insert_or_replace_relation row (relations_table db)))))
            | _, _ => (false, st)
            end
          else (bool_decide (is_Some source_node), st)
      | None => (bool_decide (is_Some source_node), st)
      end
  end
  end.

Inductive direction : Type := outgoing | incoming | both.

(** The part of [get_relations] that reads the cached node;
    [strength = metadata.get("strength", 1.0)]. *)
Definition cached_relations (node : OntologicalNode) (id : string)
  (relation_type : option string) : list OntologicalRelation :=
  omap
    (fun r : relationship =>
       let '(rel_type, tid, meta) := r in
       if bool_decide (relation_type = None \/ relation_type = Some rel_type)
       then
         Some (MkRelation id tid rel_type
           (default (JNum 1) (meta !! "strength")) meta)
       else None)
    (relationships node).

(** The [WHERE] clause that [get_relations] builds; [if relation_type:]
    leaves the type filter out for [None] and for the empty string. *)
Definition row_selected (id : string) (relation_type : option string)
  (dir : direction) (r : relation_row) : bool :=
  (match dir with
   | outgoing => bool_decide (row_source_id r = id)
   | incoming => bool_decide (row_target_id r = id)
   | both => bool_decide (row_source_id r = id)
             || bool_decide (row_target_id r = id)
   end)
  && (match relation_type with
      | None | Some "" => true
      | Some rt => bool_decide (row_relation_type r = rt)
      end).

Definition relation_key (r : OntologicalRelation)
  : string * string * string :=
  (source_id r, target_id r, relation_type r).

(** The loop of [get_relations] over the selected rows: a row whose
    (source, target, type) was seen is skipped. *)
Fixpoint add_unseen (rows : list relation_row)
  (relations : list OntologicalRelation) : list OntologicalRelation :=
  match rows with
  | [] => relations
  | r :: rest =>
      let key := (row_source_id r, row_target_id r, row_relation_type r) in
      if bool_decide (key ∈ map relation_key relations)
      then add_unseen rest relations
      else
        add_unseen rest
          (relations ++
           [MkRelation (row_source_id r) (row_target_id r)
              (row_relation_type r) (JNum (row_weight r)) (row_metadata r)])
  end.

(** [get_relations] *)
Definition get_relations (st : FractalKnowledgeStore) (id : string)
  (relation_type : option string) (dir : direction)
  : list OntologicalRelation * FractalKnowledgeStore :=
  let '(node, st) := get_node st id in
  let relations :=
    match node, dir with
    | Some _, incoming | None, _ => []
    | Some node, _ => cached_relations node id relation_type
    end in
  match conn st with
  | Some db =>
      if persistence_enabled st then
        (add_unseen
           (List.filter (row_selected id relation_type dir)
              (relations_table db)) relations, st)
      else (relations, st)
  | None => (relations, st)
  end.

(** [find_nearest_by_trinity] on a 3-tuple:
<<
    k = max(1, k)
    return self.trinity_index.k_nearest_neighbors(point, k)
>> *)
Definition find_nearest_by_trinity (st : FractalKnowledgeStore)
  (vector : Q * Q * Q) (k : Z) : list (string * KD.distance) :=
  let '(e, g, t) := vector in
  KD.k_nearest_neighbors (trinity_index st) [e; g; t]
    (Z.to_nat (Z.max 1 k)).

(** [find_nearest_by_position] on a complex number. *)
Definition find_nearest_by_position (st : FractalKnowledgeStore)
  (position : Q * Q) (k : Z) : list (string * KD.distance) :=
  KD.k_nearest_neighbors (complex_index st) [fst position; snd position]
    (Z.to_nat (Z.max 1 k)).

(** The nodes of the end-to-end scenarios of the specification. *)
Definition scenario_A : OntologicalNode :=
  MkNode "A" (8#10, 7#10, 9#10) (72#100, 7#10) "A" [].

Definition scenario_B : OntologicalNode :=
  MkNode "B" (81#100, 71#100, 91#100) (7371#10000, 71#100) "B" [].

(** A node stored twice under one id, with trinity vectors (0, 0, 0) and
    then (1, 0, 0). *)
Definition moved_before : OntologicalNode :=
  MkNode "a" (0, 0, 0) (0, 0) "a" [].

Definition moved_after : OntologicalNode :=
  MkNode "a" (1, 0, 0) (0, 0) "a" [].

Definition row_key (r : relation_row) : string * string * string :=
  (row_source_id r, row_relation_type r, row_target_id r).

(** The update of [source_node.relationships] in [add_relation], on the
    list alone. *)
Definition upsert (rels : list relationship) (relation_type : string)
  (target_id : string) (meta : gmap string jvalue) : list relationship :=
  match replace_first rels relation_type target_id meta with
  | Some rels' => rels'
  | None => rels ++ [(relation_type, target_id, meta)]
  end.

(** How many triples of a list carry this type and target. *)
Definition count_key (relation_type target_id : string)
  (rels : list relationship) : nat :=
  length
    (List.filter
       (fun r : relationship =>
          bool_decide (fst (fst r) = relation_type /\ snd (fst r) = target_id))
       rels).

End Store.

(** ** Trinity vectors (trinity_vector.py, class TrinityVector) *)

Module TrinityVec.

Local Open Scope Q_scope.

(** [class TrinityVector]: the three attributes. *)
Record TrinityVector : Type := MkTrinityVector {
  existence : Q;
  goodness : Q;
  truth : Q
}.

(** [max(0, min(1, x))].  Python's [min(1, x)] is [x] when [x < 1] and [1]
    otherwise, and [max(0, y)] is [y] when [0 < y] and [0] otherwise, which
    is how [Qmin] and [Qmax] choose. *)
Definition clamp01 (x : Q) : Q := Qmax 0 (Qmin 1 x).

(** [TrinityVector.__init__] *)
Definition new (existence goodness truth : Q) : TrinityVector :=
  MkTrinityVector (clamp01 existence) (clamp01 goodness) (clamp01 truth).

(** [TrinityVector.to_tuple] *)
Definition to_tuple (v : TrinityVector) : Q * Q * Q :=
  (existence v, goodness v, truth v).

(** [TrinityVector.to_complex]:
    [complex(self.existence*self.truth, self.goodness)] *)
Definition to_complex (v : TrinityVector) : Q * Q :=
  (existence v * truth v, goodness v).

(** [TrinityVector.from_complex]; [c.imag] of a complex is a float, so
    [g = min(1, c.imag)]:
<<
    e = min(1, abs(c.real))
    g = min(1, c.imag if isinstance(c.imag,float) else 1)
    t = min(1, abs(c.imag))
    return cls(e,g,t)
>> *)
Definition from_complex (c : Q * Q) : TrinityVector :=
  let e := Qmin 1 (Qabs (fst c)) in
  let g := Qmin 1 (snd c) in
  let t := Qmin 1 (Qabs (snd c)) in
  new e g t.

(** [TrinityVector.calculate_modal_status], on the attributes. *)
Definition calculate_modal_status (v : TrinityVector) : string * Q :=
  Modal.calculate_modal_status (to_tuple v).

End TrinityVec.
(** ** Expression kernel, continued *)

Module LambdaMore.

Import Lambda.

(** The outcome of [check_type(expr)] alone: the type or [None] it
    returns, or the exception it raises. *)
Definition typecheck (env : gmap string type) (expr : LogosExpr)
  : outcome (option type) :=
  fst (check_type env expr).

(** [LambdaLogosEngine.evaluate]: the engine hands the expression to its
    [Evaluator], created with its initial environment. *)
Definition engine_evaluate (depth : nat) (expr : LogosExpr)
  : option LogosExpr :=
  evaluate depth Evaluator_initial_env expr.

(** An expression without a beta-redex: no application in it has an
    abstraction as its function. *)
Fixpoint beta_normal (expr : LogosExpr) : bool :=
  match expr with
  | Var _ _ | Value _ _ | Constant _ _ _ | SufficientReason _ _ _ => true
  | Abstraction _ _ body => beta_normal body
  | Application func arg =>
      match func with
      | Abstraction _ _ _ => false
      | _ => beta_normal func && beta_normal arg
      end
  end.

End LambdaMore.
(** ** Expression kernel: serialisation (logos_lambda_core.py, to_dict and
       from_dict) *)

Module Serial.

Import Lambda.

(** The JSON-like values that [to_dict] builds and [from_dict] reads:
    [None], strings, integers, lists, and dicts as their items in insertion
    order (a Python dict has no repeated key). *)
Inductive json : Type :=
  | JNull
  | JString (s : string)
  | JInteger (z : Z)
  | JArray (l : list json)
  | JObject (d : list (string * json)).

(** [data.get(key)] on the items of a dict. *)
Fixpoint get {A : Type} (key : string) (d : list (string * A)) : option A :=
  match d with
  | [] => None
  | (k, v) :: rest => if String.eqb k key then Some v else get key rest
  end.

(** Python's truth value of a JSON value ([if value_data]). *)
Definition truthy (j : json) : bool :=
  match j with
  | JNull | JString "" | JInteger 0 | JArray [] | JObject [] => false
  | _ => true
  end.

(** The values of the enumeration [OntologicalType], as the source file
    spells them. *)
Definition OntologicalType_value (t : OntologicalType) : string :=
  match t with
  | EXISTENCE => "ð”¼"
  | GOODNESS => "ð”¾"
  | TRUTH => "ð•‹"
  | PROP => "Prop"
  end.

(** [OntologicalType(value)]: the member with this value, or
    [ValueError]. *)
Definition OntologicalType_of (j : json) : outcome OntologicalType :=
  match j with
  | JString s =>
      if String.eqb s (OntologicalType_value EXISTENCE) then Returned EXISTENCE
      else if String.eqb s (OntologicalType_value GOODNESS) then Returned GOODNESS
      else if String.eqb s (OntologicalType_value TRUTH) then Returned TRUTH
      else if String.eqb s (OntologicalType_value PROP) then Returned PROP
      else Raised "ValueError"
  | _ => Raised "ValueError"
  end.

(** The serialised type of a [Constant]: [FunctionType.to_dict] for a
    function type, the enumeration value otherwise.
<<
    if isinstance(self.codomain, FunctionType):
        codomain_dict = self.codomain.to_dict()
    else:
        codomain_dict = self.codomain.value
    return [self.domain.value, "â†’", codomain_dict]
>>
    [self.domain.value] raises [AttributeError] for a domain that is not an
    [OntologicalType]. *)
Fixpoint type_to_dict (t : type) : outcome json :=
  match t with
  | Onto o => Returned (JString (OntologicalType_value o))
  | FunctionType domain codomain =>
      match type_to_dict codomain with
      | Raised exn => Raised exn
      | Returned codomain_dict =>
          match domain with
          | Onto d =>
              Returned (JArray [JString (OntologicalType_value d);
                                JString "â†’"; codomain_dict])
          | FunctionType _ _ => Raised "AttributeError"
          end
      end
  end.

(** [FunctionType.from_dict], which [Constant.from_dict] calls on a list:
<<
    domain = OntologicalType(data[0])
    if isinstance(data[2], list):
        codomain = FunctionType.from_dict(data[2])
    else:
        codomain = OntologicalType(data[2])
    return cls(domain, codomain)
>>
    The last case is not reached: the method is only called on lists. *)
Fixpoint FunctionType_from_dict (data : json) : outcome type :=
  match data with
  | JArray [] => Raised "IndexError"
  | JArray (d0 :: rest) =>
      match OntologicalType_of d0 with
      | Raised exn => Raised exn
      | Returned domain =>
          match rest with
          | _ :: d2 :: _ =>
              match d2 with
              | JArray _ =>
                  match FunctionType_from_dict d2 with
                  | Raised exn => Raised exn
                  | Returned codomain =>
                      Returned (FunctionType (Onto domain) codomain)
                  end
              | _ =>
                  match OntologicalType_of d2 with
                  | Raised exn => Raised exn
                  | Returned codomain =>
                      Returned (FunctionType (Onto domain) (Onto codomain))
                  end
              end
          | _ => Raised "IndexError"
          end
      end
  | _ => Raised "TypeError"
  end.

(** The type that [Constant.from_dict] reads:
<<
    if isinstance(const_type_data, list):
        const_type = FunctionType.from_dict(const_type_data)
    else:
        const_type = OntologicalType(const_type_data)
>> *)
Definition const_type_from_dict (const_type_data : json) : outcome type :=
  match const_type_data with
  | JArray _ => FunctionType_from_dict const_type_data
  | _ =>
      match OntologicalType_of const_type_data with
      | Raised exn => Raised exn
      | Returned t => Returned (Onto t)
      end
  end.

(** [LogosExpr.to_dict] and its overrides.  A dict display evaluates its
    values in order, so the first sub-expression that fails to serialise
    decides the exception. *)
Fixpoint to_dict (expr : LogosExpr) : outcome json :=
  match expr with
  | Var name ont_type =>
      Returned (JObject [("type", JString "var"); ("name", JString name);
                         ("ont_type",
                          JString (OntologicalType_value ont_type))])
  | Value value ont_type =>
      Returned (JObject [("type", JString "value"); ("value", JString value);
                         ("ont_type",
                          JString (OntologicalType_value ont_type))])
  | Constant name const_type value =>
      match type_to_dict const_type with
      | Raised exn => Raised exn
      | Returned type_dict =>
          let result :=
            [("type", JString "const"); ("name", JString name);
             ("const_type", type_dict)] in
          match value with
          | Some v =>
              match to_dict v with
              | Raised exn => Raised exn
              | Returned value_dict =>
                  Returned (JObject (result ++ [("value", value_dict)]))
              end
          | None => Returned (JObject result)
          end
      end
  | Abstraction var_name var_type body =>
      match to_dict body with
      | Raised exn => Raised exn
      | Returned body_dict =>
          Returned (JObject [("type", JString "lambda");
                             ("var", JString var_name);
                             ("varType",
                              JString (OntologicalType_value var_type));
                             ("body", body_dict)])
      end
  | Application func arg =>
      match to_dict func with
      | Raised exn => Raised exn
      | Returned func_dict =>
          match to_dict arg with
          | Raised exn => Raised exn
          | Returned arg_dict =>
              Returned (JObject [("type", JString "app");
                                 ("func", func_dict); ("arg", arg_dict)])
          end
      end
  | SufficientReason source_type target_type value =>
      Returned (JObject [("type", JString "sr");
                         ("source_type",
                          JString (OntologicalType_value source_type));
                         ("target_type",
                          JString (OntologicalType_value target_type));
                         ("value", JInteger value)])
  end.

(** The objects that [from_dict] builds.  It stores whatever the dict
    holds under ["name"], ["value"] and ["var"], a string or not, and
    answers an unknown ["type"] with an instance of the base class
    [LogosExpr] ([PBase]). *)
Inductive ParsedExpr : Type :=
  | PBase
  | PVar (name : json) (ont_type : OntologicalType)
  | PValue (value : json) (ont_type : OntologicalType)
  | PConstant (name : json) (const_type : type) (value : option ParsedExpr)
  | PAbstraction (var_name : json) (var_type : OntologicalType)
      (body : ParsedExpr)
  | PApplication (func : ParsedExpr) (arg : ParsedExpr)
  | PSufficientReason (source_type target_type : OntologicalType)
      (value : json).

(** An expression built with string names and an integer SR value, as an
    object of that kind. *)
Fixpoint parsed (expr : LogosExpr) : ParsedExpr :=
  match expr with
  | Var name t => PVar (JString name) t
  | Value value t => PValue (JString value) t
  | Constant name const_type value =>
      PConstant (JString name) const_type
        (match value with Some v => Some (parsed v) | None => None end)
  | Abstraction x t body => PAbstraction (JString x) t (parsed body)
  | Application func arg => PApplication (parsed func) (parsed arg)
  | SufficientReason s t value => PSufficientReason s t (JInteger value)
  end.

(** [x <- c ;; k]: [k] runs on what [c] returns; an exception of [c] is
    the outcome. *)
Definition bind {A B : Type} (c : outcome A) (k : A -> outcome B)
  : outcome B :=
  match c with
  | Returned a => k a
  | Raised exn => Raised exn
  end.

(** [LogosExpr.from_dict] with the [from_dict] of each subclass.  [data.get]
    on anything but a dict raises [AttributeError].  The sub-dicts are
    parsed where the code reaches them: [sub] holds, for every key, the
    outcome of [from_dict] on its value, of which a case uses the keys it
    reads, in the order in which the constructor call evaluates its
    arguments. *)
Fixpoint from_dict (data : json) : outcome ParsedExpr :=
  match data with
  | JObject d =>
      let sub :=
        (fix fields (l : list (string * json))
           : list (string * outcome ParsedExpr) :=
           match l with
           | [] => []
           | (k, v) :: rest => (k, from_dict v) :: fields rest
           end) d in
      let from_sub (key : string) : outcome ParsedExpr :=
        default (Returned PBase) (get key sub) in
      match get "type" d with
      | Some (JString "var") =>
          bind (OntologicalType_of
                  (default (JString "Prop") (get "ont_type" d)))
            (fun t => Returned (PVar (default (JString "") (get "name" d)) t))
      | Some (JString "lambda") =>
          bind (OntologicalType_of
                  (default (JString "Prop") (get "varType" d)))
            (fun t =>
               bind (from_sub "body")
                 (fun body =>
                    Returned
                      (PAbstraction (default (JString "") (get "var" d))
                         t body)))
      | Some (JString "app") =>
          bind (from_sub "func")
            (fun func =>
               bind (from_sub "arg")
                 (fun arg => Returned (PApplication func arg)))
      | Some (JString "const") =>
          bind (const_type_from_dict (default JNull (get "const_type" d)))
            (fun const_type =>
               bind (match get "value" d with
                     | Some value_data =>
                         if truthy value_data then
                           bind (from_sub "value")
                             (fun v => Returned (Some v))
                         else Returned None
                     | None => Returned None
                     end)
                 (fun value =>
                    Returned
                      (PConstant (default (JString "") (get "name" d))
                         const_type value)))
      | Some (JString "value") =>
          bind (OntologicalType_of
                  (default (JString "Prop") (get "ont_type" d)))
            (fun t =>
               Returned (PValue (default (JString "") (get "value" d)) t))
      | Some (JString "sr") =>
          bind (OntologicalType_of
                  (default (JString (OntologicalType_value EXISTENCE))
                     (get "source_type" d)))
            (fun s =>
               bind (OntologicalType_of
                       (default (JString (OntologicalType_value GOODNESS))
                          (get "target_type" d)))
                 (fun t =>
                    Returned
                      (PSufficientReason s t
                         (default (JInteger 0) (get "value" d)))))
      | _ => Returned PBase
      end
  | _ => Raised "AttributeError"
  end.

(** The expression of the serialisation example: the identity on
    existence applied to a value. *)
Definition example_redex : LogosExpr :=
  Application (Abstraction "x" EXISTENCE (Var "x" EXISTENCE))
    (Value "ei" EXISTENCE).

End Serial.
(** ** k-d tree index, continued (knowledge_store.py, KDTree) *)

Module KDSearch.

Import KD.
Local Open Scope Q_scope.

(** The second cell of [best]: [float('inf')] or the squared distance of
    the best node so far. *)
Inductive bound : Type :=
  | Inf
  | Fin (q : Q).

(** [x < best[1]] *)
Definition below (x : Q) (b : bound) : bool :=
  match b with
  | Inf => true
  | Fin q => Qltb x q
  end.

(** [KDTree._nearest_neighbor]; the list [best = [node_id, distance]],
    which the method mutates, is passed in and returned:
<<
    dist_sq = sum((a - b) ** 2 for a, b in zip(node.point, point))
    if dist_sq < best[1]:
        best[0] = node.node_id
        best[1] = dist_sq
    axis = depth % self.k
    diff = point[axis] - node.point[axis]
    first, second = (node.left, node.right) if diff < 0 else (node.right, node.left)
    self._nearest_neighbor(first, point, depth + 1, best)
    if diff ** 2 < best[1]:
        self._nearest_neighbor(second, point, depth + 1, best)
>> *)
Fixpoint _nearest_neighbor (dim : nat) (point : list Q) (node : KDNode)
  (depth : nat) (best : option string * bound) {struct node}
  : option string * bound :=
  match node with
  | NoNode => best
  | MkKDNode nid npoint lft rgt =>
      let d := dist_sq npoint point in
      let best := if below d (snd best) then (Some nid, Fin d) else best in
      let axis := (depth mod dim)%nat in
      let diff := coord point axis - coord npoint axis in
      let visit_left := _nearest_neighbor dim point lft (S depth) in
      let visit_right := _nearest_neighbor dim point rgt (S depth) in
      let first := if Qltb diff 0 then visit_left else visit_right in
      let second := if Qltb diff 0 then visit_right else visit_left in
      let best := first best in
      if below (diff * diff) (snd best) then second best else best
  end.

(** [KDTree.nearest_neighbor]: [None] on an empty tree. *)
Definition nearest_neighbor (t : KDTree) (point : list Q) : option string :=
  match root t with
  | NoNode => None
  | _ => fst (_nearest_neighbor (k t) point (root t) 0 (None, Inf))
  end.

(** One term of the sum in [dist_sq]: [(a - b) ** 2]. *)
Definition sq_diff (ab : Q * Q) : Q := (fst ab - snd ab) * (fst ab - snd ab).

(** The order that [_insert] keeps below a node at depth [depth]: on the
    node's axis the points of the left subtree are smaller than the
    node's, those of the right subtree are not. *)
Fixpoint ordered (dim : nat) (node : KDNode) (depth : nat) : Prop :=
  match node with
  | NoNode => True
  | MkKDNode _ npoint lft rgt =>
      let axis := (depth mod dim)%nat in
      (forall e, In e (entries lft) -> coord (snd e) axis < coord npoint axis)
      /\ (forall e, In e (entries rgt) ->
            coord npoint axis <= coord (snd e) axis)
      /\ ordered dim lft (S depth)
      /\ ordered dim rgt (S depth)
  end.

(** Every point of the tree has [dim] coordinates. *)
Definition points_of_dim (dim : nat) (node : KDNode) : Prop :=
  forall e, In e (entries node) -> length (snd e) = dim.

(** A tree as [KDTree.insert] builds them from the empty tree with points
    of its dimension. *)
Definition built (t : KDTree) : Prop :=
  (0 < k t)%nat /\ ordered (k t) (root t) 0 /\ points_of_dim (k t) (root t).

(** The state of the two indices of a store that [__init__] created and
    [store_node] filled. *)
Definition indices_built (st : Store.FractalKnowledgeStore) : Prop :=
  k (Store.trinity_index st) = 3%nat /\ built (Store.trinity_index st)
  /\ k (Store.complex_index st) = 2%nat /\ built (Store.complex_index st).

(** The best squared distance is at most [x]. *)
Definition within (b : bound) (x : Q) : Prop :=
  match b with
  | Inf => False
  | Fin q => q <= x
  end.

(** [f], a part of the nearest-neighbour search, visits or rightly prunes
    the tree locations [E]: it only lowers the best distance, it leaves it
    no greater than the distance of any location in [E], and it either
    keeps [best] or sets it to a location of [E] with its distance. *)
Definition nn_searches (point : list Q) (E : list (string * list Q))
  (f : option string * bound -> option string * bound) : Prop :=
  forall best,
    (forall x, within (snd best) x -> within (snd (f best)) x)
    /\ (forall e, In e E -> within (snd (f best)) (dist_sq (snd e) point))
    /\ (f best = best
        \/ exists e, In e E
                     /\ f best = (Some (fst e), Fin (dist_sq (snd e) point))).

(** An item of the list [nearest] of a k-nearest search accounts for a
    candidate [x] when [x] is in the list or the list is full of items
    that are no farther (their keys, the negated squared distances, are
    no smaller). *)
Definition accounted (kk : nat) (nearest : list item) (x : item) : Prop :=
  In x nearest
  \/ (length nearest = kk /\ forall y, In y nearest -> fst x <= fst y).

(** The list [nearest] in ascending order of the keys, so that
    [nearest[0]] carries the least key, the greatest distance. *)
Definition key_le (a b : item) : Prop := fst a <= fst b.

Definition heap_sorted (nearest : list item) : Prop :=
  StronglySorted key_le nearest.

(** [f], a part of the k-nearest search, visits or rightly prunes the tree
    locations [E]: it keeps the list in order, the list grows by one item
    per location until it holds [kk], what was
    accounted for stays accounted for, and every location of [E] is
    accounted for afterwards. *)
Definition knn_searches (kk : nat) (point : list Q)
  (E : list (string * list Q)) (f : list item -> list item) : Prop :=
  forall nearest,
    heap_sorted nearest -> (length nearest <= kk)%nat ->
    heap_sorted (f nearest)
    /\ (length (f nearest) <= kk)%nat
    /\ length (f nearest) = Nat.min kk (length nearest + length E)
    /\ (forall x, accounted kk nearest x -> accounted kk (f nearest) x)
    /\ (forall e, In e E ->
          accounted kk (f nearest) (- dist_sq (snd e) point, fst e)).

(** A node is in both indices of a store: under its id, at its trinity
    vector and at its complex position. *)
Definition indexed (st : Store.FractalKnowledgeStore)
  (node : Store.OntologicalNode) : Prop :=
  let '(e, g, t) := Store.trinity_vector node in
  In (Store.node_id node, [e; g; t])
    (entries (root (Store.trinity_index st)))
  /\ In (Store.node_id node, [fst (Store.c node); snd (Store.c node)])
       (entries (root (Store.complex_index st))).

(** The index entries that [_load_indices_from_db] makes of a row of the
    nodes table: the key with the trinity vector, and with the position. *)
Definition trinity_entry (r : string * Store.OntologicalNode)
  : string * list Q :=
  (fst r, [fst (fst (Store.trinity_vector (snd r)));
           snd (fst (Store.trinity_vector (snd r)));
           snd (Store.trinity_vector (snd r))]).

Definition complex_entry (r : string * Store.OntologicalNode)
  : string * list Q :=
  (fst r, [fst (Store.c (snd r)); snd (Store.c (snd r))]).

(** The trees of the k-d tree examples: three planar points. *)
Definition example_tree : KDTree :=
  insert (insert (insert (new_tree 2) "a" [0; 0]) "b" [3; 4]) "c" [1; 1].

End KDSearch.
(** ** Knowledge store, continued (knowledge_store.py) *)

Module StoreMore.

Import Store.
Local Open Scope Q_scope.

(** [create_entailment]; [now] is the value of [time.time()], [suffix]
    the digits drawn by [uuid4] in [add_relation]:
<<
    if not (0.0 <= strength <= 1.0):
        strength = max(0.0, min(1.0, strength))
    return self.add_relation(source_id=source_id, target_id=target_id,
        relation_type="entails", strength=strength,
        metadata={"created_at": time.time()})
>> *)
Definition create_entailment (st : FractalKnowledgeStore)
  (source_id target_id : string) (strength : Q) (now : Q) (suffix : string)
  : bool * FractalKnowledgeStore :=
  let strength :=
    if negb (Qle_bool 0 strength && Qle_bool strength 1)
    then Qmax 0 (Qmin 1 strength)
    else strength in
  add_relation st source_id target_id "entails" strength
    (Some {[ "created_at" := JNum now ]}) suffix.

(** [close]: the connection is dropped and persistence switched off. *)
Definition close (st : FractalKnowledgeStore) : FractalKnowledgeStore :=
  MkStore (cache_size st) false None (trinity_index st) (complex_index st)
    (nodes st).

(** The (type, target) pair of a relationship of a node. *)
Definition relationship_key (r : relationship) : string * string :=
  (fst (fst r), snd (fst r)).

(** An id that [get_node] cannot find: it is not in the cache and not in
    the nodes table of the connection, if there is one. *)
Definition unknown (st : FractalKnowledgeStore) (id : string) : Prop :=
  nodes st !! id = None
  /\ forall db, conn st = Some db -> nodes_table db !! id = None.

(** The store of the relation examples: the two scenario nodes stored in
    a new persistent store. *)
Definition example_store : FractalKnowledgeStore :=
  store_node (store_node (init None None) scenario_A) scenario_B.

End StoreMore.

(** * Properties *)

(** ** Rationals *)

Lemma Qltb_lt (x y : Q) : Qltb x y = true <-> (x < y)%Q.
Proof.
  unfold Qltb. rewrite negb_true_iff. split.
  - intros H. apply Qnot_le_lt. intros Hle.
    apply Qle_bool_iff in Hle. congruence.
  - intros H. destruct (Qle_bool y x) eqn:E; [|reflexivity].
    apply Qle_bool_iff in E. exfalso. apply (Qlt_not_le _ _ H E).
Qed.

Lemma Qltb_ge (x y : Q) : Qltb x y = false <-> (y <= x)%Q.
Proof. unfold Qltb. rewrite negb_false_iff. apply Qle_bool_iff. Qed.

Lemma Qle_bool_lt (x y : Q) : Qle_bool x y = false <-> (y < x)%Q.
Proof.
  split.
  - intros H. apply Qnot_le_lt. intros Hle.
    apply Qle_bool_iff in Hle. congruence.
  - intros H. destruct (Qle_bool x y) eqn:E; [|reflexivity].
    apply Qle_bool_iff in E. exfalso. apply (Qlt_not_le _ _ H E).
Qed.

(** Case analysis on a comparison, leaving the order fact in the context. *)
Ltac case_Qltb x y :=
  let E := fresh "E" in
  destruct (Qltb x y) eqn:E;
  [ apply Qltb_lt in E | apply Qltb_ge in E ].

Ltac case_Qle x y :=
  let E := fresh "E" in
  destruct (Qle_bool x y) eqn:E;
  [ apply Qle_bool_iff in E | apply Qle_bool_lt in E ].

(** ** Modal classifier *)

Section ModalFacts.

Import Modal.
Local Open Scope Q_scope.

Lemma coherence_unfold (e g t : Q) :
  coherence (e, g, t) =
  if Qle_bool (e * t) g then 1
  else if Qltb 0 (e * t) then g / (e * t) else 0.
Proof. reflexivity. Qed.

Lemma coherence_saturates (e g t : Q) :
  e * t <= g -> coherence (e, g, t) = 1.
Proof.
  intros H. rewrite coherence_unfold.
  apply Qle_bool_iff in H. now rewrite H.
Qed.

Lemma coherence_below (e g t : Q) :
  g < e * t -> 0 < e * t -> coherence (e, g, t) = g / (e * t).
Proof.
  intros H Hpos. rewrite coherence_unfold.
  apply Qle_bool_lt in H. rewrite H.
  apply Qltb_lt in Hpos. now rewrite Hpos.
Qed.

Lemma coherence_range (e g t : Q) :
  0 <= g -> 0 <= coherence (e, g, t) /\ coherence (e, g, t) <= 1.
Proof.
  intros Hg. rewrite coherence_unfold.
  case_Qle (e * t) g; [lra|].
  case_Qltb 0 (e * t); [|lra].
  split.
  - apply Qle_shift_div_l; lra.
  - apply Qle_shift_div_r; lra.
Qed.

Ltac modal_cases :=
  repeat match goal with
    | |- context [Qltb ?x ?y] => case_Qltb x y
    | |- context [Qle_bool ?x ?y] => case_Qle x y
    end; cbn [andb].

Ltac modal_side :=
  repeat match goal with
    | H : _ /\ _ |- _ => destruct H
    end;
  first
    [ exfalso; lra
    | match goal with
      | H : ~ _ |- _ => exfalso; apply H; repeat split; lra
      end
    | repeat split; first [ lra | intros ?; modal_side ] ].

(** C1 (as amended).  [trinity_to_modal] applies its rules in order, first
    match wins, and every threshold is strict: "necessary" exactly when
    truth > 0.95, existence > 0.9 and coherence > 0.9; otherwise "actual"
    exactly when truth > 0.5 and existence > 0.5; otherwise "possible"
    exactly when truth > 0.05 and existence > 0.05; otherwise "impossible".
    The inputs (0.6, 0.6, 0.6), (0.1, 0.1, 0.1) and (0, 0, 0) classify as
    actual, possible and impossible, and (0.95, 0.95, 0.95), which sits on
    the strict truth threshold, classifies as actual. *)
Theorem trinity_to_modal_rules :
  forall e g t : Q,
    let v := (e, g, t) in
    let necessary := 95#100 < t /\ 9#10 < e /\ 9#10 < coherence v in
    let actual := 5#10 < t /\ 5#10 < e in
    let possible := 5#100 < t /\ 5#100 < e in
    (trinity_to_modal v = "necessary" <-> necessary)
    /\ (trinity_to_modal v = "actual" <-> ~ necessary /\ actual)
    /\ (trinity_to_modal v = "possible" <-> ~ actual /\ possible)
    /\ (trinity_to_modal v = "impossible" <-> ~ possible)
    /\ trinity_to_modal (95#100, 95#100, 95#100) = "actual"
    /\ trinity_to_modal (6#10, 6#10, 6#10) = "actual"
    /\ trinity_to_modal (1#10, 1#10, 1#10) = "possible"
    /\ trinity_to_modal (0, 0, 0) = "impossible".
Proof.
  intros e g t v necessary actual possible.
  subst v necessary actual possible.
  unfold trinity_to_modal.
  generalize (coherence (e, g, t)); intros coh.
  repeat match goal with |- _ /\ _ => split end; try reflexivity;
    modal_cases; (split; intros Hyp);
    try discriminate Hyp; try reflexivity; modal_side.
Qed.

(** C1, as the specification states it, fails on (0.95, 0.95, 0.95): the
    non-strict rule gives "necessary", the code gives "actual". *)
Lemma trinity_to_modal_boundary_actual :
  trinity_to_modal (95#100, 95#100, 95#100) = "actual"
  /\ spec_modal (95#100, 95#100, 95#100)
       (coherence (95#100, 95#100, 95#100)) = "necessary".
Proof. split; reflexivity. Qed.

(** The second classifier of the repository, on the four inputs:
    (0.1, 0.1, 0.1) sits on its strict 0.1 threshold. *)
Lemma calculate_modal_status_scenarios :
  fst (calculate_modal_status (95#100, 95#100, 95#100)) = "necessary"
  /\ fst (calculate_modal_status (6#10, 6#10, 6#10)) = "actual"
  /\ fst (calculate_modal_status (1#10, 1#10, 1#10)) = "impossible"
  /\ fst (calculate_modal_status (0, 0, 0)) = "impossible".
Proof. repeat split; reflexivity. Qed.

(** C2 (as amended).  On [0,1]^3 the coherence of [trinity_to_modal] is
    g / (e·t) clamped to [0,1] when e·t > 0 and is 1 when e·t = 0; it lies
    in [0,1], and it is exactly 1 whenever g >= e·t. *)
Theorem coherence_clamped :
  forall e g t : Q,
    in_unit e -> in_unit g -> in_unit t ->
    let coh := coherence (e, g, t) in
    (0 < e * t -> coh == Qmin 1 (Qmax 0 (g / (e * t))))
    /\ (e * t == 0 -> coh = 1)
    /\ (0 <= coh /\ coh <= 1)
    /\ (e * t <= g -> coh = 1).
Proof.
  intros e g t [He0 He1] [Hg0 Hg1] [Ht0 Ht1] coh. subst coh.
  repeat apply conj.
  - intros Hpos.
    assert (Hq : 0 <= g / (e * t)) by (apply Qle_shift_div_l; lra).
    rewrite (Q.max_r _ _ Hq).
    destruct (Qlt_le_dec g (e * t)) as [Hlt | Hle].
    + rewrite coherence_below by assumption.
      rewrite Q.min_r; [reflexivity|].
      apply Qle_shift_div_r; lra.
    + rewrite coherence_saturates by assumption.
      rewrite Q.min_l; [reflexivity|].
      apply Qle_shift_div_l; lra.
  - intros Hz. apply coherence_saturates. lra.
  - apply coherence_range; assumption.
  - apply coherence_range; assumption.
  - apply coherence_saturates.
Qed.

Lemma coherence_clamped_witness :
  let coh := coherence (8#10, 7#10, 9#10) in
  (0 < (8#10) * (9#10) -> coh == Qmin 1 (Qmax 0 ((7#10) / ((8#10) * (9#10)))))
  /\ ((8#10) * (9#10) == 0 -> coh = 1)
  /\ (0 <= coh /\ coh <= 1)
  /\ ((8#10) * (9#10) <= 7#10 -> coh = 1).
Proof.
  apply (coherence_clamped (8#10) (7#10) (9#10));
    unfold in_unit; split; unfold Qle; simpl; lia.
Defined.

(** C2, as the specification states it, fails where e·t = 0: the code
    returns 1 there (g >= e·t holds), the stated value is 0. *)
Lemma coherence_zero_product :
  coherence (0, 0, 0) = 1 /\ spec_coherence (0, 0, 0) = 0
  /\ coherence (0, 1#2, 3#10) = 1 /\ spec_coherence (0, 1#2, 3#10) = 0.
Proof. repeat split; reflexivity. Qed.

End ModalFacts.

(** ** Escape-time positioner *)

Section FractalFacts.

Import Fractal.
Local Open Scope Q_scope.



(** The loop of [compute_iterations], entered after [k] updates: it
    returns the index of the first update that escapes, or [max_iter]. *)
Lemma iterate_from_first_escape (c : complex) (todo : nat) :
  forall (k : nat) (max_iter n : Z) (b : bool),
    iterate_from c (orbit c k) (Z.of_nat k) todo max_iter = (n, b) ->
    (b = true ->
       n = max_iter
       /\ forall j, (k < j <= k + todo)%nat -> escaped (orbit c j) = false)
    /\ (b = false ->
          exists i, n = Z.of_nat i /\ (k <= i < k + todo)%nat
            /\ escaped (orbit c (S i)) = true
            /\ forall j, (k < j <= i)%nat -> escaped (orbit c j) = false).
Proof.
  induction todo as [|todo IH]; intros k max_iter n b Hrun.
  - cbn [iterate_from] in Hrun. injection Hrun as <- <-.
    split; [|discriminate]. intros _. split; [reflexivity|].
    intros j Hj. lia.
  - cbn [iterate_from] in Hrun.
    change (cadd (cmul (orbit c k) (orbit c k)) c) with (orbit c (S k)) in Hrun.
    destruct (escaped (orbit c (S k))) eqn:Hesc.
    + injection Hrun as <- <-. split; [discriminate|]. intros _.
      exists k. split; [reflexivity|]. split; [lia|].
      split; [assumption|]. intros j Hj. lia.
    + replace (Z.of_nat k + 1)%Z with (Z.of_nat (S k)) in Hrun by lia.
      destruct (IH _ _ _ _ Hrun) as [Htrue Hfalse]. split.
      * intros Hb. destruct (Htrue Hb) as [-> Hstay].
        split; [reflexivity|]. intros j Hj.
        destruct (Nat.eq_dec j (S k)) as [-> | Hne]; [assumption|].
        apply Hstay. lia.
      * intros Hb. destruct (Hfalse Hb) as (i & -> & Hi & Hesc' & Hstay).
        exists i. split; [reflexivity|]. split; [lia|].
        split; [assumption|]. intros j Hj.
        destruct (Nat.eq_dec j (S k)) as [-> | Hne]; [assumption|].
        apply Hstay. lia.
Qed.



End FractalFacts.

(** ** Expression kernel: the type checker *)

Section TypeCheckerFacts.

Import Lambda.

(** A call of [check_type] that returns hands back the environment it was
    given. *)
Lemma check_type_frame (expr : LogosExpr) :
  forall (env env' : gmap string type) (r : option type),
    check_type env expr = (Returned r, env') -> env' = env.
Proof.
  induction expr as
    [ name ont_type | value ont_type | name const_type value
    | var_name var_type body IHbody | func IHfunc arg IHarg
    | source_type target_type value ];
    intros env env' r; cbn [check_type];
    try (intros H; injection H as _ <-; reflexivity).
  - destruct (check_type (<[var_name := Onto var_type]> env) body)
      as [[body_type | exn] env1] eqn:Hbody; [|discriminate].
    apply IHbody in Hbody. subst env1.
    destruct (env !! var_name) as [old|] eqn:Hold.
    + rewrite insert_insert_eq, (insert_id _ _ _ Hold).
      destruct body_type; intros H; injection H as _ <-; reflexivity.
    + rewrite lookup_insert_eq, delete_insert_id by assumption.
      destruct body_type; intros H; injection H as _ <-; reflexivity.
  - destruct (check_type env func) as [[func_type | exn] env1] eqn:Hfunc;
      [|discriminate].
    apply IHfunc in Hfunc. subst env1.
    destruct func_type as [[t | domain codomain]|];
      try (intros H; injection H as _ <-; reflexivity).
    destruct (check_type env arg) as [[arg_type | exn] env2] eqn:Harg;
      [|discriminate].
    apply IHarg in Harg. subst env2.
    intros H. injection H as _ <-. reflexivity.
Qed.

Lemma check_type_returns (env env' : gmap string type) (expr : LogosExpr)
  (r : option type) :
  check_type env expr = (Returned r, env') -> returns env expr r.
Proof.
  intros H. unfold returns. rewrite H.
  now rewrite (check_type_frame _ _ _ _ H).
Qed.

Lemma printable_codomain (domain codomain : type) :
  printable (FunctionType domain codomain) = true ->
  printable codomain = true /\ exists d, domain = Onto d.
Proof.
  destruct domain as [d | d1 d2]; cbn [printable]; [|discriminate].
  intros H. split; [exact H | exists d; reflexivity].
Qed.

Lemma annotated_env_insert (env : gmap string type) (x : string) (t : type) :
  annotated_env env -> printable t = true -> annotated_env (<[x := t]> env).
Proof.
  intros Henv Ht name t' Hlook.
  destruct (decide (x = name)) as [-> | Hne].
  - rewrite lookup_insert_eq in Hlook. injection Hlook as <-. exact Ht.
  - rewrite lookup_insert_ne in Hlook by exact Hne. eapply Henv; exact Hlook.
Qed.

(** With function types built as annotated, [check_type] returns (no
    [KeyError], no [AttributeError]), and the type it returns is built as
    annotated too. *)
Lemma check_type_annotated (expr : LogosExpr) :
  forall env : gmap string type,
    annotated_env env -> annotated_expr expr ->
    exists r : option type,
      returns env expr r /\ forall t, r = Some t -> printable t = true.
Proof.
  unfold returns.
  induction expr as
    [ name ont_type | value ont_type | name const_type value
    | var_name var_type body IHbody | func IHfunc arg IHarg
    | source_type target_type value ];
    intros env Henv Hexpr; cbn [check_type annotated_expr] in *.
  - eexists; split; [reflexivity|]. intros t Ht. injection Ht as <-.
    destruct (env !! name) as [t'|] eqn:Hlook; cbn [default];
      [eapply Henv; exact Hlook | reflexivity].
  - eexists; split; [reflexivity|]. intros t Ht. injection Ht as <-.
    reflexivity.
  - eexists; split; [reflexivity|]. intros t Ht. injection Ht as <-.
    exact Hexpr.
  - destruct (IHbody (<[var_name := Onto var_type]> env)) as (bt & -> & Hbt);
      [apply annotated_env_insert; [exact Henv | reflexivity] | exact Hexpr|].
    destruct (env !! var_name) as [old|] eqn:Hold.
    + rewrite insert_insert_eq, (insert_id _ _ _ Hold).
      destruct bt as [bt|]; eexists; (split; [reflexivity|]);
        intros t Ht; [|discriminate].
      injection Ht as <-. cbn [printable]. apply Hbt. reflexivity.
    + rewrite lookup_insert_eq, delete_insert_id by assumption.
      destruct bt as [bt|]; eexists; (split; [reflexivity|]);
        intros t Ht; [|discriminate].
      injection Ht as <-. cbn [printable]. apply Hbt. reflexivity.
  - destruct Hexpr as [Hf Ha].
    destruct (IHfunc env Henv Hf) as (ft & -> & Hft).
    destruct ft as [[t | domain codomain]|];
      try (eexists; split; [reflexivity | discriminate]).
    destruct (printable_codomain _ _ (Hft _ eq_refl)) as [Hcod [d ->]].
    destruct (IHarg env Henv Ha) as (at' & -> & Hat).
    unfold check_argument.
    destruct (decide (at' = Some (Onto d))) as [-> | Hne].
    + eexists; split; [reflexivity|]. intros t Ht. injection Ht as <-.
      exact Hcod.
    + destruct at' as [t|]; [rewrite (Hat t eq_refl)|];
        eexists; (split; [reflexivity | discriminate]).
  - eexists; split; [reflexivity|]. intros t Ht.
    unfold check_sr in Ht.
    destruct source_type, target_type; try discriminate Ht;
      destruct (_ =? _)%Z; try discriminate Ht;
      injection Ht as <-; reflexivity.
Qed.

(** The checker's initial environment is built as annotated. *)
Lemma TypeChecker_initial_env_annotated :
  annotated_env TypeChecker_initial_env.
Proof.
  intros name t. unfold TypeChecker_initial_env.
  repeat (rewrite lookup_insert;
          destruct (decide _); [intros H; injection H as <-; reflexivity|]).
  cbn [create_logical_connectives create_core_axioms app map list_to_map
       foldr fst snd const_type_of uncurry].
  repeat (rewrite lookup_insert;
          destruct (decide _); [intros H; injection H as <-; reflexivity|]).
  rewrite lookup_empty. discriminate.
Qed.

(** C10.  A call [check_type(E)] that returns leaves the checker's
    environment as it found it: every name is mapped to exactly the type it
    was mapped to before (a binding shadowed by an abstraction is restored,
    a temporary one is removed).  The call does return for every expression
    and environment whose function types are built as [FunctionType] is
    annotated; [del] never raises [KeyError]. *)
Theorem check_type_preserves_env :
  forall (env : gmap string type) (expr : LogosExpr),
    (forall (r : option type) (env' : gmap string type),
       check_type env expr = (Returned r, env') ->
       env' = env /\ forall name : string, env' !! name = env !! name)
    /\ (annotated_env env -> annotated_expr expr ->
        exists r : option type, check_type env expr = (Returned r, env))
    /\ fst (check_type env expr) <> Raised "KeyError".
Proof.
  intros env expr. split; [|split].
  - intros r env' H. apply check_type_frame in H. subst env'.
    split; reflexivity.
  - intros Henv Hexpr.
    destruct (check_type_annotated expr env Henv Hexpr) as (r & Hr & _).
    exists r. exact Hr.
  - revert env.
    induction expr as
      [ name ont_type | value ont_type | name const_type value
      | var_name var_type body IHbody | func IHfunc arg IHarg
      | source_type target_type value ];
      intros env; cbn [check_type]; try discriminate.
    + specialize (IHbody (<[var_name := Onto var_type]> env)).
      destruct (check_type (<[var_name := Onto var_type]> env) body)
        as [[body_type | exn] env1] eqn:Hbody; [|exact IHbody].
      apply check_type_frame in Hbody. subst env1.
      destruct (env !! var_name) as [old|].
      * destruct body_type; discriminate.
      * rewrite lookup_insert_eq. destruct body_type; discriminate.
    + specialize (IHfunc env).
      destruct (check_type env func) as [[func_type | exn] env1] eqn:Hfunc;
        [|exact IHfunc].
      destruct func_type as [[t | domain codomain]|]; try discriminate.
      specialize (IHarg env1).
      destruct (check_type env1 arg) as [[arg_type | exn] env2] eqn:Harg;
        [|exact IHarg].
      cbn [fst]. unfold check_argument.
      destruct domain as [d|]; [|discriminate].
      destruct (decide _); [discriminate|].
      destruct arg_type as [t|]; [destruct (printable t)|]; discriminate.
Qed.

Lemma check_type_preserves_env_witness :
  exists r : option type,
    check_type TypeChecker_initial_env
      (Abstraction "x" EXISTENCE
         (Application (Var "SR_E_G" EXISTENCE) (Var "x" EXISTENCE)))
    = (Returned r, TypeChecker_initial_env).
Proof.
  exact (proj1 (proj2 (check_type_preserves_env TypeChecker_initial_env
                         (Abstraction "x" EXISTENCE
                            (Application (Var "SR_E_G" EXISTENCE)
                               (Var "x" EXISTENCE)))))
           TypeChecker_initial_env_annotated (conj I I)).
Defined.

Lemma check_type_abstraction_example :
  fst (check_type TypeChecker_initial_env
         (Abstraction "x" EXISTENCE
            (Application (Var "SR_E_G" EXISTENCE) (Var "x" EXISTENCE))))
  = Returned (Some (FunctionType (Onto EXISTENCE) (Onto GOODNESS))).
Proof. vm_compute. reflexivity. Qed.

(** An expression outside that class: the type of the constant [F] has a
    function type for its domain.  The error message about the argument
    [F] raises, inside the abstraction, and the binding of [x] stays. *)
Lemma check_type_raise_keeps_binding :
  check_type ∅
    (Abstraction "x" EXISTENCE
       (Application (SufficientReason EXISTENCE GOODNESS 3)
          (Constant "F"
             (FunctionType (FunctionType (Onto EXISTENCE) (Onto GOODNESS))
                (Onto TRUTH)) None)))
  = (Raised "AttributeError", {[ "x" := Onto EXISTENCE ]}).
Proof. vm_compute. reflexivity. Qed.



End TypeCheckerFacts.

(** ** Expression kernel: substitution and evaluation *)

Section EvaluatorFacts.

Import Lambda.

Lemma substitute_not_free (expr : LogosExpr) (x : string) (v : LogosExpr) :
  x ∉ free_vars expr -> substitute expr x v = expr.
Proof.
  induction expr as
    [ name ont_type | value ont_type | name const_type value
    | var_name var_type body IHbody | func IHfunc arg IHarg
    | source_type target_type value ];
    cbn [substitute free_vars]; intros Hx; try reflexivity.
  - rewrite decide_False; [reflexivity | set_solver].
  - destruct (decide (var_name = x)) as [-> | Hne]; [reflexivity|].
    rewrite IHbody; [reflexivity | set_solver].
  - rewrite IHfunc, IHarg; [reflexivity | set_solver | set_solver].
Qed.

(** Where no binder of [expr] binds a free variable of [v], the free
    variables of the result are those of [expr] with [x] replaced by those
    of [v]. *)
Lemma substitute_free_vars (expr : LogosExpr) (x : string) (v : LogosExpr) :
  bound_vars expr ## free_vars v ->
  free_vars (substitute expr x v) =
  if decide (x ∈ free_vars expr)
  then (free_vars expr ∖ {[ x ]}) ∪ free_vars v
  else free_vars expr.
Proof.
  induction expr as
    [ name ont_type | value ont_type | name const_type value
    | var_name var_type body IHbody | func IHfunc arg IHarg
    | source_type target_type value ];
    cbn [substitute free_vars bound_vars]; intros Hdisj;
    try (rewrite decide_False; [reflexivity | set_solver]).
  - destruct (decide (name = x)) as [-> | Hne].
    + rewrite decide_True by set_solver. set_solver.
    + rewrite decide_False by set_solver. reflexivity.
  - destruct (decide (var_name = x)) as [-> | Hne].
    + rewrite decide_False by set_solver. reflexivity.
    + cbn [free_vars]. rewrite IHbody by set_solver.
      destruct (decide (x ∈ free_vars body)) as [Hin | Hout].
      * rewrite decide_True by set_solver. set_solver.
      * rewrite decide_False by set_solver. reflexivity.
  - rewrite IHfunc, IHarg by set_solver.
    destruct (decide (x ∈ free_vars func)) as [Hf | Hf];
      destruct (decide (x ∈ free_vars arg)) as [Ha | Ha].
    + rewrite decide_True by set_solver. set_solver.
    + rewrite decide_True by set_solver. set_solver.
    + rewrite decide_True by set_solver. set_solver.
    + rewrite decide_False by set_solver. reflexivity.
Qed.

(** C5 (as amended).  [substitute] respects shadowing and renames nothing:
    at an abstraction that binds x itself the substitution is blocked, and
    the expression comes back unchanged; a free variable of v stays free in
    the result whenever no binder of M binds it (in particular for a closed
    v), the free variables of the result being then those of M with x
    replaced by those of v. *)
Theorem substitute_respects_shadowing :
  (forall (x : string) (var_type : OntologicalType) (body v : LogosExpr),
     substitute (Abstraction x var_type body) x v
     = Abstraction x var_type body)
  /\ (forall (M : LogosExpr) (x : string) (v : LogosExpr),
        bound_vars M ## free_vars v ->
        free_vars (substitute M x v) =
        if decide (x ∈ free_vars M)
        then (free_vars M ∖ {[ x ]}) ∪ free_vars v
        else free_vars M)
  /\ (forall (M : LogosExpr) (x : string) (v : LogosExpr),
        free_vars v = ∅ ->
        free_vars (substitute M x v) = free_vars M ∖ {[ x ]}).
Proof.
  repeat match goal with |- _ /\ _ => split end.
  - intros x var_type body v. cbn [substitute].
    rewrite decide_True by reflexivity. reflexivity.
  - intros M x v. apply substitute_free_vars.
  - intros M x v Hclosed.
    rewrite substitute_free_vars by (rewrite Hclosed; set_solver).
    rewrite Hclosed. destruct (decide (x ∈ free_vars M)); set_solver.
Qed.

(** C5, as the specification states it, fails: substituting the variable y
    for x in λy. x gives λy. y, where the free variable y of the
    replacement has become bound. *)
Lemma substitute_captures :
  let M := Abstraction "y" EXISTENCE (Var "x" EXISTENCE) in
  let v := Var "y" EXISTENCE in
  substitute M "x" v = Abstraction "y" EXISTENCE (Var "y" EXISTENCE)
  /\ "x" ∈ free_vars M
  /\ "y" ∈ free_vars v
  /\ "y" ∉ free_vars (substitute M "x" v).
Proof.
  cbn zeta. split; [reflexivity|].
  cbn [substitute free_vars]. rewrite decide_False by discriminate.
  rewrite decide_True by reflexivity. cbn [free_vars].
  set_solver.
Qed.

(** The bound on the nesting is only a bound: a call that returns within
    some nesting returns the same expression within any deeper one. *)
Lemma evaluate_mono (env : gmap string LogosExpr) (depth : nat) :
  forall (expr v : LogosExpr),
    evaluate depth env expr = Some v ->
    forall depth', (depth <= depth')%nat -> evaluate depth' env expr = Some v.
Proof.
  induction depth as [|depth IH]; intros expr v Hv depth' Hle;
    [discriminate Hv|].
  destruct depth' as [|depth']; [lia|].
  assert (Hle' : (depth <= depth')%nat) by lia.
  destruct expr as
    [ name ont_type | value ont_type | name const_type value
    | var_name var_type body | func arg
    | source_type target_type value ];
    cbn [evaluate] in Hv |- *; try exact Hv.
  - destruct (evaluate depth env body) as [new_body|] eqn:Hbody;
      [|discriminate Hv].
    rewrite (IH _ _ Hbody _ Hle'). exact Hv.
  - destruct (evaluate depth env func) as [func'|] eqn:Hfunc;
      [|discriminate Hv].
    destruct (evaluate depth env arg) as [arg'|] eqn:Harg;
      [|discriminate Hv].
    rewrite (IH _ _ Hfunc _ Hle'), (IH _ _ Harg _ Hle').
    destruct func'; try exact Hv.
    apply (IH _ _ Hv _ Hle').
Qed.

(** Two evaluations that do return: a β-step, and NOT on a truth value. *)
Lemma evaluate_returns_examples :
  evaluate 3 Evaluator_initial_env
    (Application (Abstraction "x" EXISTENCE (Var "x" EXISTENCE))
       (Value "ei" EXISTENCE))
  = Some (Value "ei" EXISTENCE)
  /\ evaluate 2 Evaluator_initial_env
       (Application (Var "NOT" PROP) (Value "TrueProp" PROP))
     = Some (Value "FalseProp" PROP).
Proof. split; reflexivity. Qed.

Lemma initial_env_no_x : Evaluator_initial_env !! "x" = None.
Proof. reflexivity. Qed.

(** δ = λx. x x is a normal form: where its evaluation returns, it
    returns δ. *)
Lemma evaluate_delta (depth : nat) (v : LogosExpr) :
  evaluate depth Evaluator_initial_env delta = Some v -> v = delta.
Proof.
  destruct depth as [|[|[|depth]]]; cbn [evaluate delta];
    try discriminate.
  rewrite initial_env_no_x. cbn [default evaluate_constant].
  intros H. injection H as <-. reflexivity.
Qed.

Lemma substitute_delta_body :
  substitute (Application (Var "x" EXISTENCE) (Var "x" EXISTENCE)) "x" delta
  = omega.
Proof. reflexivity. Qed.

(** C4.  [Evaluator.evaluate] takes no fuel budget, and on
    Ω = (λx. x x) (λx. x x) no nesting of its recursive calls is deep
    enough for it to return: each call evaluates δ twice, substitutes,
    and calls itself on Ω again. *)
Theorem evaluate_omega_never_returns :
  forall depth : nat, evaluate depth Evaluator_initial_env omega = None.
Proof.
  induction depth as [|depth IH]; [reflexivity|].
  unfold omega. cbn [evaluate].
  destruct (evaluate depth Evaluator_initial_env delta) as [v|] eqn:Hdelta;
    [|reflexivity].
  apply evaluate_delta in Hdelta. subst v. unfold delta at 1.
  rewrite substitute_delta_body. exact IH.
Qed.

(** The evaluator of lambda_engine.py, with its depth budget, returns on
    Ω for every budget (it hands back Ω itself). *)
Lemma _evaluate_delta (budget : nat) :
  _evaluate budget lambda_engine_initial_env delta = delta.
Proof.
  destruct budget as [|[|[|budget]]]; cbn [_evaluate delta]; try reflexivity.
Qed.

Lemma _evaluate_omega_returns (budget : nat) :
  _evaluate budget lambda_engine_initial_env omega = omega.
Proof.
  induction budget as [|budget IH]; [reflexivity|].
  unfold omega at 1. cbn [_evaluate]. rewrite _evaluate_delta.
  unfold delta at 1. rewrite substitute_delta_body. exact IH.
Qed.

End EvaluatorFacts.

(** ** k-d tree index *)

Section KDFacts.

Import KD.
Local Open Scope Q_scope.

Lemma Forall_insert_by_distance (P : string * distance -> Prop)
  (x : string * distance) (l : list (string * distance)) :
  P x -> Forall P l -> Forall P (insert_by_distance x l).
Proof.
  intros Hx Hl. induction Hl as [|y rest Hy Hrest IH]; cbn [insert_by_distance].
  - constructor; [assumption | constructor].
  - destruct (distance_leb (snd x) (snd y)).
    + constructor; [assumption|]. constructor; assumption.
    + constructor; assumption.
Qed.

Lemma insert_by_distance_sorted (x : string * distance)
  (l : list (string * distance)) :
  StronglySorted distance_le l ->
  StronglySorted distance_le (insert_by_distance x l).
Proof.
  intros Hl. induction Hl as [|y rest Hrest IH Hy]; cbn [insert_by_distance].
  - constructor; constructor.
  - destruct (distance_leb (snd x) (snd y)) eqn:Hxy.
    + apply Qle_bool_iff in Hxy.
      constructor; [constructor; assumption|].
      constructor; [exact Hxy|].
      eapply Forall_impl; [exact Hy|].
      intros z Hz. unfold distance_le in *. lra.
    + apply Qle_bool_lt in Hxy.
      constructor; [exact IH|].
      apply Forall_insert_by_distance; [|exact Hy].
      unfold distance_le. lra.
Qed.

Lemma sort_by_distance_sorted (l : list (string * distance)) :
  StronglySorted distance_le (sort_by_distance l).
Proof.
  induction l as [|x l IH]; cbn [sort_by_distance fold_right].
  - constructor.
  - apply insert_by_distance_sorted. exact IH.
Qed.

Lemma insert_by_distance_length (x : string * distance)
  (l : list (string * distance)) :
  length (insert_by_distance x l) = S (length l).
Proof.
  induction l as [|y rest IH]; cbn [insert_by_distance]; [reflexivity|].
  destruct (distance_leb (snd x) (snd y)); cbn [length]; [reflexivity|].
  now rewrite IH.
Qed.

Lemma sort_by_distance_length (l : list (string * distance)) :
  length (sort_by_distance l) = length l.
Proof.
  induction l as [|x l IH]; cbn [sort_by_distance fold_right]; [reflexivity|].
  fold (sort_by_distance l). rewrite insert_by_distance_length.
  cbn [length]. now rewrite IH.
Qed.

Lemma insert_by_distance_In (x y : string * distance)
  (l : list (string * distance)) :
  In y (insert_by_distance x l) -> y = x \/ In y l.
Proof.
  induction l as [|z rest IH]; cbn [insert_by_distance].
  - intros [<- | []]. left; reflexivity.
  - destruct (distance_leb (snd x) (snd z)).
    + intros [<- | H]; [left; reflexivity | right; exact H].
    + intros [<- | H]; [right; left; reflexivity|].
      destruct (IH H) as [-> | Hin]; [left; reflexivity | right; right; exact Hin].
Qed.

Lemma sort_by_distance_In (y : string * distance)
  (l : list (string * distance)) :
  In y (sort_by_distance l) -> In y l.
Proof.
  induction l as [|x l IH]; cbn [sort_by_distance fold_right]; [tauto|].
  fold (sort_by_distance l). intros H.
  destruct (insert_by_distance_In _ _ _ H) as [-> | Hin];
    [left; reflexivity | right; apply IH; exact Hin].
Qed.

Lemma heap_insert_length (it : item) (heap : list item) :
  length (heap_insert it heap) = S (length heap).
Proof.
  induction heap as [|x rest IH]; cbn [heap_insert]; [reflexivity|].
  destruct (item_leb it x); cbn [length]; [reflexivity|]. now rewrite IH.
Qed.

Lemma heap_insert_In (it y : item) (heap : list item) :
  In y (heap_insert it heap) -> y = it \/ In y heap.
Proof.
  induction heap as [|x rest IH]; cbn [heap_insert].
  - intros [<- | []]. left; reflexivity.
  - destruct (item_leb it x).
    + intros [<- | H]; [left; reflexivity | right; exact H].
    + intros [<- | H]; [right; left; reflexivity|].
      destruct (IH H) as [-> | Hin]; [left; reflexivity | right; right; exact Hin].
Qed.

Lemma offer_length (kk : nat) (nearest : list item) (it : item) :
  (length nearest <= kk)%nat -> (length (offer kk nearest it) <= kk)%nat.
Proof.
  intros Hlen. unfold offer.
  destruct (length nearest <? kk)%nat eqn:Hlt.
  - apply Nat.ltb_lt in Hlt. unfold heappush. rewrite heap_insert_length. lia.
  - destruct (Qltb (top_key nearest) (fst it)); [|exact Hlen].
    unfold heapreplace. destruct nearest as [|x rest]; [cbn; lia|].
    rewrite heap_insert_length. cbn [length] in Hlen. lia.
Qed.

Lemma offer_In (kk : nat) (nearest : list item) (it y : item) :
  In y (offer kk nearest it) -> y = it \/ In y nearest.
Proof.
  unfold offer. destruct (length nearest <? kk)%nat.
  - apply heap_insert_In.
  - destruct (Qltb (top_key nearest) (fst it)); [|tauto].
    unfold heapreplace. destruct nearest as [|x rest]; [intros []|].
    intros H. destruct (heap_insert_In _ _ _ H) as [-> | Hin];
      [left; reflexivity | right; right; exact Hin].
Qed.

(** The search keeps at most [kk] items. *)
Lemma _k_nearest_neighbors_length (dim kk : nat) (point : list Q)
  (node : KDNode) :
  forall (depth : nat) (nearest : list item),
    (length nearest <= kk)%nat ->
    (length (_k_nearest_neighbors dim kk point node depth nearest) <= kk)%nat.
Proof.
  induction node as [|nid npoint lft IHl rgt IHr]; intros depth nearest Hlen;
    cbn [_k_nearest_neighbors]; [exact Hlen|].
  pose proof (offer_length kk nearest (- dist_sq npoint point, nid) Hlen)
    as Hoffer.
  set (n1 := offer kk nearest (- dist_sq npoint point, nid)) in *.
  destruct (Qltb (coord point (depth mod dim) - coord npoint (depth mod dim)) 0).
  - pose proof (IHl (S depth) n1 Hoffer) as Hfirst.
    destruct (_ || _); [apply IHr; exact Hfirst | exact Hfirst].
  - pose proof (IHr (S depth) n1 Hoffer) as Hfirst.
    destruct (_ || _); [apply IHl; exact Hfirst | exact Hfirst].
Qed.

(** Every item the search returns was in the list it started from, or
    comes from a tree node. *)
Lemma _k_nearest_neighbors_In (dim kk : nat) (point : list Q)
  (node : KDNode) :
  forall (depth : nat) (nearest : list item) (y : item),
    In y (_k_nearest_neighbors dim kk point node depth nearest) ->
    In y nearest \/ from_tree point node y.
Proof.
  induction node as [|nid npoint lft IHl rgt IHr]; intros depth nearest y;
    cbn [_k_nearest_neighbors]; [tauto|].
  set (n1 := offer kk nearest (- dist_sq npoint point, nid)).
  set (whole := MkKDNode nid npoint lft rgt).
  assert (Hn1 : In y n1 -> In y nearest \/ from_tree point whole y).
  { intros H. destruct (offer_In _ _ _ _ H) as [-> | Hin]; [|left; exact Hin].
    right. exists npoint. split; [left; reflexivity | reflexivity]. }
  assert (Hl : forall n,
             In y (_k_nearest_neighbors dim kk point lft (S depth) n) ->
             In y n \/ from_tree point whole y).
  { intros n H. destruct (IHl _ _ _ H) as [Hin | (p & Hp & Hd)];
      [left; exact Hin|].
    right. exists p. split; [|exact Hd].
    right. apply in_or_app. left; exact Hp. }
  assert (Hr : forall n,
             In y (_k_nearest_neighbors dim kk point rgt (S depth) n) ->
             In y n \/ from_tree point whole y).
  { intros n H. destruct (IHr _ _ _ H) as [Hin | (p & Hp & Hd)];
      [left; exact Hin|].
    right. exists p. split; [|exact Hd].
    right. apply in_or_app. right; exact Hp. }
  destruct (Qltb (coord point (depth mod dim) - coord npoint (depth mod dim)) 0).
  - destruct (_ || _); intros H.
    + destruct (Hr _ H) as [H1 | ?]; [|tauto].
      destruct (Hl _ H1) as [H2 | ?]; [|tauto]. apply Hn1; exact H2.
    + destruct (Hl _ H) as [H2 | ?]; [|tauto]. apply Hn1; exact H2.
  - destruct (_ || _); intros H.
    + destruct (Hl _ H) as [H1 | ?]; [|tauto].
      destruct (Hr _ H1) as [H2 | ?]; [|tauto]. apply Hn1; exact H2.
    + destruct (Hr _ H) as [H2 | ?]; [|tauto]. apply Hn1; exact H2.
Qed.

(** [k_nearest_neighbors]: ascending by distance, at most [kk] pairs, each
    the id of a tree node with the distance from its point to the query. *)
Lemma k_nearest_neighbors_sorted_bounded (t : KDTree) (point : list Q)
  (kk : nat) :
  StronglySorted distance_le (k_nearest_neighbors t point kk)
  /\ (length (k_nearest_neighbors t point kk) <= kk)%nat
  /\ forall id d, In (id, d) (k_nearest_neighbors t point kk) ->
       exists npoint, In (id, npoint) (entries (root t))
                      /\ radicand d == dist_sq npoint point.
Proof.
  unfold k_nearest_neighbors. destruct (root t) as [|nid npoint lft rgt] eqn:Hroot.
  - split; [constructor|]. split; [cbn; lia|]. intros id d [].
  - rewrite <- Hroot. split; [apply sort_by_distance_sorted|]. split.
    + rewrite sort_by_distance_length, length_map.
      apply _k_nearest_neighbors_length. cbn; lia.
    + intros id d Hin. apply sort_by_distance_In in Hin.
      apply in_map_iff in Hin. destruct Hin as (it & Heq & Hit).
      injection Heq as <- <-.
      destruct (_k_nearest_neighbors_In _ _ _ _ _ _ _ Hit)
        as [[] | (p & Hp & Hd)].
      exists p. split; [exact Hp|]. cbn [radicand]. rewrite Hd. ring.
Qed.

End KDFacts.

(** ** Knowledge store *)

Section StoreFacts.

Import Store.
Local Open Scope Q_scope.

(** *** Nearest-neighbour queries *)

(** C9, as the specification states it, fails: a node stored at (0, 0, 0)
    and stored again, under the same id, at (1, 0, 0) is in the tree twice,
    and the query for the two nearest to (0, 0, 0) returns its id twice. *)
Lemma find_nearest_repeats_id :
  let st := store_node (store_node (init None None) moved_before) moved_after in
  KD.ids (KD.root (trinity_index st)) = ["a"; "a"]
  /\ find_nearest_by_trinity st (0, 0, 0) 2
     = [("a", KD.Sqrt 0); ("a", KD.Sqrt 1)].
Proof. split; vm_compute; reflexivity. Qed.

(** *** The node cache *)

Lemma store_node_nodes (st : FractalKnowledgeStore) (node : OntologicalNode) :
  nodes (store_node st node) = <[node_id node := node]> (nodes st).
Proof. unfold store_node. destruct (trinity_vector node) as [[e g] t]. reflexivity. Qed.

Lemma store_node_cache_size (st : FractalKnowledgeStore)
  (node : OntologicalNode) :
  cache_size (store_node st node) = cache_size st.
Proof. unfold store_node. destruct (trinity_vector node) as [[e g] t]. reflexivity. Qed.

(** C8.  The cache is the dict [self.nodes]; [cache_size] is read from the
    configuration and never consulted: storing a node under a new id adds
    an entry whatever the size, and with cache_size = 1 the cache holds two
    nodes after two stores. *)
Theorem cache_grows_past_cache_size :
  (forall (st : FractalKnowledgeStore) (node : OntologicalNode),
     nodes st !! node_id node = None ->
     size (nodes (store_node st node)) = S (size (nodes st))
     /\ cache_size (store_node st node) = cache_size st)
  /\ (let st := store_node (store_node (init (Some 1%Z) None) scenario_A)
                  scenario_B in
      cache_size st = 1%Z /\ size (nodes st) = 2%nat
      /\ fst (get_node st "A") = Some scenario_A
      /\ fst (get_node st "B") = Some scenario_B).
Proof.
  split.
  - intros st node Hfresh. rewrite store_node_nodes, store_node_cache_size.
    split; [|reflexivity]. apply map_size_insert_None. exact Hfresh.
  - cbn zeta. split; [reflexivity|]. split; [|split; reflexivity].
    rewrite !store_node_nodes.
    rewrite map_size_insert_None by reflexivity.
    rewrite map_size_insert_None by reflexivity.
    reflexivity.
Qed.

(** *** Relations *)

Lemma count_key_app (k t : string) (l1 l2 : list relationship) :
  count_key k t (l1 ++ l2) = (count_key k t l1 + count_key k t l2)%nat.
Proof. unfold count_key. rewrite List.filter_app, length_app. reflexivity. Qed.

Lemma count_key_cons (k t : string) (r : relationship)
  (l : list relationship) :
  count_key k t (r :: l) =
  ((if bool_decide (fst (fst r) = k /\ snd (fst r) = t) then 1 else 0)
   + count_key k t l)%nat.
Proof.
  unfold count_key. cbn [List.filter].
  destruct (bool_decide _); reflexivity.
Qed.

Lemma replace_first_None (k t : string) (m : gmap string jvalue)
  (rels : list relationship) :
  replace_first rels k t m = None -> count_key k t rels = 0%nat.
Proof.
  induction rels as [|[[rtype tid] meta] rest IH]; cbn [replace_first];
    [reflexivity|].
  destruct (decide (rtype = k /\ tid = t)) as [Hm | Hm]; [discriminate|].
  destruct (replace_first rest k t m); [discriminate|]. intros _.
  rewrite count_key_cons. cbn [fst snd].
  rewrite bool_decide_eq_false_2 by exact Hm. now rewrite IH.
Qed.

Lemma replace_first_Some (k t : string) (m : gmap string jvalue)
  (rels rels' : list relationship) :
  replace_first rels k t m = Some rels' ->
  count_key k t rels' = count_key k t rels /\ In (k, t, m) rels'.
Proof.
  revert rels'.
  induction rels as [|[[rtype tid] meta] rest IH]; intros rels';
    cbn [replace_first]; [discriminate|].
  destruct (decide (rtype = k /\ tid = t)) as [Hm | Hm].
  - intros H. injection H as <-. split; [|left; reflexivity].
    rewrite !count_key_cons. cbn [fst snd].
    rewrite bool_decide_eq_true_2 by (split; reflexivity).
    rewrite bool_decide_eq_true_2 by exact Hm. reflexivity.
  - destruct (replace_first rest k t m) as [rest'|]; [|discriminate].
    intros H. injection H as <-.
    destruct (IH rest' eq_refl) as [Hcount Hin].
    split; [|right; exact Hin].
    rewrite !count_key_cons. now rewrite Hcount.
Qed.

(** The list update of [add_relation] keeps one triple per (type, target):
    a list with none gets one, a list with some keeps as many, and the
    caller's metadata is in the list afterwards. *)
Lemma upsert_count (k t : string) (m : gmap string jvalue)
  (rels : list relationship) :
  count_key k t (upsert rels k t m) = Nat.max 1 (count_key k t rels)
  /\ In (k, t, m) (upsert rels k t m).
Proof.
  unfold upsert. destruct (replace_first rels k t m) as [rels'|] eqn:Hr.
  - destruct (replace_first_Some _ _ _ _ _ Hr) as [Hcount Hin].
    split; [|exact Hin]. rewrite Hcount.
    assert (Hpos : (1 <= count_key k t rels)%nat).
    { rewrite <- Hcount. clear -Hin. induction rels' as [|r rest IH];
        [destruct Hin|].
      rewrite count_key_cons. destruct Hin as [-> | Hin].
      - cbn [fst snd]. rewrite bool_decide_eq_true_2 by (split; reflexivity).
        lia.
      - specialize (IH Hin). lia. }
    lia.
  - rewrite count_key_app, (replace_first_None _ _ _ _ Hr).
    split; [|apply in_or_app; right; left; reflexivity].
    rewrite count_key_cons. cbn [fst snd].
    rewrite bool_decide_eq_true_2 by (split; reflexivity). reflexivity.
Qed.

(** [add_relation] on two cached endpoints: the cached source node gets
    the updated list. *)
Lemma add_relation_cached (st : FractalKnowledgeStore)
  (src tgt k : string) (w : Q) (m : option (gmap string jvalue))
  (sfx : string) (n n' : OntologicalNode) :
  nodes st !! src = Some n -> nodes st !! tgt = Some n' ->
  relationships <$> (nodes (snd (add_relation st src tgt k w m sfx)) !! src)
  = Some (upsert (relationships n) k tgt (with_strength m w)).
Proof.
  intros Hsrc Htgt. unfold add_relation, get_node.
  rewrite Hsrc, Htgt, Hsrc.
  set (node' := match replace_first _ _ _ _ with
                | Some rels => set_relationships n rels
                | None => add_relationship n k tgt (with_strength m w)
                end).
  assert (Hrel : relationships node'
                 = upsert (relationships n) k tgt (with_strength m w)).
  { subst node'. unfold upsert.
    destruct (replace_first _ _ _ _); reflexivity. }
  cbn [conn persistence_enabled set_nodes].
  destruct (conn st) as [db|]; [destruct (persistence_enabled st)|];
    try (destruct (nodes_table db !! src); [destruct (nodes_table db !! tgt)|]);
    cbn [snd nodes set_nodes set_conn];
    rewrite lookup_insert_eq; cbn [fmap option_fmap option_map];
    now rewrite Hrel.
Qed.

Lemma filter_other_ids (row : relation_row) (table : list relation_row) :
  Forall (fun r => row_id r <> row_id row) table ->
  filter (fun r => row_id r ≠ row_id row) table = table.
Proof.
  induction 1 as [|r rest Hr Hrest IH]; [reflexivity|].
  rewrite filter_cons_True by exact Hr. now rewrite IH.
Qed.

(** [add_relation] on a persistent store inserts a row of its own for
    each call whose random suffix gives a row id not in the table. *)
Lemma add_relation_new_row (st : FractalKnowledgeStore) (db : Database)
  (src tgt k : string) (w : Q) (m : option (gmap string jvalue))
  (sfx : string) (n n' : OntologicalNode) :
  conn st = Some db -> persistence_enabled st = true ->
  nodes st !! src = Some n -> nodes st !! tgt = Some n' ->
  is_Some (nodes_table db !! src) -> is_Some (nodes_table db !! tgt) ->
  Forall (fun r => row_id r <> relation_id src k tgt sfx)
    (relations_table db) ->
  fst (add_relation st src tgt k w m sfx) = true
  /\ conn (snd (add_relation st src tgt k w m sfx))
     = Some (MkDatabase (nodes_table db)
               (relations_table db
                ++ [MkRow (relation_id src k tgt sfx) src tgt k w
                      (default ∅ m)])).
Proof.
  intros Hconn Hpers Hsrc Htgt [a Ha] [b Hb] Hfresh.
  unfold add_relation, get_node. rewrite Hsrc, Htgt, Hsrc.
  cbn [conn persistence_enabled set_nodes]. rewrite Hconn, Hpers, Ha, Hb.
  cbn [fst snd conn set_conn]. split; [reflexivity|].
  unfold insert_or_replace_relation.
  rewrite filter_other_ids; [reflexivity | exact Hfresh].
Qed.

(** C7.  On a persistent store holding A and B, two calls
    add_relation(A, B, "entails", 0.7), whose row ids end in the suffixes
    0001 and 0002, leave two rows for the key (A, "entails", B) in the
    relations table, where an upsert by that key would leave one.  The
    cached node A holds one relationship, and relations_of(A, "entails")
    returns one relation in the session; a session reopened on the
    database loads both rows and returns two. *)
Theorem add_relation_twice_two_rows :
  let s0 := store_node (store_node (init None None) scenario_A) scenario_B in
  let first := add_relation s0 "A" "B" "entails" (7#10) None "0001" in
  let second := add_relation (snd first) "A" "B" "entails" (7#10) None "0002" in
  let s2 := snd second in
  fst first = true /\ fst second = true
  /\ (map row_key <$> (relations_table <$> conn s2))
     = Some [("A", "entails", "B"); ("A", "entails", "B")]
  /\ (count_key "entails" "B" <$> (relationships <$> (nodes s2 !! "A")))
     = Some 1%nat
  /\ map relation_key (fst (get_relations s2 "A" (Some "entails") outgoing))
     = [("A", "B", "entails")]
  /\ map relation_key (fst (get_relations s2 "B" None incoming))
     = [("A", "B", "entails")]
  /\ (match conn s2 with
      | Some db =>
          map relation_key
            (fst (get_relations (reopen None db) "A" (Some "entails") outgoing))
      | None => []
      end) = [("A", "B", "entails"); ("A", "B", "entails")].
Proof. cbn zeta. repeat split; vm_compute; reflexivity. Qed.

End StoreFacts.

(** * Further properties *)

(** ** Trinity vectors *)

Section TrinityVecFacts.

Import TrinityVec.
Local Open Scope Q_scope.

Lemma clamp01_range (x : Q) : 0 <= clamp01 x /\ clamp01 x <= 1.
Proof.
  unfold clamp01. split.
  - apply Q.le_max_l.
  - apply Q.max_lub; [lra | apply Q.le_min_l].
Qed.

Lemma clamp01_id (x : Q) : 0 <= x -> x <= 1 -> clamp01 x == x.
Proof.
  intros H0 H1. unfold clamp01.
  rewrite (Q.min_r 1 x) by exact H1. apply Q.max_r. exact H0.
Qed.

(** X1.  A [TrinityVector] holds components in [0, 1] whatever it is built
    from, and building one from components already in [0, 1] keeps them. *)
Theorem TrinityVector_clamped :
  forall e g t : Q,
    (Modal.in_unit (existence (new e g t))
     /\ Modal.in_unit (goodness (new e g t))
     /\ Modal.in_unit (truth (new e g t)))
    /\ (Modal.in_unit e -> existence (new e g t) == e)
    /\ (Modal.in_unit g -> goodness (new e g t) == g)
    /\ (Modal.in_unit t -> truth (new e g t) == t)
    /\ (e < 0 -> existence (new e g t) == 0)
    /\ (1 < e -> existence (new e g t) == 1)
    /\ (g < 0 -> goodness (new e g t) == 0)
    /\ (1 < g -> goodness (new e g t) == 1)
    /\ (t < 0 -> truth (new e g t) == 0)
    /\ (1 < t -> truth (new e g t) == 1).
Proof.
  intros e g t. unfold Modal.in_unit. cbn [new existence goodness truth].
  assert (Hlow : forall x, x < 0 -> clamp01 x == 0).
  { intros x Hx. unfold clamp01. apply Q.max_l.
    apply Q.min_le_iff. right. lra. }
  assert (Hhigh : forall x, 1 < x -> clamp01 x == 1).
  { intros x Hx. unfold clamp01. rewrite (Q.min_l 1 x) by lra.
    apply Q.max_r. lra. }
  repeat match goal with |- _ /\ _ => split end;
    try apply clamp01_range;
    try (intros [H0 H1]; apply clamp01_id; assumption);
    try apply Hlow; try apply Hhigh.
Qed.

(** X2.  The way to the complex plane and back is lossy: from a vector with
    components (e, g, t) in [0, 1], [from_complex (to_complex v)] has the
    components (e·t, g, g); the truth component is not recovered. *)
Theorem from_complex_to_complex :
  forall v : TrinityVector,
    Modal.in_unit (existence v) -> Modal.in_unit (goodness v) ->
    Modal.in_unit (truth v) ->
    existence (from_complex (to_complex v)) == existence v * truth v
    /\ goodness (from_complex (to_complex v)) == goodness v
    /\ truth (from_complex (to_complex v)) == goodness v.
Proof.
  intros [e g t]. unfold Modal.in_unit.
  cbn [existence goodness truth to_complex from_complex new fst snd].
  intros [He0 He1] [Hg0 Hg1] [Ht0 Ht1].
  assert (Het0 : 0 <= e * t) by nra.
  assert (Het1 : e * t <= 1) by nra.
  unfold clamp01.
  rewrite (Qabs_pos (e * t)) by exact Het0.
  rewrite (Qabs_pos g) by exact Hg0.
  rewrite (Q.min_r 1 (e * t)) by exact Het1.
  rewrite (Q.min_r 1 g) by exact Hg1.
  rewrite (Q.min_r 1 (e * t)) by exact Het1.
  rewrite (Q.min_r 1 g) by exact Hg1.
  repeat split; apply Q.max_r; assumption.
Qed.

Lemma from_complex_to_complex_witness :
  let v := new (8#10) (7#10) (9#10) in
  existence (from_complex (to_complex v)) == existence v * truth v
  /\ goodness (from_complex (to_complex v)) == goodness v
  /\ truth (from_complex (to_complex v)) == goodness v.
Proof.
  apply (from_complex_to_complex (new (8#10) (7#10) (9#10)));
    unfold Modal.in_unit; split; vm_compute; discriminate.
Defined.

End TrinityVecFacts.

(** ** Escape-time positioner, continued *)

Section FractalMoreFacts.

Import Fractal.
Local Open Scope Q_scope.

(** X3.  For a non-negative cap, [compute_iterations] returns an iteration
    count between 0 and the cap, and in_set is true exactly when the count
    is the cap. *)
Theorem compute_iterations_bounds :
  forall (c : complex) (max_iter n : Z) (b : bool),
    (0 <= max_iter)%Z ->
    compute_iterations c max_iter = (n, b) ->
    (0 <= n <= max_iter)%Z /\ (b = true <-> n = max_iter).
Proof.
  intros c max_iter n b Hcap Hrun. unfold compute_iterations in Hrun.
  destruct (iterate_from_first_escape c _ 0 _ _ _ Hrun) as [Htrue Hfalse].
  destruct b.
  - destruct (Htrue eq_refl) as [-> _]. split; [lia|]. split; reflexivity.
  - destruct (Hfalse eq_refl) as (i & -> & Hi & _). split; [lia|].
    split; [discriminate | lia].
Qed.

Lemma compute_iterations_bounds_witness :
  (0 <= 2 <= 5)%Z /\ (false = true <-> 2%Z = 5%Z).
Proof.
  apply (compute_iterations_bounds (map_to_complex (1, 0, 1)) 5 2 false);
    [lia | reflexivity].
Defined.

Lemma Qsquare_nonneg (a : Q) : 0 <= a * a.
Proof. nra. Qed.

Lemma norm_sq_cmul (z : complex) : norm_sq (cmul z z) == norm_sq z * norm_sq z.
Proof. destruct z as [x y]. unfold norm_sq, cmul. cbn [fst snd]. ring. Qed.

Lemma norm_sq_cadd (a b : complex) :
  norm_sq (cadd a b) <= 2 * (norm_sq a + norm_sq b).
Proof.
  destruct a as [x y], b as [u v]. unfold norm_sq, cadd. cbn [fst snd].
  pose proof (Qsquare_nonneg (x - u)) as H1.
  pose proof (Qsquare_nonneg (y - v)) as H2.
  lra.
Qed.

Lemma norm_sq_nonneg (z : complex) : 0 <= norm_sq z.
Proof.
  destruct z as [x y]. unfold norm_sq. cbn [fst snd].
  pose proof (Qsquare_nonneg x). pose proof (Qsquare_nonneg y). lra.
Qed.

(** With |c| <= 1/4 the orbit of 0 stays within |z| <= 1/2. *)
Lemma orbit_small (c : complex) (n : nat) :
  norm_sq c <= 1#16 -> norm_sq (orbit c n) <= 1#4.
Proof.
  intros Hc. induction n as [|n IH]; cbn [orbit].
  - unfold norm_sq. cbn [fst snd]. lra.
  - pose proof (norm_sq_cadd (cmul (orbit c n) (orbit c n)) c) as Hadd.
    pose proof (norm_sq_cmul (orbit c n)) as Hmul.
    pose proof (norm_sq_nonneg (orbit c n)) as Hpos.
    rewrite Hmul in Hadd.
    assert (Hsq : norm_sq (orbit c n) * norm_sq (orbit c n) <= 1#16).
    { pose proof (Qsquare_nonneg ((1#4) - norm_sq (orbit c n))).
      generalize dependent (norm_sq (orbit c n)). intros m. intros. nra. }
    lra.
Qed.

Lemma iterate_from_stays (c : complex) (todo : nat) :
  forall (k : nat) (i max_iter : Z),
    (forall j, escaped (orbit c j) = false) ->
    iterate_from c (orbit c k) i todo max_iter = (max_iter, true).
Proof.
  induction todo as [|todo IH]; intros k i max_iter Hstay; [reflexivity|].
  cbn [iterate_from].
  change (cadd (cmul (orbit c k) (orbit c k)) c) with (orbit c (S k)).
  rewrite Hstay. apply IH. exact Hstay.
Qed.

(** X4.  Every c with |c| <= 1/4 is in the set for every iteration cap:
    the orbit never leaves |z| <= 1/2.  In particular every trinity vector
    with (e·t)² + g² <= 1/16 gets in_set = true. *)
Theorem compute_iterations_small_c :
  forall (c : complex) (max_iter : Z),
    norm_sq c <= 1#16 ->
    compute_iterations c max_iter = (max_iter, true).
Proof.
  intros c max_iter Hc. unfold compute_iterations.
  apply (iterate_from_stays c _ 0).
  intros j. apply Qltb_ge. pose proof (orbit_small c j Hc). lra.
Qed.

Lemma compute_iterations_small_c_witness :
  compute_iterations (map_to_complex (1#5, 1#5, 1#2)) 100 = (100%Z, true).
Proof.
  apply (compute_iterations_small_c (map_to_complex (1#5, 1#5, 1#2)) 100).
  vm_compute. discriminate.
Defined.

End FractalMoreFacts.

(** ** Expression kernel: typing, substitution and evaluation together *)

Section LambdaMoreFacts.

Import Lambda LambdaMore.

Lemma typecheck_Abstraction (env : gmap string type) (x : string)
  (t : OntologicalType) (body : LogosExpr) :
  typecheck env (Abstraction x t body) =
  match typecheck (<[x := Onto t]> env) body with
  | Raised exn => Raised exn
  | Returned (Some body_type) =>
      Returned (Some (FunctionType (Onto t) body_type))
  | Returned None => Returned None
  end.
Proof.
  unfold typecheck. cbn [check_type].
  destruct (check_type (<[x := Onto t]> env) body)
    as [[body_type | exn] env1] eqn:Hbody; [|reflexivity].
  apply check_type_frame in Hbody. subst env1. cbn [fst].
  destruct (env !! x) as [old|].
  - destruct body_type; reflexivity.
  - rewrite lookup_insert_eq. destruct body_type; reflexivity.
Qed.

Lemma typecheck_Application (env : gmap string type) (func arg : LogosExpr) :
  typecheck env (Application func arg) =
  match typecheck env func with
  | Raised exn => Raised exn
  | Returned (Some (FunctionType domain codomain)) =>
      match typecheck env arg with
      | Raised exn => Raised exn
      | Returned arg_type => check_argument domain codomain arg_type
      end
  | Returned _ => Returned None
  end.
Proof.
  unfold typecheck. cbn [check_type].
  destruct (check_type env func) as [[func_type | exn] env1] eqn:Hfunc;
    [|reflexivity].
  apply check_type_frame in Hfunc. subst env1. cbn [fst].
  destruct func_type as [[t | domain codomain]|]; try reflexivity.
  destruct (check_type env arg) as [[arg_type | exn] env2]; reflexivity.
Qed.

(** [check_type] reads the environment at the free variables of the
    expression only. *)
Lemma typecheck_agree (expr : LogosExpr) :
  forall env1 env2 : gmap string type,
    (forall x, x ∈ free_vars expr -> env1 !! x = env2 !! x) ->
    typecheck env1 expr = typecheck env2 expr.
Proof.
  induction expr as
    [ name ont_type | value ont_type | name const_type value
    | var_name var_type body IHbody | func IHfunc arg IHarg
    | source_type target_type value ];
    intros env1 env2 Hagree; try reflexivity.
  - unfold typecheck. cbn [check_type fst].
    rewrite (Hagree name) by (cbn [free_vars]; set_solver). reflexivity.
  - rewrite !typecheck_Abstraction.
    rewrite (IHbody (<[var_name := Onto var_type]> env1)
               (<[var_name := Onto var_type]> env2)); [reflexivity|].
    intros x Hx. destruct (decide (var_name = x)) as [-> | Hne].
    + rewrite !lookup_insert_eq. reflexivity.
    + rewrite !lookup_insert_ne by exact Hne. apply Hagree.
      cbn [free_vars]. set_solver.
  - rewrite !typecheck_Application.
    rewrite (IHfunc env1 env2), (IHarg env1 env2); [reflexivity| |];
      intros x Hx; apply Hagree; cbn [free_vars]; set_solver.
Qed.

(** X5.  The type of a closed expression does not depend on the
    checker's environment. *)
Theorem typecheck_closed :
  forall (expr : LogosExpr) (env1 env2 : gmap string type),
    free_vars expr = ∅ ->
    typecheck env1 expr = typecheck env2 expr.
Proof.
  intros expr env1 env2 Hclosed. apply typecheck_agree.
  intros x Hx. rewrite Hclosed in Hx. set_solver.
Qed.

Lemma typecheck_closed_witness :
  typecheck TypeChecker_initial_env
    (Abstraction "x" EXISTENCE (Var "x" EXISTENCE))
  = typecheck ∅ (Abstraction "x" EXISTENCE (Var "x" EXISTENCE)).
Proof.
  apply (typecheck_closed (Abstraction "x" EXISTENCE (Var "x" EXISTENCE))).
  cbn [free_vars]. set_solver.
Defined.

(** Typing and substitution: replacing x by a closed expression of the
    type that x is bound to does not change the outcome of the check. *)
Lemma typecheck_substitute (M : LogosExpr) (x : string) (t : OntologicalType)
  (v : LogosExpr) :
  free_vars v = ∅ ->
  forall env : gmap string type,
    typecheck env v = Returned (Some (Onto t)) ->
    typecheck env (substitute M x v) = typecheck (<[x := Onto t]> env) M.
Proof.
  intros Hclosed.
  induction M as
    [ name ont_type | value ont_type | name const_type value
    | var_name var_type body IHbody | func IHfunc arg IHarg
    | source_type target_type value ];
    intros env Hv; cbn [substitute]; try reflexivity.
  - destruct (decide (name = x)) as [-> | Hne].
    + rewrite Hv. unfold typecheck. cbn [check_type fst].
      rewrite lookup_insert_eq. reflexivity.
    + unfold typecheck. cbn [check_type fst].
      rewrite lookup_insert_ne by congruence. reflexivity.
  - destruct (decide (var_name = x)) as [-> | Hne].
    + rewrite !typecheck_Abstraction, insert_insert_eq. reflexivity.
    + rewrite !typecheck_Abstraction.
      rewrite IHbody.
      * rewrite insert_insert_ne by congruence. reflexivity.
      * rewrite <- Hv. apply typecheck_agree.
        intros y Hy. rewrite Hclosed in Hy. set_solver.
  - rewrite !typecheck_Application.
    rewrite (IHfunc env Hv), (IHarg env Hv). reflexivity.
Qed.

(** X6.  A β-step keeps the type: when the application (λx:τ. M) N
    checks with a result type and N is closed, the expression M[x := N]
    that [evaluate] goes on with checks with the same type. *)
Theorem substitute_preserves_type :
  forall (env : gmap string type) (x : string) (t : OntologicalType)
         (M N : LogosExpr) (result : type),
    free_vars N = ∅ ->
    typecheck env (Application (Abstraction x t M) N)
    = Returned (Some result) ->
    typecheck env (substitute M x N) = Returned (Some result).
Proof.
  intros env x t M N result Hclosed Happ.
  rewrite typecheck_Application, typecheck_Abstraction in Happ.
  destruct (typecheck (<[x := Onto t]> env) M) as [[body_type|] | exn] eqn:HM;
    try discriminate Happ.
  destruct (typecheck env N) as [arg_type | exn] eqn:HN;
    [|discriminate Happ].
  unfold check_argument in Happ.
  destruct (decide (arg_type = Some (Onto t))) as [-> | Hne].
  - injection Happ as <-.
    rewrite (typecheck_substitute M x t N Hclosed env HN). exact HM.
  - destruct arg_type as [ty|]; [destruct (printable ty)|];
      discriminate Happ.
Qed.

Lemma substitute_preserves_type_witness :
  typecheck TypeChecker_initial_env
    (substitute (Application (Var "SR_E_G" EXISTENCE) (Var "x" EXISTENCE))
       "x" (Value "ei" EXISTENCE))
  = Returned (Some (Onto GOODNESS)).
Proof.
  apply (substitute_preserves_type TypeChecker_initial_env "x" EXISTENCE
           (Application (Var "SR_E_G" EXISTENCE) (Var "x" EXISTENCE))
           (Value "ei" EXISTENCE) (Onto GOODNESS));
    [reflexivity | vm_compute; reflexivity].
Defined.

(** X7.  Substitutions of closed expressions compose as expected: after x
    has been replaced, replacing x again changes nothing, and replacements
    for two different variables commute. *)
Theorem substitute_closed_compose :
  forall (M : LogosExpr) (x y : string) (v w : LogosExpr),
    free_vars v = ∅ -> free_vars w = ∅ ->
    substitute (substitute M x v) x w = substitute M x v
    /\ (x <> y ->
        substitute (substitute M x v) y w
        = substitute (substitute M y w) x v).
Proof.
  intros M x y v w Hv Hw. split.
  - apply substitute_not_free.
    rewrite substitute_free_vars by (rewrite Hv; set_solver).
    rewrite Hv. destruct (decide (x ∈ free_vars M)); set_solver.
  - intros Hxy.
    induction M as
      [ name ont_type | value ont_type | name const_type value
      | var_name var_type body IHbody | func IHfunc arg IHarg
      | source_type target_type value ];
      cbn [substitute]; try reflexivity.
    + destruct (decide (name = x)) as [-> | Hx].
      * rewrite decide_False by exact Hxy. cbn [substitute].
        rewrite decide_True by reflexivity.
        apply substitute_not_free. rewrite Hv. set_solver.
      * destruct (decide (name = y)) as [-> | Hy]; cbn [substitute].
        -- rewrite decide_True by reflexivity. symmetry.
           apply substitute_not_free. rewrite Hw. set_solver.
        -- rewrite decide_False by exact Hy.
           rewrite decide_False by exact Hx. reflexivity.
    + destruct (decide (var_name = x)) as [Ex | Hx];
        destruct (decide (var_name = y)) as [Ey | Hy]; cbn [substitute].
      * congruence.
      * rewrite decide_False by exact Hy. rewrite decide_True by exact Ex.
        reflexivity.
      * rewrite decide_True by exact Ey. rewrite decide_False by exact Hx.
        reflexivity.
      * rewrite decide_False by exact Hy. rewrite decide_False by exact Hx.
        rewrite IHbody. reflexivity.
    + rewrite IHfunc, IHarg. reflexivity.
Qed.

Lemma substitute_closed_compose_witness :
  let M := Application (Var "x" EXISTENCE) (Var "y" GOODNESS) in
  let v := Value "ei" EXISTENCE in
  let w := Value "og" GOODNESS in
  substitute (substitute M "x" v) "x" w = substitute M "x" v
  /\ ("x" <> "y" ->
      substitute (substitute M "x" v) "y" w
      = substitute (substitute M "y" w) "x" v).
Proof.
  apply (substitute_closed_compose
           (Application (Var "x" EXISTENCE) (Var "y" GOODNESS)) "x" "y"
           (Value "ei" EXISTENCE) (Value "og" GOODNESS));
    reflexivity.
Defined.

(** Every entry of the evaluator's initial environment is a constant. *)
Lemma Evaluator_initial_env_constants (name : string) (c : LogosExpr) :
  Evaluator_initial_env !! name = Some c ->
  exists n t v, c = Constant n t v.
Proof.
  unfold Evaluator_initial_env.
  cbn [create_logical_connectives create_core_axioms app list_to_map
       foldr fst snd uncurry].
  repeat (rewrite lookup_insert;
          destruct (decide _);
          [intros H; injection H as <-; eexists _, _, _; reflexivity|]).
  rewrite lookup_empty. discriminate.
Qed.

(** X8.  [evaluate] is idempotent: an expression that it returns is
    returned unchanged when evaluated again, within the same nesting. *)
Theorem evaluate_idempotent :
  forall (depth : nat) (expr v : LogosExpr),
    engine_evaluate depth expr = Some v ->
    engine_evaluate depth v = Some v.
Proof.
  unfold engine_evaluate.
  induction depth as [|depth IH]; intros expr v Hv; [discriminate Hv|].
  destruct expr as
    [ name ont_type | value ont_type | name const_type value
    | var_name var_type body | func arg
    | source_type target_type value ];
    cbn [evaluate] in Hv.
  - injection Hv as <-.
    destruct (Evaluator_initial_env !! name) as [c|] eqn:Hc; cbn [default].
    + destruct (Evaluator_initial_env_constants _ _ Hc) as (n & t & val & ->).
      reflexivity.
    + cbn [evaluate]. rewrite Hc. reflexivity.
  - injection Hv as <-. reflexivity.
  - injection Hv as <-. reflexivity.
  - destruct (evaluate depth Evaluator_initial_env body) as [new_body|]
      eqn:Hbody; [|discriminate Hv].
    injection Hv as <-. cbn [evaluate]. rewrite (IH _ _ Hbody). reflexivity.
  - destruct (evaluate depth Evaluator_initial_env func) as [func'|]
      eqn:Hfunc; [|discriminate Hv].
    destruct (evaluate depth Evaluator_initial_env arg) as [arg'|]
      eqn:Harg; [|discriminate Hv].
    pose proof (IH _ _ Hfunc) as Hf. pose proof (IH _ _ Harg) as Ha.
    assert (Hstuck :
              forall r, (forall x t b, func' <> Abstraction x t b) ->
                evaluate_constant func' arg' = r ->
                evaluate (S depth) Evaluator_initial_env r = Some r).
    { intros r Hnot <-. unfold evaluate_constant.
      assert (Happ : evaluate (S depth) Evaluator_initial_env
                       (Application func' arg')
                     = Some (evaluate_constant func' arg')).
      { cbn [evaluate]. rewrite Hf, Ha.
        destruct func'; try reflexivity. exfalso. eapply Hnot; reflexivity. }
      destruct func'; try exact Happ.
      destruct arg'; try exact Happ.
      unfold evaluate_constant in Happ.
      destruct (decide (name = "NOT")); [|exact Happ].
      destruct (decide (value0 = "TrueProp")); [reflexivity|].
      destruct (decide (value0 = "FalseProp")); [reflexivity|].
      exact Happ. }
    destruct func'; try (injection Hv as <-; apply Hstuck;
                         [discriminate | reflexivity]).
    apply IH in Hv. apply (evaluate_mono _ _ _ _ Hv). lia.
  - injection Hv as <-. reflexivity.
Qed.

Lemma evaluate_idempotent_witness :
  engine_evaluate 3 (Value "FalseProp" PROP) = Some (Value "FalseProp" PROP).
Proof.
  apply (evaluate_idempotent 3
           (Application (Var "NOT" PROP) (Value "TrueProp" PROP))
           (Value "FalseProp" PROP)).
  reflexivity.
Defined.

Lemma evaluate_constant_normal (func arg : LogosExpr) :
  (forall x t b, func <> Abstraction x t b) ->
  beta_normal func = true -> beta_normal arg = true ->
  beta_normal (evaluate_constant func arg) = true.
Proof.
  intros Hnot Hf Ha.
  assert (Happ : beta_normal (Application func arg) = true).
  { cbn [beta_normal]. rewrite Hf, Ha.
    destruct func; try reflexivity. exfalso. eapply Hnot; reflexivity. }
  unfold evaluate_constant. destruct func; try exact Happ.
  destruct arg; try exact Happ.
  destruct (decide (name = "NOT")); [|exact Happ].
  destruct (decide (value0 = "TrueProp")); [reflexivity|].
  destruct (decide (value0 = "FalseProp")); [reflexivity|].
  exact Happ.
Qed.

(** X9.  What [evaluate] returns holds no beta-redex: no application in
    the result has an abstraction as its function. *)
Theorem evaluate_returns_normal_form :
  forall (depth : nat) (expr v : LogosExpr),
    engine_evaluate depth expr = Some v -> beta_normal v = true.
Proof.
  unfold engine_evaluate.
  induction depth as [|depth IH]; intros expr v Hv; [discriminate Hv|].
  destruct expr as
    [ name ont_type | value ont_type | name const_type value
    | var_name var_type body | func arg
    | source_type target_type value ];
    cbn [evaluate] in Hv.
  - injection Hv as <-.
    destruct (Evaluator_initial_env !! name) as [c|] eqn:Hc; cbn [default];
      [|reflexivity].
    destruct (Evaluator_initial_env_constants _ _ Hc) as (n & t & val & ->).
    reflexivity.
  - injection Hv as <-. reflexivity.
  - injection Hv as <-. reflexivity.
  - destruct (evaluate depth Evaluator_initial_env body) as [new_body|]
      eqn:Hbody; [|discriminate Hv].
    injection Hv as <-. cbn [beta_normal]. exact (IH _ _ Hbody).
  - destruct (evaluate depth Evaluator_initial_env func) as [func'|]
      eqn:Hfunc; [|discriminate Hv].
    destruct (evaluate depth Evaluator_initial_env arg) as [arg'|]
      eqn:Harg; [|discriminate Hv].
    pose proof (IH _ _ Hfunc) as Hf. pose proof (IH _ _ Harg) as Ha.
    assert (Hstuck : (forall x t b, func' <> Abstraction x t b) ->
                     beta_normal (evaluate_constant func' arg') = true)
      by (intros Hnot; apply evaluate_constant_normal; assumption).
    destruct func'; try exact (IH _ _ Hv);
      injection Hv as <-; apply Hstuck; discriminate.
  - injection Hv as <-. reflexivity.
Qed.

Lemma evaluate_returns_normal_form_witness :
  beta_normal (Value "ei" EXISTENCE) = true.
Proof.
  apply (evaluate_returns_normal_form 4
           (Application (Abstraction "x" EXISTENCE (Var "x" EXISTENCE))
              (Value "ei" EXISTENCE))
           (Value "ei" EXISTENCE)).
  reflexivity.
Defined.

End LambdaMoreFacts.

(** ** Expression kernel: serialisation *)

Section SerialFacts.

Import Lambda Serial.

(** Induction on expressions that also descends into the definition of a
    constant. *)
Lemma LogosExpr_deep_ind (P : LogosExpr -> Prop) :
  (forall name t, P (Var name t)) ->
  (forall value t, P (Value value t)) ->
  (forall name const_type, P (Constant name const_type None)) ->
  (forall name const_type v, P v -> P (Constant name const_type (Some v))) ->
  (forall x t body, P body -> P (Abstraction x t body)) ->
  (forall func arg, P func -> P arg -> P (Application func arg)) ->
  (forall s t value, P (SufficientReason s t value)) ->
  forall expr, P expr.
Proof.
  intros HVar HValue HConstNone HConstSome HAbs HApp HSR.
  fix IH 1. intros [name t | value t | name const_type [v|] | x t body
                   | func arg | s t value].
  - apply HVar.
  - apply HValue.
  - apply HConstSome. apply IH.
  - apply HConstNone.
  - apply HAbs. apply IH.
  - apply HApp; apply IH.
  - apply HSR.
Qed.

Lemma OntologicalType_round_trip (t : OntologicalType) :
  OntologicalType_of (JString (OntologicalType_value t)) = Returned t.
Proof. destruct t; reflexivity. Qed.

Lemma type_to_dict_shape (t : type) (j : json) :
  type_to_dict t = Returned j ->
  match t with
  | Onto o => j = JString (OntologicalType_value o)
  | FunctionType _ _ => exists l, j = JArray l
  end.
Proof.
  destruct t as [o | domain codomain]; cbn [type_to_dict].
  - intros H. injection H as <-. reflexivity.
  - destruct (type_to_dict codomain) as [cj | exn]; [|discriminate].
    destruct domain as [d | d1 d2]; [|discriminate].
    intros H. injection H as <-. eexists; reflexivity.
Qed.

Lemma type_round_trip (t : type) :
  forall j : json,
    type_to_dict t = Returned j -> const_type_from_dict j = Returned t.
Proof.
  induction t as [o | domain _ codomain IHcod]; intros j; cbn [type_to_dict].
  - intros H. injection H as <-. cbn [const_type_from_dict].
    rewrite OntologicalType_round_trip. reflexivity.
  - destruct (type_to_dict codomain) as [cj | exn] eqn:Hcod; [|discriminate].
    destruct domain as [d | d1 d2]; [|discriminate].
    intros H. injection H as <-.
    cbn [const_type_from_dict FunctionType_from_dict].
    rewrite OntologicalType_round_trip.
    pose proof (type_to_dict_shape _ _ Hcod) as Hshape.
    specialize (IHcod cj eq_refl).
    destruct codomain as [o | c1 c2].
    + subst cj. rewrite OntologicalType_round_trip. reflexivity.
    + destruct Hshape as [l ->]. cbn [const_type_from_dict] in IHcod.
      rewrite IHcod. reflexivity.
Qed.

Lemma to_dict_truthy (expr : LogosExpr) (j : json) :
  to_dict expr = Returned j -> truthy j = true.
Proof.
  destruct expr as [name t | value t | name const_type [v|] | x t body
                   | func arg | s t value]; cbn [to_dict].
  - intros H; injection H as <-; reflexivity.
  - intros H; injection H as <-; reflexivity.
  - destruct (type_to_dict const_type); [|discriminate].
    destruct (to_dict v); [|discriminate].
    intros H; injection H as <-; reflexivity.
  - destruct (type_to_dict const_type); [|discriminate].
    intros H; injection H as <-; reflexivity.
  - destruct (to_dict body); [|discriminate].
    intros H; injection H as <-; reflexivity.
  - destruct (to_dict func); [|discriminate].
    destruct (to_dict arg); [|discriminate].
    intros H; injection H as <-; reflexivity.
  - intros H; injection H as <-; reflexivity.
Qed.

Ltac parse_step :=
  cbn -[OntologicalType_of OntologicalType_value const_type_from_dict].

(** X10.  Serialise-then-deserialise is the identity on expressions:
    whenever [to_dict] returns a dict for an expression, [from_dict] on
    that dict returns the expression. *)
Theorem from_dict_to_dict :
  forall (expr : LogosExpr) (j : json),
    to_dict expr = Returned j -> from_dict j = Returned (parsed expr).
Proof.
  induction expr as
    [ name t | value t | name const_type | name const_type v IHv
    | x t body IHbody | func arg IHfunc IHarg | s t value ]
    using LogosExpr_deep_ind; intros j; cbn [to_dict].
  - intros H. injection H as <-. parse_step.
    rewrite OntologicalType_round_trip. reflexivity.
  - intros H. injection H as <-. parse_step.
    rewrite OntologicalType_round_trip. reflexivity.
  - destruct (type_to_dict const_type) as [tj|] eqn:Ht; [|discriminate].
    intros H. injection H as <-. parse_step.
    rewrite (type_round_trip _ _ Ht). reflexivity.
  - destruct (type_to_dict const_type) as [tj|] eqn:Ht; [|discriminate].
    destruct (to_dict v) as [vj|] eqn:Hv; [|discriminate].
    intros H. injection H as <-. parse_step.
    rewrite (type_round_trip _ _ Ht). cbn [bind].
    rewrite (to_dict_truthy _ _ Hv), (IHv _ eq_refl). reflexivity.
  - destruct (to_dict body) as [bj|] eqn:Hb; [|discriminate].
    intros H. injection H as <-. parse_step.
    rewrite OntologicalType_round_trip. cbn [bind].
    rewrite (IHbody _ eq_refl). reflexivity.
  - destruct (to_dict func) as [fj|] eqn:Hf; [|discriminate].
    destruct (to_dict arg) as [aj|] eqn:Ha; [|discriminate].
    intros H. injection H as <-. parse_step.
    rewrite (IHfunc _ eq_refl). cbn [bind].
    rewrite (IHarg _ eq_refl). reflexivity.
  - intros H. injection H as <-. parse_step.
    rewrite !OntologicalType_round_trip. reflexivity.
Qed.

Lemma from_dict_to_dict_witness :
  from_dict
    (JObject
       [("type", JString "app");
        ("func",
         JObject
           [("type", JString "lambda"); ("var", JString "x");
            ("varType", JString (OntologicalType_value EXISTENCE));
            ("body",
             JObject
               [("type", JString "var"); ("name", JString "x");
                ("ont_type", JString (OntologicalType_value EXISTENCE))])]);
        ("arg",
         JObject
           [("type", JString "value"); ("value", JString "ei");
            ("ont_type", JString (OntologicalType_value EXISTENCE))])])
  = Returned
      (PApplication
         (PAbstraction (JString "x") EXISTENCE (PVar (JString "x") EXISTENCE))
         (PValue (JString "ei") EXISTENCE)).
Proof. exact (from_dict_to_dict example_redex _ eq_refl). Defined.

End SerialFacts.

(** ** k-d tree index: insertion and search *)

Section KDSearchFacts.

Import KD KDSearch.
Local Open Scope Q_scope.

(** *** Squared distances *)

Lemma fold_left_Qplus_ge (l : list Q) :
  Forall (fun x => 0 <= x) l ->
  forall a, a <= fold_left Qplus l a.
Proof.
  induction 1 as [|y l Hy Hl IH]; intros a; cbn [fold_left]; [lra|].
  specialize (IH (a + y)). lra.
Qed.

Lemma fold_left_Qplus_ge_nth (l : list Q) :
  Forall (fun x => 0 <= x) l ->
  forall (i : nat) (x a : Q),
    nth_error l i = Some x -> a + x <= fold_left Qplus l a.
Proof.
  induction 1 as [|y l Hy Hl IH]; intros i x a Hnth.
  - destruct i; discriminate Hnth.
  - destruct i as [|i]; cbn [nth_error fold_left] in *.
    + injection Hnth as <-. apply fold_left_Qplus_ge. exact Hl.
    + specialize (IH i x (a + y) Hnth). lra.
Qed.

Lemma fold_left_Qplus_zero (l : list Q) :
  Forall (fun x => x == 0) l ->
  forall a, fold_left Qplus l a == a.
Proof.
  induction 1 as [|y l Hy Hl IH]; intros a; cbn [fold_left]; [reflexivity|].
  rewrite IH. lra.
Qed.

Lemma sq_diffs_nonneg (p q : list Q) :
  Forall (fun x => 0 <= x) (map sq_diff (combine p q)).
Proof.
  apply List.Forall_forall. intros x Hx. apply in_map_iff in Hx.
  destruct Hx as ([a b] & <- & _). unfold sq_diff. cbn [fst snd].
  apply Qsquare_nonneg.
Qed.

Lemma dist_sq_nonneg (p q : list Q) : 0 <= dist_sq p q.
Proof. apply (fold_left_Qplus_ge _ (sq_diffs_nonneg p q)). Qed.

Lemma nth_error_sq_diff (p q : list Q) :
  forall axis : nat,
    (axis < length p)%nat -> (axis < length q)%nat ->
    nth_error (map sq_diff (combine p q)) axis
    = Some ((coord p axis - coord q axis) * (coord p axis - coord q axis)).
Proof.
  revert q. induction p as [|a p IH]; intros q axis Hp Hq;
    [cbn in Hp; lia|].
  destruct q as [|b q]; [cbn in Hq; lia|].
  destruct axis as [|axis]; [reflexivity|].
  cbn [combine map nth_error coord nth length] in *.
  apply IH; lia.
Qed.

(** The squared distance is at least the squared difference on any one
    axis. *)
Lemma dist_sq_ge_axis (p q : list Q) (axis : nat) :
  (axis < length p)%nat -> (axis < length q)%nat ->
  (coord p axis - coord q axis) * (coord p axis - coord q axis)
  <= dist_sq p q.
Proof.
  intros Hp Hq.
  pose proof (fold_left_Qplus_ge_nth _ (sq_diffs_nonneg p q) axis _ 0
                (nth_error_sq_diff p q axis Hp Hq)) as H.
  unfold dist_sq. fold sq_diff. lra.
Qed.

Lemma dist_sq_same (p : list Q) : dist_sq p p == 0.
Proof.
  unfold dist_sq. fold sq_diff. apply fold_left_Qplus_zero.
  apply List.Forall_forall. intros x Hx. apply in_map_iff in Hx.
  destruct Hx as ([a b] & <- & Hin).
  assert (a = b) as ->.
  { clear -Hin. induction p as [|c p IH]; [destruct Hin|].
    destruct Hin as [H | H]; [congruence | exact (IH H)]. }
  unfold sq_diff. cbn [fst snd]. ring.
Qed.

(** *** Insertion *)

Lemma entries_insert (dim : nat) (node : KDNode) (id : string)
  (p : list Q) :
  forall depth : nat,
    Permutation (entries (_insert dim node id p depth))
      ((id, p) :: entries node).
Proof.
  induction node as [|nid npoint lft IHl rgt IHr]; intros depth;
    cbn [_insert entries]; [reflexivity|].
  destruct (Qltb (coord p (depth mod dim)) (coord npoint (depth mod dim)));
    cbn [entries].
  - rewrite (IHl (S depth)). cbn [app]. apply perm_swap.
  - rewrite (IHr (S depth)).
    rewrite <- Permutation_middle. apply perm_swap.
Qed.

Lemma In_entries_insert (dim : nat) (node : KDNode) (id : string)
  (p : list Q) (depth : nat) (e : string * list Q) :
  In e (entries (_insert dim node id p depth))
  <-> e = (id, p) \/ In e (entries node).
Proof.
  split.
  - intros H. apply (Permutation_in _ (entries_insert dim node id p depth)) in H.
    destruct H as [<- | H]; [left; reflexivity | right; exact H].
  - intros H.
    apply (Permutation_in _ (Permutation_sym (entries_insert dim node id p depth))).
    destruct H as [-> | H]; [left; reflexivity | right; exact H].
Qed.

Lemma insert_ordered (dim : nat) (node : KDNode) (id : string)
  (p : list Q) :
  forall depth : nat,
    ordered dim node depth -> ordered dim (_insert dim node id p depth) depth.
Proof.
  induction node as [|nid npoint lft IHl rgt IHr]; intros depth Hord;
    cbn [_insert].
  - cbn [ordered entries]. repeat split; intros e [].
  - cbn [ordered] in Hord. destruct Hord as (Hl & Hr & Hol & Hor).
    destruct (Qltb (coord p (depth mod dim)) (coord npoint (depth mod dim)))
      eqn:Hcmp; cbn [ordered].
    + apply Qltb_lt in Hcmp. repeat split; try assumption.
      * intros e He. apply In_entries_insert in He.
        destruct He as [-> | He]; [exact Hcmp | apply Hl; exact He].
      * apply IHl. exact Hol.
    + apply Qltb_ge in Hcmp. repeat split; try assumption.
      * intros e He. apply In_entries_insert in He.
        destruct He as [-> | He]; [exact Hcmp | apply Hr; exact He].
      * apply IHr. exact Hor.
Qed.

Lemma insert_built (t : KDTree) (id : string) (p : list Q) :
  built t -> length p = k t -> built (insert t id p).
Proof.
  intros (Hk & Hord & Hdim) Hp. unfold built, insert. cbn [k root].
  split; [exact Hk|]. split; [apply insert_ordered; exact Hord|].
  intros e He. apply In_entries_insert in He.
  destruct He as [-> | He]; [exact Hp | apply Hdim; exact He].
Qed.

Lemma new_tree_built (dim : nat) : (0 < dim)%nat -> built (new_tree dim).
Proof.
  intros Hdim. unfold built, new_tree. cbn [k root ordered].
  split; [exact Hdim|]. split; [exact I|]. intros e [].
Qed.

(** *** Nearest neighbour *)

Lemma nn_searches_members (point : list Q) (E E' : list (string * list Q))
  (f : option string * bound -> option string * bound) :
  (forall e, In e E <-> In e E') ->
  nn_searches point E f -> nn_searches point E' f.
Proof.
  intros Hsame Hf best. destruct (Hf best) as (Hmono & Hall & Hfrom).
  split; [exact Hmono|]. split.
  - intros e He. apply Hall. apply Hsame. exact He.
  - destruct Hfrom as [Hkeep | (e & He & Hset)]; [left; exact Hkeep|].
    right. exists e. split; [apply Hsame; exact He | exact Hset].
Qed.

Lemma nn_searches_nil (point : list Q) :
  nn_searches point [] (fun best => best).
Proof.
  intros best. split; [tauto|]. split; [intros e []|]. left; reflexivity.
Qed.

(** The visit of one node. *)
Lemma nn_searches_node (point : list Q) (nid : string) (npoint : list Q) :
  nn_searches point [(nid, npoint)]
    (fun best =>
       if below (dist_sq npoint point) (snd best)
       then (Some nid, Fin (dist_sq npoint point)) else best).
Proof.
  intros [bid bd]. cbn [snd].
  destruct (below (dist_sq npoint point) bd) eqn:Hb; cbn [snd].
  - split.
    + intros x Hx. destruct bd as [|q]; [destruct Hx|].
      cbn [below within] in *. apply Qltb_lt in Hb. lra.
    + split.
      * intros e [<- | []]. cbn [snd within]. lra.
      * right. exists (nid, npoint). split; [left; reflexivity | reflexivity].
  - split; [tauto|]. split; [|left; reflexivity].
    intros e [<- | []]. cbn [snd].
    destruct bd as [|q]; [discriminate Hb|].
    cbn [below within] in *. apply Qltb_ge in Hb. exact Hb.
Qed.

(** One part of the search after another. *)
Lemma nn_searches_then (point : list Q) (E1 E2 : list (string * list Q))
  (f g : option string * bound -> option string * bound) :
  nn_searches point E1 f -> nn_searches point E2 g ->
  nn_searches point (E1 ++ E2) (fun best => g (f best)).
Proof.
  intros Hf Hg best.
  destruct (Hf best) as (Hmono1 & Hall1 & Hfrom1).
  destruct (Hg (f best)) as (Hmono2 & Hall2 & Hfrom2).
  split; [auto|]. split.
  - intros e He. apply in_app_or in He. destruct He as [He | He]; auto.
  - destruct Hfrom2 as [Hkeep | (e & He & Hset)].
    + rewrite Hkeep. destruct Hfrom1 as [Hkeep1 | (e & He & Hset)];
        [left; exact Hkeep1|].
      right. exists e. split; [apply in_or_app; left; exact He | exact Hset].
    + right. exists e. split; [apply in_or_app; right; exact He | exact Hset].
Qed.

(** A subtree is searched, or skipped when the best distance is already
    at most [bar], a lower bound of the distances in the subtree. *)
Lemma nn_searches_pruned (point : list Q) (E : list (string * list Q))
  (g : option string * bound -> option string * bound) (bar : Q) :
  nn_searches point E g ->
  (forall e, In e E -> bar <= dist_sq (snd e) point) ->
  nn_searches point E
    (fun best => if below bar (snd best) then g best else best).
Proof.
  intros Hg Hbar [bid bd]. cbn [snd].
  destruct (below bar bd) eqn:Hb; [exact (Hg (bid, bd))|].
  split; [tauto|]. split; [|left; reflexivity].
  intros e He. cbn [snd]. destruct bd as [|q]; [discriminate Hb|].
  cbn [below within] in *. apply Qltb_ge in Hb.
  specialize (Hbar e He). lra.
Qed.

Lemma square_le_square (a b : Q) : 0 <= a -> a <= b -> a * a <= b * b.
Proof. intros Ha Hab. nra. Qed.

Lemma _nearest_neighbor_searches (dim : nat) (point : list Q)
  (node : KDNode) :
  (0 < dim)%nat -> length point = dim -> points_of_dim dim node ->
  forall depth : nat,
    ordered dim node depth ->
    nn_searches point (entries node)
      (_nearest_neighbor dim point node depth).
Proof.
  intros Hdim Hpoint.
  induction node as [|nid npoint lft IHl rgt IHr]; intros Hpts depth Hord.
  - apply nn_searches_nil.
  - cbn [ordered] in Hord. destruct Hord as (Hl & Hr & Hol & Hor).
    assert (Hptsl : points_of_dim dim lft).
    { intros e He. apply Hpts. cbn [entries]. right.
      apply in_or_app. left; exact He. }
    assert (Hptsr : points_of_dim dim rgt).
    { intros e He. apply Hpts. cbn [entries]. right.
      apply in_or_app. right; exact He. }
    specialize (IHl Hptsl (S depth) Hol).
    specialize (IHr Hptsr (S depth) Hor).
    assert (Haxis : (depth mod dim < dim)%nat)
      by (apply Nat.mod_upper_bound; lia).
    assert (Hnp : length npoint = dim).
    { apply (Hpts (nid, npoint)). left; reflexivity. }
    cbn [_nearest_neighbor entries].
    set (axis := (depth mod dim)%nat) in *.
    set (diff := coord point axis - coord npoint axis).
    destruct (Qltb diff 0) eqn:Hdiff.
    + apply Qltb_lt in Hdiff.
      assert (Hbar : forall e, In e (entries rgt) ->
                       diff * diff <= dist_sq (snd e) point).
      { intros e He. specialize (Hr e He).
        pose proof (dist_sq_ge_axis (snd e) point axis) as Hge.
        rewrite (Hptsr e He), Hpoint in Hge. specialize (Hge Haxis Haxis).
        pose proof (square_le_square (- diff)
                      (coord (snd e) axis - coord point axis)) as Hsq.
        unfold diff in *. lra. }
      intros best.
      exact (nn_searches_then point _ _ _ _
               (nn_searches_node point nid npoint)
               (nn_searches_then point _ _ _ _ IHl
                  (nn_searches_pruned point _ _ (diff * diff) IHr Hbar))
               best).
    + apply Qltb_ge in Hdiff.
      assert (Hbar : forall e, In e (entries lft) ->
                       diff * diff <= dist_sq (snd e) point).
      { intros e He. specialize (Hl e He).
        pose proof (dist_sq_ge_axis (snd e) point axis) as Hge.
        rewrite (Hptsl e He), Hpoint in Hge. specialize (Hge Haxis Haxis).
        pose proof (square_le_square diff
                      (coord point axis - coord (snd e) axis)) as Hsq.
        unfold diff in *. lra. }
      apply (nn_searches_members point
               ([(nid, npoint)] ++ entries rgt ++ entries lft)).
      { intros e. cbn [app In]. rewrite !in_app_iff. tauto. }
      intros best.
      exact (nn_searches_then point _ _ _ _
               (nn_searches_node point nid npoint)
               (nn_searches_then point _ _ _ _ IHr
                  (nn_searches_pruned point _ _ (diff * diff) IHl Hbar))
               best).
Qed.

(** X11.  On a tree built by insertions, [nearest_neighbor] returns the id
    of a tree location at the least squared distance from the query; it
    returns [None] only for the empty tree. *)
Theorem nearest_neighbor_nearest :
  forall (t : KDTree) (point : list Q),
    built t -> length point = k t ->
    match nearest_neighbor t point with
    | None => entries (root t) = []
    | Some id =>
        exists p, In (id, p) (entries (root t))
                  /\ forall e, In e (entries (root t)) ->
                       dist_sq p point <= dist_sq (snd e) point
    end.
Proof.
  intros t point (Hk & Hord & Hdim) Hpoint. unfold nearest_neighbor.
  destruct (root t) as [|nid npoint lft rgt] eqn:Hroot; [reflexivity|].
  rewrite <- Hroot in *.
  destruct (_nearest_neighbor_searches (k t) point (root t) Hk Hpoint Hdim
              0 Hord (None, Inf)) as (_ & Hall & Hfrom).
  destruct Hfrom as [Hkeep | (e & He & Hset)].
  - exfalso. rewrite Hkeep in Hall. cbn [snd] in Hall.
    apply (Hall (nid, npoint)). rewrite Hroot. left; reflexivity.
  - rewrite Hset in *. cbn [fst snd] in *. exists (snd e). split.
    + destruct e; exact He.
    + intros e' He'. exact (Hall e' He').
Qed.

Lemma example_tree_built : built example_tree.
Proof.
  unfold example_tree.
  repeat (apply insert_built; [|reflexivity]).
  apply new_tree_built. lia.
Qed.

Lemma nearest_neighbor_nearest_witness :
  exists p,
    In ("c", p) (entries (root example_tree))
    /\ forall e, In e (entries (root example_tree)) ->
         dist_sq p [2; 2] <= dist_sq (snd e) [2; 2].
Proof.
  exact (nearest_neighbor_nearest example_tree [2; 2] example_tree_built
           eq_refl).
Defined.

(** *** k nearest neighbours *)

Lemma item_leb_key (a b : item) :
  (item_leb a b = true -> fst a <= fst b)
  /\ (item_leb a b = false -> fst b <= fst a).
Proof.
  unfold item_leb. split.
  - intros H. apply orb_true_iff in H. destruct H as [H | H].
    + apply Qltb_lt in H. lra.
    + apply andb_true_iff in H. destruct H as [H _].
      apply Qeq_bool_iff in H. lra.
  - intros H. apply orb_false_iff in H. destruct H as [H _].
    apply Qltb_ge in H. exact H.
Qed.

Lemma heap_insert_In_iff (it y : item) (heap : list item) :
  In y (heap_insert it heap) <-> y = it \/ In y heap.
Proof.
  split; [apply heap_insert_In|].
  induction heap as [|x rest IH]; cbn [heap_insert].
  - intros [-> | []]. left; reflexivity.
  - destruct (item_leb it x).
    + intros [-> | H]; [left; reflexivity | right; exact H].
    + intros [-> | [-> | H]].
      * right. apply IH. left; reflexivity.
      * left; reflexivity.
      * right. apply IH. right; exact H.
Qed.

Lemma heap_insert_sorted (it : item) (heap : list item) :
  heap_sorted heap -> heap_sorted (heap_insert it heap).
Proof.
  unfold heap_sorted.
  induction 1 as [|x rest Hrest IH Hx]; cbn [heap_insert].
  - constructor; constructor.
  - destruct (item_leb it x) eqn:Hcmp.
    + apply item_leb_key in Hcmp.
      constructor; [constructor; assumption|].
      constructor; [exact Hcmp|].
      eapply List.Forall_impl; [|exact Hx].
      intros z Hz. unfold key_le in *. lra.
    + apply item_leb_key in Hcmp.
      constructor; [exact IH|].
      apply List.Forall_forall. intros z Hz.
      apply heap_insert_In_iff in Hz. destruct Hz as [-> | Hz].
      * exact Hcmp.
      * rewrite List.Forall_forall in Hx. apply Hx. exact Hz.
Qed.

Lemma heap_sorted_top (x : item) (rest : list item) :
  heap_sorted (x :: rest) ->
  heap_sorted rest /\ forall y, In y (x :: rest) -> fst x <= fst y.
Proof.
  intros H. inversion H as [|? ? Hrest Hx]; subst. split; [exact Hrest|].
  intros y [<- | Hy]; [lra|].
  rewrite List.Forall_forall in Hx. exact (Hx y Hy).
Qed.

Lemma top_key_least (heap : list item) :
  heap_sorted heap -> forall y, In y heap -> top_key heap <= fst y.
Proof.
  destruct heap as [|[key id] rest]; intros Hs y Hy; [destruct Hy|].
  cbn [top_key]. exact (proj2 (heap_sorted_top _ _ Hs) y Hy).
Qed.

(** The visit of one node: the candidate is offered to the list. *)
Lemma knn_searches_node (kk : nat) (point : list Q) (nid : string)
  (npoint : list Q) :
  knn_searches kk point [(nid, npoint)]
    (fun nearest => offer kk nearest (- dist_sq npoint point, nid)).
Proof.
  intros nearest Hs Hlen.
  set (it := (- dist_sq npoint point, nid)).
  assert (Hnew : accounted kk (offer kk nearest it) it
                 /\ heap_sorted (offer kk nearest it)
                 /\ forall x, accounted kk nearest x ->
                      accounted kk (offer kk nearest it) x).
  { unfold offer. destruct (length nearest <? kk)%nat eqn:Hlt.
    - apply Nat.ltb_lt in Hlt. unfold heappush. split; [|split].
      + left. apply heap_insert_In_iff. left; reflexivity.
      + apply heap_insert_sorted. exact Hs.
      + intros x [Hx | [Hfull _]]; [|lia].
        left. apply heap_insert_In_iff. right; exact Hx.
    - apply Nat.ltb_ge in Hlt.
      assert (Hfull : length nearest = kk) by lia.
      destruct (Qltb (top_key nearest) (fst it)) eqn:Htop.
      + apply Qltb_lt in Htop. unfold heapreplace.
        destruct nearest as [|m rest].
        * split; [|split; [exact Hs | tauto]].
          right. split; [exact Hfull | intros y []].
        * destruct (heap_sorted_top _ _ Hs) as [Hrest Hm].
          assert (Hm' : forall y, In y (heap_insert it rest) ->
                          fst m <= fst y).
          { intros y Hy. apply heap_insert_In_iff in Hy.
            destruct Hy as [-> | Hy].
            - destruct m as [mk mid]. cbn [top_key fst] in *. lra.
            - apply Hm. right; exact Hy. }
          assert (Hlen' : length (heap_insert it rest) = kk).
          { rewrite heap_insert_length. exact Hfull. }
          split; [|split].
          -- left. apply heap_insert_In_iff. left; reflexivity.
          -- apply heap_insert_sorted. exact Hrest.
          -- intros x [[<- | Hx] | [_ Hx]].
             ++ right. split; [exact Hlen' | exact Hm'].
             ++ left. apply heap_insert_In_iff. right; exact Hx.
             ++ right. split; [exact Hlen'|]. intros y Hy.
                specialize (Hm' y Hy).
                specialize (Hx m (or_introl eq_refl)). lra.
      + apply Qltb_ge in Htop. split; [|split; [exact Hs | tauto]].
        right. split; [exact Hfull|]. intros y Hy.
        pose proof (top_key_least _ Hs y Hy). lra. }
  destruct Hnew as (Hit & Hs' & Hmono).
  split; [exact Hs'|]. split; [apply offer_length; exact Hlen|].
  split; [|split; [exact Hmono|]; intros e [<- | []]; exact Hit].
  unfold offer. destruct (length nearest <? kk)%nat eqn:Hlt.
  - apply Nat.ltb_lt in Hlt.
    unfold heappush. rewrite heap_insert_length. cbn [length]. lia.
  - apply Nat.ltb_ge in Hlt.
    destruct (Qltb (top_key nearest) (fst it)); [|cbn [length]; lia].
    unfold heapreplace. destruct nearest as [|m rest]; [cbn in *; lia|].
    rewrite heap_insert_length. cbn [length] in *. lia.
Qed.

Lemma knn_searches_members (kk : nat) (point : list Q)
  (E E' : list (string * list Q)) (f : list item -> list item) :
  (forall e, In e E' -> In e E) -> length E' = length E ->
  knn_searches kk point E f -> knn_searches kk point E' f.
Proof.
  intros Hsub Hsame Hf nearest Hs Hlen.
  destruct (Hf nearest Hs Hlen) as (Hs' & Hlen' & Hgrow & Hmono & Hall).
  split; [exact Hs'|]. split; [exact Hlen'|].
  split; [rewrite Hsame; exact Hgrow|]. split; [exact Hmono|].
  intros e He. apply Hall, Hsub, He.
Qed.

Lemma knn_searches_nil (kk : nat) (point : list Q) :
  knn_searches kk point [] (fun nearest => nearest).
Proof.
  intros nearest Hs Hlen. split; [exact Hs|]. split; [exact Hlen|].
  split; [cbn [length]; lia|]. split; [tauto | intros e []].
Qed.

Lemma knn_searches_then (kk : nat) (point : list Q)
  (E1 E2 : list (string * list Q)) (f g : list item -> list item) :
  knn_searches kk point E1 f -> knn_searches kk point E2 g ->
  knn_searches kk point (E1 ++ E2) (fun nearest => g (f nearest)).
Proof.
  intros Hf Hg nearest Hs Hlen.
  destruct (Hf nearest Hs Hlen) as (Hs1 & Hlen1 & Hgrow1 & Hmono1 & Hall1).
  destruct (Hg (f nearest) Hs1 Hlen1)
    as (Hs2 & Hlen2 & Hgrow2 & Hmono2 & Hall2).
  split; [exact Hs2|]. split; [exact Hlen2|].
  split; [rewrite length_app; lia|]. split; [auto|].
  intros e He. apply in_app_or in He. destruct He as [He | He]; auto.
Qed.

(** A subtree is searched, or skipped when the list is full and its
    greatest distance is at most [bar], a lower bound of the distances in
    the subtree. *)
Lemma knn_searches_pruned (kk : nat) (point : list Q)
  (E : list (string * list Q)) (g : list item -> list item) (bar : Q) :
  knn_searches kk point E g ->
  (forall e, In e E -> bar <= dist_sq (snd e) point) ->
  knn_searches kk point E
    (fun nearest =>
       if (length nearest <? kk)%nat || Qltb bar (- top_key nearest)
       then g nearest else nearest).
Proof.
  intros Hg Hbar nearest Hs Hlen.
  destruct ((length nearest <? kk)%nat || Qltb bar (- top_key nearest))
    eqn:Hgo; [exact (Hg nearest Hs Hlen)|].
  apply orb_false_iff in Hgo. destruct Hgo as [Hfull Htop].
  apply Nat.ltb_ge in Hfull. apply Qltb_ge in Htop.
  split; [exact Hs|]. split; [exact Hlen|]. split; [lia|].
  split; [tauto|].
  intros e He. right. split; [lia|]. intros y Hy. cbn [fst].
  pose proof (top_key_least _ Hs y Hy). specialize (Hbar e He). lra.
Qed.

Lemma _k_nearest_neighbors_searches (dim kk : nat) (point : list Q)
  (node : KDNode) :
  (0 < dim)%nat -> length point = dim -> points_of_dim dim node ->
  forall depth : nat,
    ordered dim node depth ->
    knn_searches kk point (entries node)
      (_k_nearest_neighbors dim kk point node depth).
Proof.
  intros Hdim Hpoint.
  induction node as [|nid npoint lft IHl rgt IHr]; intros Hpts depth Hord.
  - apply knn_searches_nil.
  - cbn [ordered] in Hord. destruct Hord as (Hl & Hr & Hol & Hor).
    assert (Hptsl : points_of_dim dim lft).
    { intros e He. apply Hpts. cbn [entries]. right.
      apply in_or_app. left; exact He. }
    assert (Hptsr : points_of_dim dim rgt).
    { intros e He. apply Hpts. cbn [entries]. right.
      apply in_or_app. right; exact He. }
    specialize (IHl Hptsl (S depth) Hol).
    specialize (IHr Hptsr (S depth) Hor).
    assert (Haxis : (depth mod dim < dim)%nat)
      by (apply Nat.mod_upper_bound; lia).
    cbn [_k_nearest_neighbors entries].
    set (axis := (depth mod dim)%nat) in *.
    set (diff := coord point axis - coord npoint axis).
    destruct (Qltb diff 0) eqn:Hdiff.
    + apply Qltb_lt in Hdiff.
      assert (Hbar : forall e, In e (entries rgt) ->
                       diff * diff <= dist_sq (snd e) point).
      { intros e He. specialize (Hr e He).
        pose proof (dist_sq_ge_axis (snd e) point axis) as Hge.
        rewrite (Hptsr e He), Hpoint in Hge. specialize (Hge Haxis Haxis).
        pose proof (square_le_square (- diff)
                      (coord (snd e) axis - coord point axis)) as Hsq.
        unfold diff in *. lra. }
      intros nearest.
      exact (knn_searches_then kk point _ _ _ _
               (knn_searches_node kk point nid npoint)
               (knn_searches_then kk point _ _ _ _ IHl
                  (knn_searches_pruned kk point _ _ (diff * diff) IHr Hbar))
               nearest).
    + apply Qltb_ge in Hdiff.
      assert (Hbar : forall e, In e (entries lft) ->
                       diff * diff <= dist_sq (snd e) point).
      { intros e He. specialize (Hl e He).
        pose proof (dist_sq_ge_axis (snd e) point axis) as Hge.
        rewrite (Hptsl e He), Hpoint in Hge. specialize (Hge Haxis Haxis).
        pose proof (square_le_square diff
                      (coord point axis - coord (snd e) axis)) as Hsq.
        unfold diff in *. lra. }
      apply (knn_searches_members kk point
               ([(nid, npoint)] ++ entries rgt ++ entries lft)).
      { intros e. cbn [app In]. rewrite !in_app_iff. tauto. }
      { cbn [app length]. rewrite !length_app. lia. }
      intros nearest.
      exact (knn_searches_then kk point _ _ _ _
               (knn_searches_node kk point nid npoint)
               (knn_searches_then kk point _ _ _ _ IHr
                  (knn_searches_pruned kk point _ _ (diff * diff) IHl Hbar))
               nearest).
Qed.

Lemma insert_by_distance_In_iff (x y : string * distance)
  (l : list (string * distance)) :
  In y (insert_by_distance x l) <-> y = x \/ In y l.
Proof.
  split; [apply insert_by_distance_In|].
  induction l as [|z rest IH]; cbn [insert_by_distance].
  - intros [-> | []]. left; reflexivity.
  - destruct (distance_leb (snd x) (snd z)).
    + intros [-> | H]; [left; reflexivity | right; exact H].
    + intros [-> | [-> | H]].
      * right. apply IH. left; reflexivity.
      * left; reflexivity.
      * right. apply IH. right; exact H.
Qed.

Lemma sort_by_distance_In_iff (y : string * distance)
  (l : list (string * distance)) :
  In y (sort_by_distance l) <-> In y l.
Proof.
  split; [apply sort_by_distance_In|].
  induction l as [|x l IH]; cbn [sort_by_distance fold_right]; [tauto|].
  fold (sort_by_distance l). intros H.
  apply insert_by_distance_In_iff.
  destruct H as [-> | H]; [left; reflexivity | right; apply IH; exact H].
Qed.

(** A k-nearest search returns as many pairs as asked for, or all tree
    locations when there are fewer; and every tree location is in the
    result, or the result is full of locations that are no farther. *)
Lemma k_nearest_neighbors_accounts (t : KDTree) (point : list Q) (kk : nat) :
  built t -> length point = k t ->
  length (k_nearest_neighbors t point kk)
  = Nat.min kk (length (entries (root t)))
  /\ forall e, In e (entries (root t)) ->
       (exists d, In (fst e, d) (k_nearest_neighbors t point kk)
                  /\ radicand d == dist_sq (snd e) point)
       \/ (length (k_nearest_neighbors t point kk) = kk
           /\ forall r, In r (k_nearest_neighbors t point kk) ->
                radicand (snd r) <= dist_sq (snd e) point).
Proof.
  intros (Hk & Hord & Hdim) Hpoint. unfold k_nearest_neighbors.
  destruct (root t) as [|nid npoint lft rgt] eqn:Hroot.
  { split; [cbn [entries length]; lia | intros e []]. }
  rewrite <- Hroot in *.
  destruct (_k_nearest_neighbors_searches (k t) kk point (root t) Hk Hpoint
              Hdim 0 Hord [] (SSorted_nil _) (Nat.le_0_l kk))
    as (_ & Hlen & Hgrow & _ & Hall).
  assert (Hresult :
            length (sort_by_distance
                      (map (fun it : item => (snd it, Sqrt (- fst it)))
                         (_k_nearest_neighbors (k t) kk point (root t) 0 [])))
            = length (_k_nearest_neighbors (k t) kk point (root t) 0 [])).
  { rewrite sort_by_distance_length, length_map. reflexivity. }
  split.
  - rewrite Hresult, Hgrow. cbn [length]. reflexivity.
  - intros e He. destruct (Hall e He) as [Hin | [Hfull Hfar]].
    + left. exists (Sqrt (- - dist_sq (snd e) point)). split.
      * apply sort_by_distance_In_iff. apply in_map_iff.
        eexists. split; [|exact Hin]. reflexivity.
      * cbn [radicand]. ring.
    + right. split; [rewrite Hresult; exact Hfull|].
      intros r Hr. apply sort_by_distance_In in Hr.
      apply in_map_iff in Hr. destruct Hr as (it & <- & Hit).
      cbn [snd radicand]. specialize (Hfar it Hit). cbn [fst] in Hfar. lra.
Qed.

End KDSearchFacts.

(** ** Knowledge store: cache, relations and indices *)

Section StoreMoreFacts.

Import Store StoreMore.
Local Open Scope Q_scope.

(** *** The cache *)

Lemma get_node_conn (st : FractalKnowledgeStore) (id : string) :
  conn (snd (get_node st id)) = conn st
  /\ persistence_enabled (snd (get_node st id)) = persistence_enabled st
  /\ trinity_index (snd (get_node st id)) = trinity_index st
  /\ complex_index (snd (get_node st id)) = complex_index st.
Proof.
  unfold get_node. destruct (nodes st !! id); [repeat split|].
  destruct (conn st) as [db|] eqn:Hconn; [|cbn; rewrite Hconn; repeat split].
  destruct (persistence_enabled st) eqn:Hp;
    [|cbn; rewrite Hconn, Hp; repeat split].
  destruct (_load_node_from_db db id); cbn; rewrite ?Hconn, ?Hp;
    repeat split.
Qed.

Lemma get_node_cached (st : FractalKnowledgeStore) (id : string)
  (node : OntologicalNode) :
  fst (get_node st id) = Some node ->
  nodes (snd (get_node st id)) !! id = Some node.
Proof.
  unfold get_node. destruct (nodes st !! id) as [n|] eqn:Hc.
  - cbn [fst snd]. intros H. injection H as <-. exact Hc.
  - destruct (conn st) as [db|]; [|discriminate].
    destruct (persistence_enabled st); [|discriminate].
    destruct (_load_node_from_db db id) as [n|]; [|discriminate].
    cbn [fst snd nodes set_nodes]. intros H. injection H as <-.
    apply lookup_insert_eq.
Qed.

Lemma get_node_keeps (st : FractalKnowledgeStore) (id id' : string)
  (node : OntologicalNode) :
  nodes st !! id' = Some node ->
  nodes (snd (get_node st id)) !! id' = Some node.
Proof.
  intros Hnode. unfold get_node.
  destruct (nodes st !! id) as [n|] eqn:Hc; [exact Hnode|].
  destruct (conn st) as [db|]; [|exact Hnode].
  destruct (persistence_enabled st); [|exact Hnode].
  destruct (_load_node_from_db db id) as [n|]; [|exact Hnode].
  cbn [snd nodes set_nodes].
  rewrite lookup_insert_ne; [exact Hnode | congruence].
Qed.

Lemma get_node_stored (st : FractalKnowledgeStore) (node : OntologicalNode) :
  get_node (store_node st node) (node_id node)
  = (Some node, store_node st node).
Proof.
  unfold get_node. rewrite store_node_nodes, lookup_insert_eq. reflexivity.
Qed.

Lemma get_node_again (st : FractalKnowledgeStore) (id : string)
  (node : OntologicalNode) :
  fst (get_node st id) = Some node ->
  get_node (snd (get_node st id)) id = (Some node, snd (get_node st id)).
Proof.
  intros Hget. pose proof (get_node_cached _ _ _ Hget) as Hc.
  unfold get_node at 1. rewrite Hc. reflexivity.
Qed.

Lemma get_node_none (st : FractalKnowledgeStore) (id : string) :
  fst (get_node st id) = None -> snd (get_node st id) = st.
Proof.
  unfold get_node.
  destruct (nodes st !! id); [discriminate|].
  destruct (conn st) as [db|]; [|reflexivity].
  destruct (persistence_enabled st); [|reflexivity].
  destruct (_load_node_from_db db id); [discriminate | reflexivity].
Qed.

(** X12.  [get_node] returns a node that was stored under its id, and it
    is stable: a node it returned is returned again by the next call,
    which changes nothing, and a call that finds nothing changes
    nothing. *)
Theorem get_node_observes :
  (forall (st : FractalKnowledgeStore) (node : OntologicalNode),
     get_node (store_node st node) (node_id node)
     = (Some node, store_node st node))
  /\ (forall (st : FractalKnowledgeStore) (id : string)
            (node : OntologicalNode),
        fst (get_node st id) = Some node ->
        get_node (snd (get_node st id)) id
        = (Some node, snd (get_node st id)))
  /\ (forall (st : FractalKnowledgeStore) (id : string),
        fst (get_node st id) = None -> snd (get_node st id) = st).
Proof.
  split; [exact get_node_stored|].
  split; [exact get_node_again | exact get_node_none].
Qed.

(** *** Relations *)

Lemma add_unseen_incl (rows : list relation_row) :
  forall (relations : list OntologicalRelation) (r : OntologicalRelation),
    In r relations -> In r (add_unseen rows relations).
Proof.
  induction rows as [|row rows IH]; intros relations r Hr;
    cbn [add_unseen]; [exact Hr|].
  destruct (bool_decide _); apply IH; [exact Hr|].
  apply in_or_app. left; exact Hr.
Qed.

Lemma add_unseen_NoDup (rows : list relation_row) :
  forall relations : list OntologicalRelation,
    NoDup (map relation_key relations) ->
    NoDup (map relation_key (add_unseen rows relations)).
Proof.
  induction rows as [|row rows IH]; intros relations Hnd;
    cbn [add_unseen]; [exact Hnd|].
  destruct (bool_decide _) eqn:Hseen; [apply IH; exact Hnd|].
  apply bool_decide_eq_false in Hseen. apply IH.
  rewrite map_app. cbn [map relation_key source_id target_id relation_type].
  apply NoDup_app. split; [exact Hnd|]. split.
  - intros key Hkey Hnew. apply list_elem_of_singleton in Hnew. subst key.
    exact (Hseen Hkey).
  - apply NoDup_singleton.
Qed.

Lemma cached_relations_keys (node : OntologicalNode) (id : string)
  (rt : option string) :
  NoDup (map relationship_key (relationships node)) ->
  NoDup (map relation_key (cached_relations node id rt)).
Proof.
  unfold cached_relations. generalize (relationships node) as rels.
  induction rels as [|[[k t] m] rels IH]; intros Hnd;
    cbn [omap list_omap map]; [constructor|].
  cbn [map relationship_key fst snd] in Hnd.
  apply NoDup_cons in Hnd. destruct Hnd as [Hfresh Hnd].
  specialize (IH Hnd).
  destruct (bool_decide _); [|exact IH].
  cbn [map relation_key source_id target_id relation_type].
  apply NoDup_cons. split; [|exact IH].
  intros Hin. apply Hfresh.
  apply list_elem_of_fmap in Hin. destruct Hin as (r & Hkey & Hr).
  apply list_elem_of_omap in Hr. destruct Hr as ([[k' t'] m'] & Hin' & Hsome).
  destruct (bool_decide _); [|discriminate Hsome].
  injection Hsome as <-. cbn in Hkey. injection Hkey as -> ->.
  apply list_elem_of_fmap. exists (k', t', m'). split; [reflexivity | exact Hin'].
Qed.

Lemma upsert_keys (rels : list relationship) (k t : string)
  (m : gmap string jvalue) :
  NoDup (map relationship_key rels) ->
  NoDup (map relationship_key (upsert rels k t m)).
Proof.
  unfold upsert. intros Hnd.
  destruct (replace_first rels k t m) as [rels'|] eqn:Hr.
  - assert (Hsame : map relationship_key rels' = map relationship_key rels).
    { clear Hnd. revert rels' Hr.
      induction rels as [|[[rtype tid] meta] rest IH]; intros rels';
        cbn [replace_first]; [discriminate|].
      destruct (decide (rtype = k /\ tid = t)) as [[-> ->] | Hm].
      - intros H. injection H as <-. reflexivity.
      - destruct (replace_first rest k t m) as [rest'|]; [|discriminate].
        intros H. injection H as <-. cbn [map]. now rewrite (IH rest'). }
    rewrite Hsame. exact Hnd.
  - rewrite map_app. apply NoDup_app. split; [exact Hnd|]. split.
    + intros key Hkey Hnew. apply list_elem_of_singleton in Hnew.
      subst key. apply replace_first_None in Hr.
      apply list_elem_of_fmap in Hkey. destruct Hkey as ([[k' t'] m'] & Heq & Hin).
      cbn in Heq. injection Heq as <- <-.
      apply list_elem_of_In in Hin.
      assert (Hpos : (1 <= count_key k t rels)%nat).
      { clear -Hin. induction rels as [|r rest IH]; [destruct Hin|].
        rewrite count_key_cons. destruct Hin as [-> | Hin].
        - cbn [fst snd].
          rewrite bool_decide_eq_true_2 by (split; reflexivity). lia.
        - specialize (IH Hin). destruct (bool_decide _); lia. }
      lia.
    + apply NoDup_singleton.
Qed.

Lemma get_node_unknown (st : FractalKnowledgeStore) (id : string) :
  unknown st id -> get_node st id = (None, st).
Proof.
  intros [Hcache Hdb]. unfold get_node. rewrite Hcache.
  destruct (conn st) as [db|]; [|reflexivity].
  destruct (persistence_enabled st); [|reflexivity].
  unfold _load_node_from_db. rewrite (Hdb db eq_refl). reflexivity.
Qed.

Lemma get_node_found_known (st : FractalKnowledgeStore) (id : string)
  (node : OntologicalNode) :
  fst (get_node st id) = Some node -> ~ unknown st id.
Proof.
  intros Hget Hunknown. rewrite (get_node_unknown _ _ Hunknown) in Hget.
  discriminate Hget.
Qed.

Lemma get_node_other (st : FractalKnowledgeStore) (id id' : string) :
  id <> id' -> nodes (snd (get_node st id)) !! id' = nodes st !! id'.
Proof.
  intros Hne. unfold get_node.
  destruct (nodes st !! id) as [n|]; [reflexivity|].
  destruct (conn st) as [db|]; [|reflexivity].
  destruct (persistence_enabled st); [|reflexivity].
  destruct (_load_node_from_db db id) as [n|]; [|reflexivity].
  cbn [snd nodes set_nodes]. apply lookup_insert_ne. exact Hne.
Qed.

Lemma add_relation_readable (st : FractalKnowledgeStore)
  (src tgt kind : string) (w : Q) (m : option (gmap string jvalue))
  (sfx : string) (n n' : OntologicalNode) (rt : option string)
  (dir : direction) :
  nodes st !! src = Some n -> nodes st !! tgt = Some n' ->
  dir <> incoming -> rt = None \/ rt = Some kind ->
  In (MkRelation src tgt kind (JNum w) (with_strength m w))
    (fst (get_relations (snd (add_relation st src tgt kind w m sfx))
            src rt dir)).
Proof.
  intros Hsrc Htgt Hdir Hrt.
  pose proof (add_relation_cached st src tgt kind w m sfx n n' Hsrc Htgt)
    as Hcached.
  set (st' := snd (add_relation st src tgt kind w m sfx)) in *.
  destruct (nodes st' !! src) as [node|] eqn:Hnode; [|discriminate Hcached].
  cbn in Hcached. injection Hcached as Hrels.
  unfold get_relations, get_node. rewrite Hnode.
  assert (Hin : In (MkRelation src tgt kind (JNum w) (with_strength m w))
                  (cached_relations node src rt)).
  { unfold cached_relations. rewrite Hrels.
    apply list_elem_of_In. apply list_elem_of_omap.
    exists (kind, tgt, with_strength m w). split.
    - apply list_elem_of_In. apply upsert_count.
    - rewrite bool_decide_eq_true_2 by exact Hrt.
      unfold with_strength. rewrite lookup_insert_eq. reflexivity. }
  destruct dir; [|congruence|];
    (destruct (conn st') as [db|]; [destruct (persistence_enabled st')|]);
    cbn [fst]; try apply add_unseen_incl; exact Hin.
Qed.

(** X13.  A relation added between two cached nodes is read back by
    [get_relations] on the source, for the directions outgoing and both
    and for its own type or no type filter, with the strength and the
    metadata of the call. *)
Theorem add_relation_then_get_relations :
  forall (st : FractalKnowledgeStore) (src tgt kind : string) (w : Q)
         (m : option (gmap string jvalue)) (sfx : string)
         (n n' : OntologicalNode) (rt : option string) (dir : direction),
    nodes st !! src = Some n -> nodes st !! tgt = Some n' ->
    dir <> incoming -> rt = None \/ rt = Some kind ->
    In (MkRelation src tgt kind (JNum w)
          (<["strength" := JNum w]> (default ∅ m)))
      (fst (get_relations (snd (add_relation st src tgt kind w m sfx))
              src rt dir)).
Proof.
  intros st src tgt kind w m sfx n n' rt dir Hsrc Htgt Hdir Hrt.
  exact (add_relation_readable st src tgt kind w m sfx n n' rt dir
           Hsrc Htgt Hdir Hrt).
Qed.

Lemma add_relation_then_get_relations_witness :
  In (MkRelation "A" "B" "entails" (JNum (9 # 10))
        (<["strength" := JNum (9 # 10)]> ∅))
    (fst (get_relations
            (snd (add_relation example_store "A" "B" "entails" (9 # 10)
                    None "0000"))
            "A" (Some "entails") outgoing)).
Proof.
  apply (add_relation_then_get_relations example_store "A" "B" "entails"
           (9 # 10) None "0000" scenario_A scenario_B (Some "entails")
           outgoing).
  - vm_compute; reflexivity.
  - vm_compute; reflexivity.
  - discriminate.
  - right; reflexivity.
Defined.

(** X14.  [get_relations] returns no (source, target, type) key twice when
    the node it reads has no (type, target) pair twice in its
    relationships; [add_relation] keeps the relationships of a cached
    source node free of such repetitions. *)
Theorem get_relations_keys_unique :
  (forall (st : FractalKnowledgeStore) (id : string) (rt : option string)
          (dir : direction),
     (forall node, fst (get_node st id) = Some node ->
                   NoDup (map relationship_key (relationships node))) ->
     NoDup (map relation_key (fst (get_relations st id rt dir))))
  /\ (forall (st : FractalKnowledgeStore) (src tgt kind : string) (w : Q)
            (m : option (gmap string jvalue)) (sfx : string)
            (n n' : OntologicalNode),
        nodes st !! src = Some n -> nodes st !! tgt = Some n' ->
        NoDup (map relationship_key (relationships n)) ->
        forall node,
          nodes (snd (add_relation st src tgt kind w m sfx)) !! src
          = Some node ->
          NoDup (map relationship_key (relationships node))).
Proof.
  split.
  - intros st id rt dir Hunique. unfold get_relations.
    destruct (get_node st id) as [node st1] eqn:Hget. cbn [fst] in Hunique.
    assert (Hcached :
              NoDup (map relation_key
                       match node, dir with
                       | Some _, incoming | None, _ => []
                       | Some node, _ => cached_relations node id rt
                       end)).
    { destruct node as [node|]; [|destruct dir; constructor].
      destruct dir; try constructor;
        apply cached_relations_keys; apply Hunique; reflexivity. }
    destruct (conn st1) as [db|]; [destruct (persistence_enabled st1)|];
      cbn [fst]; try exact Hcached.
    apply add_unseen_NoDup. exact Hcached.
  - intros st src tgt kind w m sfx n n' Hsrc Htgt Hnd node Hnode.
    pose proof (add_relation_cached st src tgt kind w m sfx n n' Hsrc Htgt)
      as Hcached.
    rewrite Hnode in Hcached. cbn in Hcached. injection Hcached as ->.
    apply upsert_keys. exact Hnd.
Qed.

(** X15.  [add_relation] with an endpoint that is neither cached nor in
    the nodes table returns [False], writes nothing to the database and
    leaves every cached node as it was. *)
Theorem add_relation_unknown_endpoint :
  forall (st : FractalKnowledgeStore) (src tgt kind : string) (w : Q)
         (m : option (gmap string jvalue)) (sfx : string),
    unknown st src \/ unknown st tgt ->
    fst (add_relation st src tgt kind w m sfx) = false
    /\ conn (snd (add_relation st src tgt kind w m sfx)) = conn st
    /\ forall id node,
         nodes st !! id = Some node ->
         nodes (snd (add_relation st src tgt kind w m sfx)) !! id
         = Some node.
Proof.
  intros st src tgt kind w m sfx Hunknown. unfold add_relation.
  destruct (get_node st src) as [[n|] st1] eqn:Hget1.
  - destruct Hunknown as [Hsrc | Htgt].
    { exfalso. apply (get_node_found_known st src n); [|exact Hsrc].
      rewrite Hget1. reflexivity. }
    assert (Hst1 : st1 = snd (get_node st src)) by (rewrite Hget1; reflexivity).
    assert (Hne : src <> tgt).
    { intros ->. apply (get_node_found_known st tgt n); [|exact Htgt].
      rewrite Hget1. reflexivity. }
    assert (Hunknown1 : unknown st1 tgt).
    { destruct Htgt as [Hcache Hdb]. split.
      - rewrite Hst1, get_node_other by exact Hne. exact Hcache.
      - intros db Hdb1. apply Hdb. rewrite <- Hdb1, Hst1.
        symmetry. apply get_node_conn. }
    rewrite (get_node_unknown _ _ Hunknown1). cbn [fst snd].
    split; [reflexivity|]. split.
    + rewrite Hst1. apply get_node_conn.
    + intros id node Hnode. rewrite Hst1. apply get_node_keeps. exact Hnode.
  - assert (Hst1 : st1 = snd (get_node st src)) by (rewrite Hget1; reflexivity).
    assert (Hnone : fst (get_node st src) = None) by (rewrite Hget1; reflexivity).
    rewrite (get_node_none st src Hnone) in Hst1. subst st1. cbn [fst snd].
    repeat split. intros id node Hnode. exact Hnode.
Qed.

Lemma add_relation_unknown_endpoint_witness :
  unknown example_store "Z"
  /\ fst (add_relation example_store "A" "Z" "entails" 1 None "0000") = false
  /\ conn (snd (add_relation example_store "A" "Z" "entails" 1 None "0000"))
     = conn example_store.
Proof.
  assert (Hunknown : unknown example_store "Z").
  { split; [vm_compute; reflexivity|].
    intros db Hdb. vm_compute in Hdb. injection Hdb as <-.
    vm_compute; reflexivity. }
  split; [exact Hunknown|].
  split;
    apply (add_relation_unknown_endpoint example_store "A" "Z" "entails" 1
             None "0000" (or_intror Hunknown)).
Defined.

(** X16.  [create_entailment] between two cached nodes records an
    "entails" relation whose strength lies in [0, 1]: the given strength
    when that is in range, and the nearer bound otherwise;
    [get_relations] reads it back. *)
Theorem create_entailment_strength_clamped :
  forall (st : FractalKnowledgeStore) (src tgt : string) (s now : Q)
         (sfx : string) (n n' : OntologicalNode),
    nodes st !! src = Some n -> nodes st !! tgt = Some n' ->
    exists w : Q,
      0 <= w <= 1
      /\ (0 <= s <= 1 -> w = s)
      /\ (s < 0 -> w == 0)
      /\ (1 < s -> w == 1)
      /\ In (MkRelation src tgt "entails" (JNum w)
               (<["strength" := JNum w]> {[ "created_at" := JNum now ]}))
           (fst (get_relations
                   (snd (create_entailment st src tgt s now sfx))
                   src (Some "entails") outgoing)).
Proof.
  intros st src tgt s now sfx n n' Hsrc Htgt. unfold create_entailment.
  set (w := if negb (Qle_bool 0 s && Qle_bool s 1)
            then Qmax 0 (Qmin 1 s) else s).
  exists w.
  assert (Hw : (0 <= s <= 1 -> w = s)
               /\ (~ 0 <= s <= 1 -> w = Qmax 0 (Qmin 1 s))).
  { subst w. destruct (Qle_bool 0 s) eqn:H0; destruct (Qle_bool s 1) eqn:H1;
      cbn [andb negb]; (split; [intros [Ha Hb] | intros Hn]);
      try reflexivity; exfalso.
    - apply Hn. split; apply Qle_bool_iff; assumption.
    - apply Qle_bool_iff in Hb. congruence.
    - apply Qle_bool_iff in Ha. congruence.
    - apply Qle_bool_iff in Ha. congruence. }
  destruct Hw as [Hin Hout].
  assert (Hrange : 0 <= w <= 1).
  { destruct (Qlt_le_dec s 0) as [Hneg | Hpos];
      [|destruct (Qlt_le_dec 1 s) as [Hbig | Hsmall]].
    - rewrite Hout by lra. split; [apply Q.le_max_l|].
      apply Q.max_lub; [lra | apply Q.le_min_l].
    - rewrite Hout by lra. split; [apply Q.le_max_l|].
      apply Q.max_lub; [lra | apply Q.le_min_l].
    - rewrite Hin by lra. lra. }
  split; [exact Hrange|]. split; [exact Hin|]. split; [|split].
  - intros Hneg. rewrite Hout by lra.
    rewrite Q.min_r by lra. rewrite Q.max_l by lra. reflexivity.
  - intros Hbig. rewrite Hout by lra.
    rewrite Q.min_l by lra. rewrite Q.max_r by lra. reflexivity.
  - assert (Hdir : outgoing <> incoming) by discriminate.
    exact (add_relation_readable st src tgt "entails" w
             (Some {[ "created_at" := JNum now ]}) sfx n n'
             (Some "entails") outgoing Hsrc Htgt Hdir
             (or_intror eq_refl)).
Qed.

Lemma create_entailment_strength_clamped_witness :
  exists w : Q,
    0 <= w <= 1
    /\ (0 <= 3 # 2 <= 1 -> w = 3 # 2)
    /\ (3 # 2 < 0 -> w == 0)
    /\ (1 < 3 # 2 -> w == 1)
    /\ In (MkRelation "A" "B" "entails" (JNum w)
             (<["strength" := JNum w]> {[ "created_at" := JNum 0 ]}))
         (fst (get_relations
                 (snd (create_entailment example_store "A" "B" (3 # 2) 0
                         "0000"))
                 "A" (Some "entails") outgoing)).
Proof.
  apply (create_entailment_strength_clamped example_store "A" "B" (3 # 2) 0
           "0000" scenario_A scenario_B).
  - vm_compute; reflexivity.
  - vm_compute; reflexivity.
Defined.

End StoreMoreFacts.

(** ** k-d tree and the indices of the store *)

Section IndexFacts.

Import KD KDSearch Store.
Local Open Scope Q_scope.

(** X17.  On a tree built by insertions, [insert] of a point of the
    tree's dimension adds exactly one location, with the given id and
    point, keeps every other location and the dimension, and leaves the
    tree ordered on every axis. *)
Theorem insert_adds_one_location :
  forall (t : KDTree) (id : string) (p : list Q),
    built t -> length p = k t ->
    k (insert t id p) = k t
    /\ Permutation (entries (root (insert t id p)))
         ((id, p) :: entries (root t))
    /\ built (insert t id p).
Proof.
  intros t id p Hbuilt Hp. split; [reflexivity|]. split.
  - unfold insert. cbn [root]. apply entries_insert.
  - apply insert_built; assumption.
Qed.

Lemma insert_adds_one_location_witness :
  Permutation (entries (root (insert example_tree "d" [2; 0])))
    (("d", [2; 0]) :: entries (root example_tree))
  /\ built (insert example_tree "d" [2; 0]).
Proof.
  split;
    apply (insert_adds_one_location example_tree "d" [2; 0]
             example_tree_built eq_refl).
Defined.

(** X18.  On a tree built by insertions and for [kk >= 1],
    [k_nearest_neighbors] returns min(kk, size) pairs in ascending order
    of distance, each a tree location with its distance to the query, and
    every tree location is in the result with its distance or is at least
    as far from the query as every returned pair. *)
Theorem k_nearest_neighbors_nearest :
  forall (t : KDTree) (point : list Q) (kk : nat),
    built t -> length point = k t -> (1 <= kk)%nat ->
    length (k_nearest_neighbors t point kk)
    = Nat.min kk (length (entries (root t)))
    /\ StronglySorted distance_le (k_nearest_neighbors t point kk)
    /\ (forall id d, In (id, d) (k_nearest_neighbors t point kk) ->
          exists p, In (id, p) (entries (root t))
                    /\ radicand d == dist_sq p point)
    /\ (forall e, In e (entries (root t)) ->
          (exists d, In (fst e, d) (k_nearest_neighbors t point kk)
                     /\ radicand d == dist_sq (snd e) point)
          \/ (forall r, In r (k_nearest_neighbors t point kk) ->
                radicand (snd r) <= dist_sq (snd e) point)).
Proof.
  intros t point kk Hbuilt Hpoint _.
  destruct (k_nearest_neighbors_accounts t point kk Hbuilt Hpoint)
    as [Hlen Hall].
  destruct (k_nearest_neighbors_sorted_bounded t point kk)
    as (Hsorted & _ & Hfrom).
  split; [exact Hlen|]. split; [exact Hsorted|]. split; [exact Hfrom|].
  intros e He. destruct (Hall e He) as [Hin | [_ Hfar]];
    [left; exact Hin | right; exact Hfar].
Qed.

Lemma k_nearest_neighbors_nearest_witness :
  (1 <= 2)%nat
  /\ length (k_nearest_neighbors example_tree [2; 2] 2) = 2%nat
  /\ StronglySorted distance_le (k_nearest_neighbors example_tree [2; 2] 2).
Proof.
  split; [lia|].
  split;
    apply (k_nearest_neighbors_nearest example_tree [2; 2] 2
             example_tree_built eq_refl);
    lia.
Defined.

Lemma k_nearest_neighbors_member (t : KDTree) (id : string) (p : list Q) :
  built t -> length p = k t -> In (id, p) (entries (root t)) ->
  exists j d, k_nearest_neighbors t p 1 = [(j, d)] /\ radicand d == 0.
Proof.
  intros Hbuilt Hp Hin.
  destruct (k_nearest_neighbors_accounts t p 1 Hbuilt Hp) as [Hlen Hall].
  destruct (k_nearest_neighbors_sorted_bounded t p 1) as (_ & _ & Hfrom).
  destruct (k_nearest_neighbors t p 1) as [|[j d] rest] eqn:Hres.
  { exfalso. destruct (entries (root t)); [destruct Hin | discriminate Hlen]. }
  destruct rest as [|r rest].
  2:{ exfalso. cbn [length] in Hlen. lia. }
  exists j, d. split; [reflexivity|].
  destruct (Hfrom j d (or_introl eq_refl)) as (q & _ & Hd).
  pose proof (dist_sq_nonneg q p) as Hnonneg.
  pose proof (dist_sq_same p) as Hsame.
  destruct (Hall (id, p) Hin) as [(d' & Hd' & Hrad) | [_ Hfar]];
    cbn [fst snd] in *.
  - destruct Hd' as [Heq | []]. injection Heq as -> ->.
    rewrite Hrad. exact Hsame.
  - specialize (Hfar (j, d) (or_introl eq_refl)). cbn [snd] in Hfar. lra.
Qed.

Lemma store_node_indexed (st : FractalKnowledgeStore)
  (node : OntologicalNode) : indexed (store_node st node) node.
Proof.
  unfold indexed, store_node. destruct (trinity_vector node) as [[e g] t].
  cbn [trinity_index complex_index insert root].
  split; apply In_entries_insert; left; reflexivity.
Qed.

Lemma store_node_keeps_indexed (st : FractalKnowledgeStore)
  (node node' : OntologicalNode) :
  indexed st node -> indexed (store_node st node') node.
Proof.
  unfold indexed, store_node. destruct (trinity_vector node) as [[e g] t].
  destruct (trinity_vector node') as [[e' g'] t'].
  cbn [trinity_index complex_index insert root]. intros [Ht Hc].
  split; apply In_entries_insert; right; assumption.
Qed.

Lemma init_indices_built (cs : option Z) (p : option bool) :
  indices_built (init cs p).
Proof.
  unfold indices_built, init. cbn [trinity_index complex_index].
  repeat split; try apply new_tree_built; cbn; lia.
Qed.

Lemma store_node_indices_built (st : FractalKnowledgeStore)
  (node : OntologicalNode) :
  indices_built st -> indices_built (store_node st node).
Proof.
  unfold indices_built, store_node. intros (Hk3 & Hb3 & Hk2 & Hb2).
  destruct (trinity_vector node) as [[e g] t].
  cbn [trinity_index complex_index].
  repeat split; try assumption; try (apply insert_built; [assumption|]);
    cbn [length]; congruence.
Qed.

Lemma fold_insert_built {A : Type} (f : A -> string * list Q)
  (rows : list A) :
  forall t : KDTree,
    built t -> Forall (fun r => length (snd (f r)) = k t) rows ->
    built (fold_left (fun t r => insert t (fst (f r)) (snd (f r))) rows t)
    /\ k (fold_left (fun t r => insert t (fst (f r)) (snd (f r))) rows t)
       = k t.
Proof.
  induction rows as [|r rows IH]; intros t Hbuilt Hrows; cbn [fold_left];
    [split; [exact Hbuilt | reflexivity]|].
  apply Forall_cons in Hrows. destruct Hrows as [Hr Hrows].
  destruct (IH (insert t (fst (f r)) (snd (f r)))) as [Hb Hk].
  - apply insert_built; assumption.
  - exact Hrows.
  - split; [exact Hb | exact Hk].
Qed.

Lemma fold_insert_entries {A : Type} (f : A -> string * list Q)
  (rows : list A) :
  forall t : KDTree,
    Permutation
      (entries (root (fold_left
         (fun t r => insert t (fst (f r)) (snd (f r))) rows t)))
      (map f rows ++ entries (root t)).
Proof.
  induction rows as [|r rows IH]; intros t; cbn [fold_left map app];
    [reflexivity|].
  rewrite IH. unfold insert. cbn [root].
  rewrite entries_insert. rewrite <- surjective_pairing.
  symmetry. apply Permutation_middle.
Qed.

Lemma fold_left_pointwise {A B : Type} (f g : A -> B -> A) (l : list B) :
  (forall a b, f a b = g a b) ->
  forall a, fold_left f l a = fold_left g l a.
Proof.
  intros Hfg. induction l as [|b l IH]; intros a; cbn [fold_left];
    [reflexivity|].
  rewrite Hfg. apply IH.
Qed.

Lemma reopen_trinity_index (cs : option Z) (db : Database) :
  trinity_index (reopen cs db)
  = fold_left
      (fun t r => insert t (fst (trinity_entry r)) (snd (trinity_entry r)))
      (map_to_list (nodes_table db)) (new_tree 3).
Proof.
  unfold reopen. cbn [trinity_index]. apply fold_left_pointwise.
  intros t [id node]. unfold trinity_entry. cbn [fst snd].
  destruct (trinity_vector node) as [[e g] t']. reflexivity.
Qed.

Lemma reopen_complex_index (cs : option Z) (db : Database) :
  complex_index (reopen cs db)
  = fold_left
      (fun t r => insert t (fst (complex_entry r)) (snd (complex_entry r)))
      (map_to_list (nodes_table db)) (new_tree 2).
Proof. reflexivity. Qed.

Lemma reopen_indices_built (cs : option Z) (db : Database) :
  indices_built (reopen cs db).
Proof.
  unfold indices_built.
  rewrite reopen_trinity_index, reopen_complex_index.
  destruct (fold_insert_built trinity_entry (map_to_list (nodes_table db))
              (new_tree 3)) as [Hb3 Hk3];
    [apply new_tree_built; lia
    | apply List.Forall_forall; intros r _; reflexivity |].
  destruct (fold_insert_built complex_entry (map_to_list (nodes_table db))
              (new_tree 2)) as [Hb2 Hk2];
    [apply new_tree_built; lia
    | apply List.Forall_forall; intros r _; reflexivity |].
  repeat split; try apply Hb3; try apply Hb2; assumption.
Qed.

Lemma add_relation_indices (st : FractalKnowledgeStore)
  (src tgt kind : string) (w : Q) (m : option (gmap string jvalue))
  (sfx : string) :
  trinity_index (snd (add_relation st src tgt kind w m sfx))
  = trinity_index st
  /\ complex_index (snd (add_relation st src tgt kind w m sfx))
     = complex_index st.
Proof.
  unfold add_relation.
  destruct (get_node_conn st src) as (_ & _ & Ht1 & Hc1).
  destruct (get_node st src) as [[n|] st1]; cbn [snd] in *;
    [|split; assumption].
  destruct (get_node_conn st1 tgt) as (_ & _ & Ht2 & Hc2).
  destruct (get_node st1 tgt) as [[n'|] st2]; cbn [snd] in *;
    [|split; congruence].
  rewrite <- Ht1, <- Hc1, <- Ht2, <- Hc2.
  destruct (nodes st2 !! src) as [node|];
    cbn [conn persistence_enabled set_nodes];
    (destruct (conn st2) as [db|]; [destruct (persistence_enabled st2)|]);
    try (destruct (nodes_table db !! src);
         [destruct (nodes_table db !! tgt)|]);
    split; reflexivity.
Qed.

Lemma get_relations_indices (st : FractalKnowledgeStore) (id : string)
  (rt : option string) (dir : direction) :
  trinity_index (snd (get_relations st id rt dir)) = trinity_index st
  /\ complex_index (snd (get_relations st id rt dir)) = complex_index st.
Proof.
  unfold get_relations.
  destruct (get_node_conn st id) as (_ & _ & Ht1 & Hc1).
  destruct (get_node st id) as [node st1]; cbn [snd] in *.
  destruct (conn st1); [destruct (persistence_enabled st1)|];
    split; assumption.
Qed.

(** X19.  A stored node is in both indices and stays there whatever is
    stored afterwards; on a store whose indices were built by insertions,
    the nearest-node queries at an indexed node's own trinity vector or
    position with k <= 1 return one pair, at distance 0. *)
Theorem stored_node_found :
  (forall (st : FractalKnowledgeStore) (node : OntologicalNode),
     indexed (store_node st node) node)
  /\ (forall (st : FractalKnowledgeStore) (node node' : OntologicalNode),
        indexed st node -> indexed (store_node st node') node)
  /\ (forall (st : FractalKnowledgeStore) (node : OntologicalNode)
            (kz : Z),
        indices_built st -> indexed st node -> (kz <= 1)%Z ->
        (exists j d,
            find_nearest_by_trinity st (trinity_vector node) kz = [(j, d)]
            /\ radicand d == 0)
        /\ (exists j d,
               find_nearest_by_position st (c node) kz = [(j, d)]
               /\ radicand d == 0)).
Proof.
  split; [exact store_node_indexed|].
  split; [exact store_node_keeps_indexed|].
  intros st node kz (Hk3 & Hb3 & Hk2 & Hb2) Hindexed Hkz.
  unfold indexed in Hindexed.
  unfold find_nearest_by_trinity, find_nearest_by_position.
  destruct (trinity_vector node) as [[e g] t].
  destruct Hindexed as [Hin3 Hin2].
  replace (Z.to_nat (Z.max 1 kz)) with 1%nat by lia.
  split.
  - apply (k_nearest_neighbors_member _ (node_id node)); try assumption.
    rewrite Hk3. reflexivity.
  - apply (k_nearest_neighbors_member _ (node_id node)); try assumption.
    rewrite Hk2. reflexivity.
Qed.

(** X20.  The two indices of a store stay ordered k-d trees of dimensions
    3 and 2 through every operation of the store: a new store and a
    reopened one have them, and [store_node], [get_node], [add_relation]
    and [get_relations] keep them. *)
Theorem indices_stay_built :
  (forall cs p, indices_built (init cs p))
  /\ (forall cs db, indices_built (reopen cs db))
  /\ (forall st node, indices_built st -> indices_built (store_node st node))
  /\ (forall st id, indices_built st -> indices_built (snd (get_node st id)))
  /\ (forall st src tgt kind w m sfx,
        indices_built st ->
        indices_built (snd (add_relation st src tgt kind w m sfx)))
  /\ (forall st id rt dir,
        indices_built st -> indices_built (snd (get_relations st id rt dir))).
Proof.
  split; [exact init_indices_built|].
  split; [exact reopen_indices_built|].
  split; [exact store_node_indices_built|].
  unfold indices_built.
  split; [|split].
  - intros st id H. destruct (get_node_conn st id) as (_ & _ & -> & ->).
    exact H.
  - intros st src tgt kind w m sfx H.
    destruct (add_relation_indices st src tgt kind w m sfx) as [-> ->].
    exact H.
  - intros st id rt dir H.
    destruct (get_relations_indices st id rt dir) as [-> ->]. exact H.
Qed.

(** X21.  Reopening a database indexes every persisted node once: each
    row of the nodes table is in both indices under its key, at its
    vector and position, and no id is in an index twice. *)
Theorem reopen_indexes_persisted :
  forall (cs : option Z) (db : Database),
    (forall id node,
        nodes_table db !! id = Some node ->
        indexed (reopen cs db) (set_node_id node id))
    /\ NoDup (ids (root (trinity_index (reopen cs db))))
    /\ NoDup (ids (root (complex_index (reopen cs db))))
    /\ length (ids (root (trinity_index (reopen cs db))))
       = size (nodes_table db)
    /\ length (ids (root (complex_index (reopen cs db))))
       = size (nodes_table db).
Proof.
  intros cs db.
  pose proof (reopen_trinity_index cs db) as H3.
  pose proof (reopen_complex_index cs db) as H2.
  pose proof (fold_insert_entries trinity_entry
                (map_to_list (nodes_table db)) (new_tree 3)) as P3.
  pose proof (fold_insert_entries complex_entry
                (map_to_list (nodes_table db)) (new_tree 2)) as P2.
  rewrite <- H3 in P3. rewrite <- H2 in P2.
  cbn [new_tree root entries] in P3, P2. rewrite app_nil_r in P3, P2.
  assert (Hids3 : Permutation (ids (root (trinity_index (reopen cs db))))
                    (map fst (map_to_list (nodes_table db)))).
  { unfold ids. rewrite P3, map_map. reflexivity. }
  assert (Hids2 : Permutation (ids (root (complex_index (reopen cs db))))
                    (map fst (map_to_list (nodes_table db)))).
  { unfold ids. rewrite P2, map_map. reflexivity. }
  repeat match goal with |- _ /\ _ => split end.
  - intros id node Hnode. unfold indexed, set_node_id.
    cbn [trinity_vector node_id c].
    apply elem_of_map_to_list in Hnode. apply list_elem_of_In in Hnode.
    destruct (trinity_vector node) as [[e g] t] eqn:Hv. split.
    + apply (Permutation_in _ (Permutation_sym P3)).
      apply in_map_iff. exists (id, node). unfold trinity_entry.
      cbn [fst snd]. rewrite Hv. split; [reflexivity | exact Hnode].
    + apply (Permutation_in _ (Permutation_sym P2)).
      apply in_map_iff. exists (id, node). split; [reflexivity | exact Hnode].
  - rewrite Hids3. apply NoDup_fst_map_to_list.
  - rewrite Hids2. apply NoDup_fst_map_to_list.
  - rewrite Hids3, length_map. apply length_map_to_list.
  - rewrite Hids2, length_map. apply length_map_to_list.
Qed.

(** *** Nearest-node queries of the store *)

(** C9 (as amended).  On a store whose indices are k-d trees built by
    insertions, which every store is, the service-level nearest queries
    hand back the result of the k-d tree search for max(1, k) unchanged:
    min(max(1, k), number of tree locations) pairs, sorted ascending by
    distance, each the id of a tree location with the distance from its
    point to the query, and every tree location is in the result with its
    distance or is at least as far from the query as every returned pair.
    Ids are not deduplicated: the tree locations are counted and returned
    one by one, so an id inserted at several locations may appear once per
    location. *)
Theorem find_nearest_returns_k_nearest :
  forall (st : FractalKnowledgeStore) (vector : Q * Q * Q)
         (position : Q * Q) (kz : Z),
    indices_built st ->
    (find_nearest_by_trinity st vector kz
     = k_nearest_neighbors (trinity_index st)
         [fst (fst vector); snd (fst vector); snd vector]
         (Z.to_nat (Z.max 1 kz))
     /\ length (find_nearest_by_trinity st vector kz)
        = Nat.min (Z.to_nat (Z.max 1 kz))
            (length (entries (root (trinity_index st))))
     /\ StronglySorted distance_le (find_nearest_by_trinity st vector kz)
     /\ (forall id d, In (id, d) (find_nearest_by_trinity st vector kz) ->
           exists npoint,
             In (id, npoint) (entries (root (trinity_index st)))
             /\ radicand d
                == dist_sq npoint
                     [fst (fst vector); snd (fst vector); snd vector])
     /\ (forall e, In e (entries (root (trinity_index st))) ->
           (exists d, In (fst e, d) (find_nearest_by_trinity st vector kz)
                      /\ radicand d
                         == dist_sq (snd e)
                              [fst (fst vector); snd (fst vector);
                               snd vector])
           \/ (forall r, In r (find_nearest_by_trinity st vector kz) ->
                 radicand (snd r)
                 <= dist_sq (snd e)
                      [fst (fst vector); snd (fst vector); snd vector])))
    /\ (find_nearest_by_position st position kz
        = k_nearest_neighbors (complex_index st)
            [fst position; snd position] (Z.to_nat (Z.max 1 kz))
        /\ length (find_nearest_by_position st position kz)
           = Nat.min (Z.to_nat (Z.max 1 kz))
               (length (entries (root (complex_index st))))
        /\ StronglySorted distance_le
             (find_nearest_by_position st position kz)
        /\ (forall id d,
              In (id, d) (find_nearest_by_position st position kz) ->
              exists npoint,
                In (id, npoint) (entries (root (complex_index st)))
                /\ radicand d
                   == dist_sq npoint [fst position; snd position])
        /\ (forall e, In e (entries (root (complex_index st))) ->
              (exists d,
                  In (fst e, d) (find_nearest_by_position st position kz)
                  /\ radicand d
                     == dist_sq (snd e) [fst position; snd position])
              \/ (forall r,
                    In r (find_nearest_by_position st position kz) ->
                    radicand (snd r)
                    <= dist_sq (snd e) [fst position; snd position]))).
Proof.
  intros st [[e g] t] position kz (Hk3 & Hb3 & Hk2 & Hb2).
  unfold find_nearest_by_trinity, find_nearest_by_position.
  cbn [fst snd]. split.
  - assert (Hpoint : length [e; g; t] = k (trinity_index st))
      by (rewrite Hk3; reflexivity).
    destruct (k_nearest_neighbors_accounts (trinity_index st) [e; g; t]
                (Z.to_nat (Z.max 1 kz)) Hb3 Hpoint) as [Hlen Hall].
    destruct (k_nearest_neighbors_sorted_bounded (trinity_index st)
                [e; g; t] (Z.to_nat (Z.max 1 kz))) as (Hsorted & _ & Hfrom).
    split; [reflexivity|]. split; [exact Hlen|]. split; [exact Hsorted|].
    split; [exact Hfrom|].
    intros x Hx. destruct (Hall x Hx) as [Hin | [_ Hfar]];
      [left; exact Hin | right; exact Hfar].
  - assert (Hpoint : length [fst position; snd position]
                     = k (complex_index st))
      by (rewrite Hk2; reflexivity).
    destruct (k_nearest_neighbors_accounts (complex_index st)
                [fst position; snd position]
                (Z.to_nat (Z.max 1 kz)) Hb2 Hpoint) as [Hlen Hall].
    destruct (k_nearest_neighbors_sorted_bounded (complex_index st)
                [fst position; snd position] (Z.to_nat (Z.max 1 kz)))
      as (Hsorted & _ & Hfrom).
    split; [reflexivity|]. split; [exact Hlen|]. split; [exact Hsorted|].
    split; [exact Hfrom|].
    intros x Hx. destruct (Hall x Hx) as [Hin | [_ Hfar]];
      [left; exact Hin | right; exact Hfar].
Qed.

Lemma find_nearest_returns_k_nearest_witness :
  indices_built StoreMore.example_store
  /\ length (find_nearest_by_trinity StoreMore.example_store (8 # 10, 7 # 10, 9 # 10) 5)
     = 2%nat
  /\ length (find_nearest_by_position StoreMore.example_store (72 # 100, 7 # 10) 0)
     = 1%nat.
Proof.
  assert (Hbuilt : indices_built StoreMore.example_store).
  { unfold StoreMore.example_store.
    repeat apply store_node_indices_built. apply init_indices_built. }
  split; [exact Hbuilt|].
  split.
  - exact (proj1 (proj2 (proj1
             (find_nearest_returns_k_nearest StoreMore.example_store
                (8 # 10, 7 # 10, 9 # 10) (72 # 100, 7 # 10) 5 Hbuilt)))).
  - exact (proj1 (proj2 (proj2
             (find_nearest_returns_k_nearest StoreMore.example_store
                (8 # 10, 7 # 10, 9 # 10) (72 # 100, 7 # 10) 0 Hbuilt)))).
Defined.

End IndexFacts.
